(** * node-graylogger: a shallow embedding of [src/logger.js] and
    [src/rabbitmq-lib.js], and the properties of the logger they implement.

    The development has three parts.
    - [JS]: the fragment of JavaScript the two files are written in: values,
      a heap of objects addressed by reference, exceptions, and the string
      operations the code calls.
    - [RabbitMQ]: the queue connection manager of [rabbitmq-lib.js]
      ([connect], [sendMessage], [close]); [connect] is an [async] function,
      modelled as a transition system whose steps are the runs between two
      [await]s.
    - [Logger]: the class of [logger.js].

    Modelling conventions.  A JavaScript value is a primitive or a reference
    to an ordinary object (a plain object or an [Error] instance) whose
    properties are data properties; there are no function values, accessors,
    symbols or arrays among the data the caller passes in.  Numbers are exact
    rationals (no rounding, no NaN).  Strings are sequences of bytes, and
    letter case is the ASCII one.  What the external libraries (axios,
    amqplib, the timers) answer is an input of the model. *)

From stdpp Require Import gmap strings list fin_maps pretty.
From Stdlib Require Import Ascii QArith Qcanon.

Set Default Proof Using "Type".
Close Scope Qc_scope.
Close Scope Q_scope.

(* ===================================================================== *)
(** * The JavaScript fragment *)
(* ===================================================================== *)
Module JS.

Abbreviation loc := positive (only parsing).

Inductive value : Type :=
| VUndef
| VNull
| VBool (b : bool)
| VNum (q : Qc)
| VStr (s : string)
| VRef (l : loc).

Global Instance value_eq_dec : EqDecision value.
Proof. solve_decision. Defined.

Global Instance value_inhabited : Inhabited value := populate VUndef.

Definition num (z : Z) : value := VNum (Q2Qc (inject_Z z)).

(** The prototype an object inherits from: [Object.prototype], or the
    prototype of an error class ([Error], [TypeError], ...), whose [name]
    property is the class name. *)
Inductive proto : Type :=
| ObjectProto
| ErrorProto (name : string).

Global Instance proto_eq_dec : EqDecision proto.
Proof. solve_decision. Defined.

Record object : Type := Obj { proto_of : proto; props : gmap string value }.

Global Instance object_eq_dec : EqDecision object.
Proof. solve_decision. Defined.

Definition plain (m : gmap string value) : object := Obj ObjectProto m.

(** What leaves the process: lines on the console, the requests handed to
    axios and to the queue manager, and the rejections nobody handles. *)
Inductive sink : Type := Info | Warn | Log | Error.

Inductive effect : Type :=
| Print (s : sink) (args : list value)
| HttpPost (url body timeout : value) (auth : option (value * value))
| QueueSend (body : value)
| Unhandled (e : value).

Global Instance sink_eq_dec : EqDecision sink.
Proof. solve_decision. Defined.
Global Instance effect_eq_dec : EqDecision effect.
Proof. solve_decision. Defined.

(** The part of the process state the code reads but does not own: the
    clock behind [Date.now()], [os.hostname()], the locale behind
    [Date.prototype.toLocaleString], and the frames the engine appends to
    the [stack] of an error it creates. *)
Record host : Type := Host {
  now : Z;
  hostname : string;
  toLocaleString : Z → string;
  frames : string
}.

Record world : Type := World {
  heap : gmap loc object;
  effects : list effect;
  env : host
}.

Definition with_heap (h : gmap loc object) (w : world) : world :=
  World h (effects w) (env w).
Definition with_effect (e : effect) (w : world) : world :=
  World (heap w) (effects w ++ [e]) (env w).

(** ** Computations that read and write the world and may throw *)

Inductive result (A : Type) : Type :=
| Ret (a : A)
| Throw (e : value).
Arguments Ret {A} a.
Arguments Throw {A} e.

Definition M (A : Type) : Type := world → result A * world.

Global Instance M_ret : MRet M := λ A a w, (Ret a, w).
Global Instance M_bind : MBind M := λ A B f m w,
  match m w with
  | (Ret a, w') => f a w'
  | (Throw e, w') => (Throw e, w')
  end.

Definition throw {A} (e : value) : M A := λ w, (Throw e, w).

(** [try { m } catch (e) { handler e }] *)
Definition try_catch {A} (m : M A) (handler : value → M A) : M A := λ w,
  match m w with
  | (Ret a, w') => (Ret a, w')
  | (Throw e, w') => handler e w'
  end.

Definition get_world : M world := λ w, (Ret w, w).
Definition emit (e : effect) : M unit := λ w, (Ret tt, with_effect e w).

Definition alloc (o : object) : M value := λ w,
  let l := fresh (dom (heap w)) in
  (Ret (VRef l), with_heap (<[l := o]> (heap w)) w).

(** An error created by the engine: a fresh [TypeError] instance. *)
Definition error_object (name message : string) (h : host) : object :=
  Obj (ErrorProto name)
      {[ "message" := VStr message;
         "stack" := VStr (name +:+ ": " +:+ message +:+ frames h) ]}.

Definition type_error {A} (message : string) : M A :=
  w ← get_world;
  e ← alloc (error_object "TypeError" message (env w));
  throw e.

Fixpoint for_each {A} (l : list A) (body : A → M unit) : M unit :=
  match l with
  | [] => mret tt
  | x :: l' => _ ← body x; for_each l' body
  end.

(** ** Primitive operations on values *)

Definition truthy (v : value) : bool :=
  match v with
  | VUndef | VNull => false
  | VBool b => b
  | VNum q => negb (bool_decide (q = Q2Qc 0))
  | VStr s => negb (bool_decide (s = ""))
  | VRef _ => true
  end.

(** [a || b] on values *)
Definition or_else (a b : value) : value := if truthy a then a else b.

Definition nullish (v : value) : bool :=
  match v with VUndef | VNull => true | _ => false end.

(** A parameter with a default, [f(x = d)]: the default is taken exactly
    when the argument is [undefined]. *)
Definition default_arg (v : value) (d : M value) : M value :=
  match v with VUndef => d | _ => mret v end.

(** The property [k] of a value that is neither [null] nor [undefined].
    The names read by the logger are own properties or absent, and absent
    from the primitives. *)
Definition field (w : world) (v : value) (k : string) : value :=
  match v with
  | VRef l => default VUndef (o ← heap w !! l; props o !! k)
  | _ => VUndef
  end.

(** [v.k]: reading a property of [null] or [undefined] throws. *)
Definition get_prop (v : value) (k : string) : M value :=
  match v with
  | VUndef | VNull =>
      type_error ("Cannot read properties of " +:+
                  (if bool_decide (v = VNull) then "null" else "undefined") +:+
                  " (reading '" +:+ k +:+ "')")
  | _ => w ← get_world; mret (field w v k)
  end.

(** The properties of an object after the assignment [o[k] = x].  The key
    [__proto__] is an accessor of [Object.prototype]: on an object without an
    own property of that name the assignment goes to the setter and creates
    no property (the change of prototype the setter makes when [x] is an
    object is not represented). *)
Definition assign (k : string) (x : value) (m : gmap string value)
  : gmap string value :=
  if bool_decide (k = "__proto__") && bool_decide (m !! k = None) then m
  else <[k := x]> m.

(** [v.k = x] in strict mode (class bodies are strict): only objects take
    the store. *)
Definition set_prop (v : value) (k : string) (x : value) : M unit :=
  match v with
  | VRef l => λ w,
      match heap w !! l with
      | Some o =>
          (Ret tt, with_heap (<[l := Obj (proto_of o) (assign k x (props o))]> (heap w)) w)
      | None => (Ret tt, w)
      end
  | _ => type_error ("Cannot set properties of a non-object (setting '" +:+ k +:+ "')")
  end.

(** The definition of an own property, as an object literal and a spread
    make it. *)
Definition define_prop (v : value) (k : string) (x : value) : M unit := λ w,
  match v with
  | VRef l =>
      match heap w !! l with
      | Some o =>
          (Ret tt, with_heap (<[l := Obj (proto_of o) (<[k := x]> (props o))]> (heap w)) w)
      | None => (Ret tt, w)
      end
  | _ => (Ret tt, w)
  end.

(** ** Numbers and strings *)

Fixpoint fraction_digits (fuel : nat) (r d : Z) : string :=
  match fuel with
  | O => ""
  | S fuel' =>
      if bool_decide (r = 0)%Z then ""
      else pretty ((r * 10) `div` d)%Z +:+ fraction_digits fuel' ((r * 10) `mod` d)%Z d
  end.

(** Decimal notation: exact for integers and for the decimals with at most
    twenty fraction digits (every millisecond count divided by 1000). *)
Definition number_to_string (q : Qc) : string :=
  let n := Qnum q in
  let d := Z.pos (Qden q) in
  if bool_decide (d = 1)%Z then pretty n
  else (if bool_decide (n < 0)%Z then "-" else "") +:+
       pretty (Z.abs n `div` d)%Z +:+ "." +:+
       fraction_digits 20 (Z.abs n `mod` d)%Z d.

Definition lower_ascii (c : ascii) : ascii :=
  let n := nat_of_ascii c in
  if Nat.leb 65 n && Nat.leb n 90 then ascii_of_nat (n + 32) else c.

Fixpoint toLowerCase (s : string) : string :=
  match s with
  | EmptyString => EmptyString
  | String c r => String (lower_ascii c) (toLowerCase r)
  end.

(** [s.split(sep)] for a one-character separator. *)
Fixpoint split (sep : ascii) (s : string) : list string :=
  match s with
  | EmptyString => [EmptyString]
  | String c r =>
      if Ascii.eqb c sep then EmptyString :: split sep r
      else match split sep r with
           | [] => [String c EmptyString]
           | hd :: tl => String c hd :: tl
           end
  end.

(** [s.replace(/( AM| PM)/, ins + '$1')]: the first occurrence only. *)
Fixpoint insert_before_meridiem (ins s : string) : string :=
  match s with
  | EmptyString => EmptyString
  | String c r =>
      if String.prefix " AM" s || String.prefix " PM" s then ins +:+ s
      else String c (insert_before_meridiem ins r)
  end.

(** [Error.prototype.toString] and the conversion of a value to a string
    ([String(v)], a template literal, a property key).  An object is
    converted by its [toString] method; an own data property of that name
    shadows the inherited method and cannot be called.  The recursion
    through the [name] and [message] of an error is bounded by the depth of
    the call stack. *)
Fixpoint to_string_depth (depth : nat) (v : value) : M string :=
  match v with
  | VUndef => mret "undefined"
  | VNull => mret "null"
  | VBool b => mret (if b then "true" else "false")
  | VNum q => mret (number_to_string q)
  | VStr s => mret s
  | VRef l =>
      w ← get_world;
      match heap w !! l with
      | None => mret "[object Object]"
      | Some o =>
          if bool_decide (is_Some (props o !! "toString"))
          then type_error "Cannot convert object to primitive value"
          else match proto_of o with
               | ObjectProto => mret "[object Object]"
               | ErrorProto cls =>
                   match depth with
                   | O => type_error "Maximum call stack size exceeded"
                   | S depth' =>
                       name ← match props o !! "name" with
                              | None => mret cls
                              | Some VUndef => mret "Error"
                              | Some n => to_string_depth depth' n
                              end;
                       msg ← match props o !! "message" with
                             | None | Some VUndef => mret ""
                             | Some m => to_string_depth depth' m
                             end;
                       mret (if bool_decide (name = "") then msg
                             else if bool_decide (msg = "") then name
                             else name +:+ ": " +:+ msg)
                   end
               end
      end
  end.

Definition to_string : value → M string := to_string_depth 64.

(** The method call [v.toString()]. *)
Definition call_toString (v : value) : M string :=
  match v with
  | VUndef | VNull => _ ← get_prop v "toString"; mret ""
  | VRef l =>
      w ← get_world;
      match o ← heap w !! l; props o !! "toString" with
      | Some _ => type_error "error.toString is not a function"
      | None => to_string v
      end
  | _ => to_string v
  end.

(** The own enumerable string-keyed properties, as [for (k in v)] and
    [{...v}] visit them.  The [message] and [stack] of an error instance are
    not enumerable; a string enumerates its indices. *)
Definition enumerable (o : object) : list (string * value) :=
  match proto_of o with
  | ObjectProto => map_to_list (props o)
  | ErrorProto _ =>
      filter (λ kv, kv.1 ≠ "message" ∧ kv.1 ≠ "stack") (map_to_list (props o))
  end.

Definition chars (s : string) : list (string * value) :=
  imap (λ i c, (pretty i, VStr (String c EmptyString))) (String.list_ascii_of_string s).

Definition own_entries (h : gmap loc object) (v : value) : list (string * value) :=
  match v with
  | VRef l => default [] (enumerable <$> h !! l)
  | VStr s => chars s
  | _ => []
  end.

Definition entries (v : value) : M (list (string * value)) :=
  w ← get_world; mret (own_entries (heap w) v).

(** [for (let k in v) body(k, v[k])] *)
Definition for_in (v : value) (body : string → value → M unit) : M unit :=
  kvs ← entries v;
  for_each kvs (λ kv, body kv.1 kv.2).

(** [{...a, ...b}] *)
Definition spread2 (a b : value) : M value :=
  o ← alloc (plain ∅);
  _ ← for_in a (λ k x, define_prop o k x);
  _ ← for_in b (λ k x, define_prop o k x);
  mret o.

(** ** Vocabulary for what a computation leaves untouched *)

(** [stable D w w']: from [w] to [w'] no object at a location of [D] has
    changed, no object has disappeared, and the host is the same. *)
Definition stable (D : gset loc) (w w' : world) : Prop :=
  (∀ l, l ∈ D → heap w' !! l = heap w !! l) ∧
  dom (heap w) ⊆ dom (heap w') ∧
  env w' = env w.

(** A value that does not point into [D]. *)
Definition outside (D : gset loc) (v : value) : Prop :=
  match v with VRef l => l ∉ D | _ => True end.

(** [keeps D m Q]: run from a heap that has the locations [D], [m] leaves
    them as they are, and what it returns satisfies [Q]. *)
Definition keeps {A} (D : gset loc) (m : M A) (Q : A → Prop) : Prop :=
  ∀ w r w', D ⊆ dom (heap w) → m w = (r, w') →
    stable D w w' ∧ match r with Ret a => Q a | Throw _ => True end.

Definition any {A} : A → Prop := λ _, True.

(** A reference to an object of the heap, or a primitive. *)
Definition bound (w : world) (v : value) : Prop :=
  match v with VRef l => is_Some (heap w !! l) | _ => True end.

Global Instance bound_dec (w : world) (v : value) : Decision (bound w v).
Proof. destruct v; simpl; apply _. Defined.

(** A heap without dangling references: every reference stored in an object
    points to an object. *)
Definition closed (w : world) : Prop :=
  map_Forall (λ _ o, map_Forall (λ _ v, bound w v) (props o)) (heap w).

(** [silent m]: [m] prints nothing and sends nothing. *)
Definition silent {A} (m : M A) : Prop :=
  ∀ w r w', m w = (r, w') → effects w' = effects w.

(** [m] throws from [w], and nothing has been printed or sent by then. *)
Definition fails {A} (m : M A) (w : world) : Prop :=
  ∃ e w', m w = (Throw e, w') ∧ effects w' = effects w.

(** The world [w] with one more object, [plain m] at [l]. *)
Definition with_object (l : loc) (m : gmap string value) (w : world) : world :=
  with_heap (<[l := plain m]> (heap w)) w.

Global Instance closed_dec (w : world) : Decision (closed w).
Proof. unfold closed. apply _. Defined.

End JS.

(* ===================================================================== *)
(** * The queue connection manager, [src/rabbitmq-lib.js] *)
(* ===================================================================== *)
Module RabbitMQ.
Import JS.

(** Connections and channels are objects of amqplib; the model names them. *)
Abbreviation conn := nat (only parsing).
Abbreviation chan := nat (only parsing).

(** The object handed to [new RabbitMQ(config)]. *)
Record options : Type := Options {
  opt_hostname : value;
  opt_port : value;
  opt_username : value;
  opt_password : value;
  opt_queue : value;
  opt_retryDelay : value
}.

(** [{ ...config, protocol: 'amqp', heartbeat: 60 }] *)
Record settings : Type := Settings {
  base : options;
  protocol : string;
  heartbeat : Z
}.

Record manager : Type := Manager {
  config : settings;
  connection : option conn;
  channel : option chan;
  queue : value;
  retryDelay : value;
  isConnected : bool
}.

Definition constructor (config : options) : manager :=
  {| config := Settings config "amqp" 60;
     connection := None;
     channel := None;
     queue := or_else (opt_queue config) (VStr "default_queue");
     retryDelay := or_else (opt_retryDelay config) (num 1000);
     isConnected := false |}.

Definition set_connection (c : conn) (m : manager) : manager :=
  Manager (config m) (Some c) (channel m) (queue m) (retryDelay m) (isConnected m).
Definition set_channel (ch : chan) (m : manager) : manager :=
  Manager (config m) (connection m) (Some ch) (queue m) (retryDelay m) (isConnected m).
Definition set_isConnected (b : bool) (m : manager) : manager :=
  Manager (config m) (connection m) (channel m) (queue m) (retryDelay m) b.

(** ** [connect] *)

(** How an awaited call into amqplib settles. *)
Inductive outcome (A : Type) : Type :=
| Ok (a : A)
| Err (e : value).
Arguments Ok {A} a.
Arguments Err {A} e.

(** Where an invocation of [connect()] stands: at one of its four [await]s,
    or returned. *)
Inductive pc : Type :=
| AwaitConnect
| AwaitChannel
| AwaitAssert
| AwaitTimer
| Returned.

Global Instance pc_eq_dec : EqDecision pc.
Proof. solve_decision. Defined.

(** One invocation of [connect()]: its position and its local [attempt]. *)
Record task : Type := Task { at_pc : pc; attempt : nat }.

(** What a [catch] or a rejection handler receives: a value raised by the
    library, or a [TypeError] of the engine. *)
Inductive exn : Type :=
| Library (e : value)
| TypeError (message : string).

(** A console line of the manager; the lines built by a template or with
    several arguments keep their values. *)
Inductive line : Type :=
| Text (s : string)
| Failure (again : bool) (attempt : nat) (error : exn)
| Waiting (delay : value)
| ConnectionError (err : value).

(** What the manager does to the outside, in program order. *)
Inductive action : Type :=
| Connect (cfg : settings)
| CreateConfirmChannel (c : conn)
| AssertQueue (ch : chan) (queue : value) (durable : bool)
| Listen (c : conn)
| SetTimeout (delay : value)
| SendToQueue (ch : chan) (queue message : value) (persistent : bool)
| CloseChannel (ch : chan)
| CloseConnection (c : conn)
| ConsoleLog (l : line)
| ConsoleError (l : line).

Record system : Type := System {
  mgr : manager;
  tasks : list task;
  listeners : list conn;
  trace : list action
}.

Definition boot (m : manager) : system := System m [] [] [].

Definition update_mgr (f : manager → manager) (s : system) : system :=
  System (f (mgr s)) (tasks s) (listeners s) (trace s).
Definition set_task (tid : nat) (t : task) (s : system) : system :=
  System (mgr s) (<[tid := t]> (tasks s)) (listeners s) (trace s).
Definition does (a : list action) (s : system) : system :=
  System (mgr s) (tasks s) (listeners s) (trace s ++ a).

(** [while (!this.isConnected) { try { ...; await amqp.connect(this.config)]:
    the loop test and the start of one attempt. *)
Definition loop (tid attempt : nat) (s : system) : system :=
  if isConnected (mgr s) then set_task tid (Task Returned attempt) s
  else
    set_task tid (Task AwaitConnect attempt)
      (does ((if Nat.ltb 0 attempt
              then [ConsoleLog (Text "Attempting to reconnect to RabbitMQ...")]
              else []) ++ [Connect (config (mgr s))]) s).

(** A call of [connect()], up to its first [await] or its [return]. *)
Definition connect (s : system) : system :=
  let tid := length (tasks s) in
  let s' := System (mgr s) (tasks s ++ [Task Returned 0]) (listeners s) (trace s) in
  if isConnected (mgr s) then s' else loop tid 0 s'.

(** [catch (error) { ...; await new Promise(resolve => setTimeout(...))] *)
Definition catch (tid attempt : nat) (error : exn) (s : system) : system :=
  set_task tid (Task AwaitTimer attempt)
    (does [ConsoleError (Failure (Nat.ltb 0 attempt) attempt error);
           ConsoleLog (Waiting (retryDelay (mgr s)));
           SetTimeout (retryDelay (mgr s))] s).

(** The listener registered on ['error'] and on ['close']. *)
Definition listener (first : action) (s : system) : system :=
  connect (update_mgr (set_isConnected false) (does [first] s)).

Inductive event : Type :=
| Invoke
| Connected (tid : nat) (r : outcome conn)
| ChannelCreated (tid : nat) (r : outcome chan)
| QueueAsserted (tid : nat) (r : outcome unit)
| TimerFired (tid : nat)
| ErrorEvent (c : conn) (e : value)
| CloseEvent (c : conn).

(** One run of the event loop.  An event that no invocation waits for is
    dropped. *)
Definition step (s : system) (ev : event) : system :=
  match ev with
  | Invoke => connect s
  | Connected tid r =>
      match tasks s !! tid with
      | Some (Task AwaitConnect n) =>
          match r with
          | Ok c =>
              set_task tid (Task AwaitChannel n)
                (does [CreateConfirmChannel c] (update_mgr (set_connection c) s))
          | Err e => catch tid n (Library e) s
          end
      | _ => s
      end
  | ChannelCreated tid r =>
      match tasks s !! tid with
      | Some (Task AwaitChannel n) =>
          match r with
          | Ok ch =>
              set_task tid (Task AwaitAssert n)
                (does [AssertQueue ch (queue (mgr s)) true]
                   (update_mgr (set_channel ch) s))
          | Err e => catch tid n (Library e) s
          end
      | _ => s
      end
  | QueueAsserted tid r =>
      match tasks s !! tid with
      | Some (Task AwaitAssert n) =>
          match r with
          | Ok _ =>
              match connection (mgr s) with
              | Some c =>
                  set_task tid (Task Returned n)
                    (System (set_isConnected true (mgr s)) (tasks s)
                       (listeners s ++ [c])
                       (trace s ++ [ConsoleLog (Text "RabbitMQ connected");
                                    Listen c; Listen c]))
              | None =>
                  catch tid n
                    (TypeError "Cannot read properties of null (reading 'on')")
                    (update_mgr (set_isConnected true)
                       (does [ConsoleLog (Text "RabbitMQ connected")] s))
              end
          | Err e => catch tid n (Library e) s
          end
      | _ => s
      end
  | TimerFired tid =>
      match tasks s !! tid with
      | Some (Task AwaitTimer n) => loop tid (S n) s
      | _ => s
      end
  | ErrorEvent c e =>
      foldr (λ _, listener (ConsoleError (ConnectionError e))) s
            (filter (λ c', c' = c) (listeners s))
  | CloseEvent c =>
      foldr (λ _, listener (ConsoleLog (Text "RabbitMQ connection closed"))) s
            (filter (λ c', c' = c) (listeners s))
  end.

Definition run (evs : list event) (s : system) : system := fold_left step evs s.

Definition is_connect (a : action) : bool :=
  match a with Connect _ => true | _ => false end.
Definition is_active (t : task) : bool :=
  negb (bool_decide (at_pc t = Returned)).

(** The number of calls of [amqp.connect], and of invocations of
    [connect()] still in their loop. *)
Definition attempts (s : system) : nat := length (filter is_connect (trace s)).
Definition active_loops (s : system) : nat := length (filter is_active (tasks s)).

(** The calls of [amqp.connect] and the timers set, in program order. *)
Inductive beat : Type :=
| Attempt
| Wait (delay : value).

Global Instance beat_eq_dec : EqDecision beat.
Proof. solve_decision. Defined.

Definition beat_of (a : action) : option beat :=
  match a with
  | Connect _ => Some Attempt
  | SetTimeout d => Some (Wait d)
  | _ => None
  end.

Definition beats (s : system) : list beat := omap beat_of (trace s).

(** The firings of the timer of the invocation [tid] among [evs]. *)
Definition is_timer (tid : nat) (ev : event) : bool :=
  match ev with
  | TimerFired tid' => bool_decide (tid' = tid)
  | _ => false
  end.

Definition fired (tid : nat) (evs : list event) : nat :=
  length (filter (is_timer tid) evs).

(** The three ways in which one attempt fails, and the events by which
    amqplib reports each to the invocation [tid]. *)
Inductive failure : Type :=
| ConnectFails (e : value)
| ChannelFails (c : conn) (e : value)
| AssertFails (c : conn) (ch : chan) (e : value).

Definition failing (tid : nat) (f : failure) : list event :=
  match f with
  | ConnectFails e => [Connected tid (Err e)]
  | ChannelFails c e => [Connected tid (Ok c); ChannelCreated tid (Err e)]
  | AssertFails c ch e =>
      [Connected tid (Ok c); ChannelCreated tid (Ok ch); QueueAsserted tid (Err e)]
  end.

Definition succeeding (tid : nat) (c : conn) (ch : chan) : list event :=
  [Connected tid (Ok c); ChannelCreated tid (Ok ch); QueueAsserted tid (Ok tt)].

(** One failed attempt followed by the end of the wait. *)
Definition round (tid : nat) (f : failure) : list event :=
  failing tid f ++ [TimerFired tid].

(** One call of [connect()] on a manager nobody else uses: the attempts in
    [fs] fail, the next one succeeds. *)
Definition single_call (fs : list failure) (c : conn) (ch : chan) : list event :=
  Invoke :: concat (round 0 <$> fs) ++ succeeding 0 c ch.

(** [P] holds after every proper prefix of [evs]. *)
Definition all_before (P : system → Prop) (evs : list event) (s : system) : Prop :=
  ∀ n, n < length evs → P (run (take n evs) s).

(** The state of a manager on which one invocation, the only one, waits for
    [amqp.connect] in its attempt number [k]. *)
Definition connecting (m : manager) (k : nat) (tr : list action) : system :=
  System m [Task AwaitConnect k] [] tr.

Definition retrying (s : system) : Prop :=
  isConnected (mgr s) = false ∧ active_loops s = 1.

(** The options the logger passes when its configuration sets none. *)
Definition default_options : options :=
  Options (VStr "127.0.0.1") (num 5672) (VStr "guest") (VStr "guest")
          (VStr "default_queue") (num 1000).

(** What holds of the manager at every moment: a connected manager has a
    connection and a channel, and so has one on which an invocation waits
    for the channel or for the queue. *)
Definition consistent (s : system) : Prop :=
  (isConnected (mgr s) = true →
     is_Some (connection (mgr s)) ∧ is_Some (channel (mgr s))) ∧
  (∀ tid n, tasks s !! tid = Some (Task AwaitChannel n) →
     is_Some (connection (mgr s))) ∧
  (∀ tid n, tasks s !! tid = Some (Task AwaitAssert n) →
     is_Some (connection (mgr s)) ∧ is_Some (channel (mgr s))).

(** ** [sendMessage] *)

Inductive completion : Type :=
| Pending
| Fulfilled
| Rejected (e : exn).

(** What happens inside the executor once [this.channel.sendToQueue] has
    been looked up: building the buffer throws, the call throws, or the
    message is handed over and the callback kept by the channel. *)
Inductive handover : Type :=
| EncodeThrows (e : value)
| SendThrows (e : value)
| Accepted.

Definition sendMessage (m : manager) (message : value) (lib : handover)
  : completion * list action :=
  match channel m with
  | None =>
      (Rejected (TypeError "Cannot read properties of null (reading 'sendToQueue')"), [])
  | Some ch =>
      match lib with
      | EncodeThrows e => (Rejected (Library e), [])
      | SendThrows e => (Rejected (Library e), [SendToQueue ch (queue m) message true])
      | Accepted => (Pending, [SendToQueue ch (queue m) message true])
      end
  end.

(** The callback [(err) => { if (err) reject(err); else resolve(); }];
    a settled promise stays as it is. *)
Definition confirm (p : completion) (err : value) : completion :=
  match p with
  | Pending => if truthy err then Rejected (Library err) else Fulfilled
  | _ => p
  end.

(** ** [close] *)

(** How [channel.close()] and [connection.close()] end. *)
Inductive closing : Type :=
| Closes
| CloseFails (e : value)
| CloseHangs.

Definition close (m : manager) (on_channel on_connection : closing)
  : manager * list action * completion :=
  let m' := set_isConnected false m in
  let rest (done : list action) :=
    match connection m with
    | Some c =>
        match on_connection with
        | Closes =>
            (m', done ++ [CloseConnection c;
                          ConsoleLog (Text "RabbitMQ connection closed")], Fulfilled)
        | CloseFails e => (m', done ++ [CloseConnection c], Rejected (Library e))
        | CloseHangs => (m', done ++ [CloseConnection c], Pending)
        end
    | None => (m', done ++ [ConsoleLog (Text "RabbitMQ connection closed")], Fulfilled)
    end in
  match channel m with
  | Some ch =>
      match on_channel with
      | Closes => rest [CloseChannel ch]
      | CloseFails e => (m', [CloseChannel ch], Rejected (Library e))
      | CloseHangs => (m', [CloseChannel ch], Pending)
      end
  | None => rest []
  end.

(** ** Vocabulary for the life of a manager *)

Definition disconnected (s : system) : Prop := isConnected (mgr s) = false.


Definition error_of (f : failure) : value :=
  match f with
  | ConnectFails e | ChannelFails _ e | AssertFails _ _ e => e
  end.

(** The lines on [console.error] and on [console.log]. *)
Definition console_error (a : action) : option line :=
  match a with ConsoleError l => Some l | _ => None end.
Definition console_log (a : action) : option line :=
  match a with ConsoleLog l => Some l | _ => None end.

(** The line the [catch] block prints for the failure [f] of the attempt
    numbered [k]. *)
Definition failure_line (k : nat) (f : failure) : line :=
  Failure (Nat.ltb 0 k) k (Library (error_of f)).

Definition reconnecting : line := Text "Attempting to reconnect to RabbitMQ...".

End RabbitMQ.

(* ===================================================================== *)
(** * The logger, [src/logger.js] *)
(* ===================================================================== *)
Module Logger.
Import JS.

(** [this.logLevels] *)
Definition EMERGENCY : Z := 0.
Definition ALERT : Z := 1.
Definition CRITICAL : Z := 2.
Definition ERROR : Z := 3.
Definition WARNING : Z := 4.
Definition NOTICE : Z := 5.
Definition INFORMATIONAL : Z := 6.
Definition DEBUG : Z := 7.

(** [httpRequestOptions]; the headers and [proxy: false] are constants. *)
Record http_options : Type := HttpOptions {
  timeout : value;
  auth : option (value * value)
}.

(** The three closures [this.sendLog] can be. *)
Inductive sender : Type :=
| ViaHttp (options : http_options)
| ViaQueue (rabbitMQ : RabbitMQ.manager)
| ViaConsole.

(** A [Logger] instance: the caller's configuration object, shared and not
    copied, and the transport chosen at construction. *)
Record logger : Type := Instance {
  config : value;
  sender_of : sender
}.

Definition quote : string := String "034"%char EmptyString.
Definition newline : string := String "010"%char EmptyString.

Definition includes (l : list value) (v : value) : bool := bool_decide (v ∈ l).

(** The text of the template literal in the constructor. *)
Definition invalid_transport (transport : string) : string :=
  "Invalid transport config " +:+ quote +:+ transport +:+ quote +:+
  ", transport set to " +:+ quote +:+ "console" +:+ quote.

Definition constructor (config : value) : M logger :=
  t ← get_prop config "transport";
  s ← to_string t;
  _ ← set_prop config "transport" (VStr (toLowerCase s));
  t ← get_prop config "transport";
  _ ← (if negb (includes [VStr "http"; VStr "amqp"; VStr "console"] t) then
         t ← get_prop config "transport";
         s ← to_string t;
         _ ← emit (Print Warn [VStr (invalid_transport s)]);
         set_prop config "transport" (VStr "console")
       else mret tt);
  t ← get_prop config "transport";
  if bool_decide (t = VStr "http") then
    httpTimeout ← get_prop config "httpTimeout";
    username ← get_prop config "httpAuthUsername";
    password ← get_prop config "httpAuthPassword";
    mret (Instance config
            (ViaHttp (HttpOptions (or_else httpTimeout (num 2000))
                        (if truthy username && truthy password
                         then Some (username, password) else None))))
  else if bool_decide (t = VStr "amqp") then
    amqpHost ← get_prop config "amqpHost";
    amqpPort ← get_prop config "amqpPort";
    amqpUser ← get_prop config "amqpUser";
    amqpPassword ← get_prop config "amqpPassword";
    amqpQueue ← get_prop config "amqpQueue";
    amqpRetryDelay ← get_prop config "amqpRetryDelay";
    mret (Instance config
            (ViaQueue (RabbitMQ.constructor
               (RabbitMQ.Options
                  (or_else amqpHost (VStr "127.0.0.1"))
                  (or_else amqpPort (num 5672))
                  (or_else amqpUser (VStr "guest"))
                  (or_else amqpPassword (VStr "guest"))
                  (or_else amqpQueue (VStr "default_queue"))
                  (or_else amqpRetryDelay (num 1000))))))
  else mret (Instance config ViaConsole).

(** ** The record builder and the context builders (static methods) *)

Definition getLogObject (shortMessage fullMessage data level config : value)
  : M value :=
  data ← default_arg data (alloc (plain ∅));
  w ← get_world;
  let timestamp := now (env w) in
  _env ← get_prop config "env";
  _app_name ← get_prop config "appName";
  obj ← alloc (plain
    (<["version" := VStr "1.1"]>
    (<["host" := VStr (hostname (env w))]>
    (<["timestamp" := VNum (Q2Qc (timestamp # 1000)%Q)]>
    (<["short_message" := shortMessage]>
    (<["full_message" := fullMessage]>
    (<["level" := level]>
    (<["_env" := _env]>
    (<["_localeDate" :=
         VStr (insert_before_meridiem
                 ("." +:+ pretty (Z.rem timestamp 1000))
                 (toLocaleString (env w) timestamp))]>
    (<["_app_name" := _app_name]> ∅))))))))));
  _ ← for_in data (λ key x, set_prop obj ("_" +:+ key) x);
  mret obj.

(** The object literal of [getLogObject], and the effect of its loop:
    [prefixed pre kvs m] is [m] after [m[pre + k] = v] for each [(k, v)] of
    [kvs] in turn. *)
Definition fixed_fields (h : host) (shortMessage fullMessage level _env _app_name : value)
  : gmap string value :=
  <["version" := VStr "1.1"]>
  (<["host" := VStr (hostname h)]>
  (<["timestamp" := VNum (Q2Qc (now h # 1000)%Q)]>
  (<["short_message" := shortMessage]>
  (<["full_message" := fullMessage]>
  (<["level" := level]>
  (<["_env" := _env]>
  (<["_localeDate" :=
       VStr (insert_before_meridiem
               ("." +:+ pretty (Z.rem (now h) 1000))
               (toLocaleString h (now h)))]>
  (<["_app_name" := _app_name]> ∅)))))))).

Definition prefixed (pre : string) (kvs : list (string * value))
    (m : gmap string value) : gmap string value :=
  foldl (λ m kv, assign (pre +:+ kv.1) kv.2 m) m kvs.

Definition getApiRequestData (req etc : value) : M value :=
  method ← get_prop req "method";
  baseUrl ← get_prop req "__BASE_URL";
  originalUrl ← get_prop req "originalUrl";
  ip ← get_prop req "ip";
  data ← alloc (plain
    (<["method" := method]>
    (<["baseUrl" := baseUrl]>
    (<["originalUrl" := originalUrl]>
    (<["ip" := ip]> ∅)))));
  auth ← get_prop req "auth";
  _ ← (if truthy auth then id ← get_prop auth "id"; set_prop data "userId" id
       else mret tt);
  _ ← (if bool_decide (method = VStr "POST") then
         body ← get_prop req "body";
         for_in body (λ d x, set_prop data ("POST_" +:+ d) x)
       else if bool_decide (method = VStr "GET") then
         query ← get_prop req "query";
         for_in query (λ d x, set_prop data ("GET_" +:+ d) x)
       else mret tt);
  _ ← (if truthy etc then for_in etc (λ d x, set_prop data ("DATA_" +:+ d) x)
       else mret tt);
  mret data.

Definition getSocketRequestData (socket req etc : value) : M value :=
  socketId ← get_prop socket "id";
  request ← get_prop socket "request";
  headers ← get_prop request "headers";
  forwarded ← get_prop headers "x-forwarded-for";
  ip ← (if truthy forwarded then mret forwarded
        else get_prop socket "remoteAddress");
  data ← alloc (plain (<["socketId" := socketId]> (<["ip" := ip]> ∅)));
  authToken ← get_prop socket "authToken";
  _ ← (if truthy authToken then
         id ← get_prop authToken "id";
         if truthy id then set_prop data "userId" id else mret tt
       else mret tt);
  _ ← (if truthy req then for_in req (λ d x, set_prop data ("REQ_" +:+ d) x)
       else mret tt);
  _ ← (if truthy etc then for_in etc (λ d x, set_prop data ("DATA_" +:+ d) x)
       else mret tt);
  mret data.

(** [v.split(sep)] as a method call: only a string has the method. *)
Definition call_split (v : value) (sep : ascii) : M (list string) :=
  match v with
  | VStr s => mret (split sep s)
  | VUndef | VNull => _ ← get_prop v "split"; mret []
  | _ => type_error "split is not a function"
  end.

(** [l[i]] on an array of strings *)
Definition at_index (l : list string) (i : nat) : value :=
  from_option VStr VUndef (l !! i).

(** [error.stack.split('\n')[1].split('(')[1].split(':')], giving
    [parts[0]] and [parts[1]]. *)
Definition location (error : value) : M (value * value) :=
  stack ← get_prop error "stack";
  lines ← call_split stack "010"%char;
  inner ← call_split (at_index lines 1) "("%char;
  parts ← call_split (at_index inner 1) ":"%char;
  mret (at_index parts 0, at_index parts 1).

Definition appendErrLocData (error data : value) : M value :=
  data ← default_arg data (alloc (plain ∅));
  _ ← try_catch
        ('(file, line) ← location error;
         _ ← set_prop data "errFile" file;
         set_prop data "errLine" line)
        (λ _, mret tt);
  mret data.

Definition appendErrAxiosData (error data : value) : M value :=
  data ← default_arg data (alloc (plain ∅));
  _ ← try_catch
        (response ← get_prop error "response";
         if negb (truthy response) then mret tt
         else
           status ← get_prop response "status";
           _ ← set_prop data "axiosStatus" status;
           statusText ← get_prop response "statusText";
           _ ← set_prop data "axiosStatusText" statusText;
           body ← get_prop response "data";
           _ ← set_prop data "axiosResponseData" body;
           cfg ← get_prop response "config";
           _ ← (if truthy cfg then
                  url ← get_prop cfg "url"; set_prop data "axiosUrl" url
                else mret tt);
           request ← get_prop response "request";
           if truthy request then
             method ← get_prop request "method";
             _ ← set_prop data "axiosMethod" method;
             path ← get_prop request "path";
             set_prop data "axiosPath" path
           else mret tt)
        (λ _, mret tt);
  mret data.

(** ** Dispatch *)

(** What [this.sendLog(logObject)] gives back to the [await] in [report]: a
    plain value (the console transport), or a promise of the HTTP client or
    of the queue manager. *)
Inductive delivery : Type :=
| Returned
| Promised.

Definition sendLog (lg : logger) (logObject : value) : M delivery :=
  match sender_of lg with
  | ViaHttp options =>
      httpUrl ← get_prop (config lg) "httpUrl";
      _ ← emit (HttpPost httpUrl logObject (timeout options) (auth options));
      mret Promised
  | ViaQueue _ =>
      _ ← emit (QueueSend logObject);
      mret Promised
  | ViaConsole =>
      level ← get_prop logObject "level";
      _ ← emit (Print (if bool_decide (level = num INFORMATIONAL)
                       then Info else Error) [logObject]);
      mret Returned
  end.

(** The promise [report] returns. *)
Inductive promise : Type :=
| Resolved
| Rejected (e : value)
| Pending.

(** How the transport's promise settles, if it does. *)
Inductive settlement : Type :=
| Succeeds
| Fails (error : value)
| Silent.

(** The variables the [async] executor of [report] closes over. *)
Record call : Type := Call { logObject : value; data_of : value }.

(** The promise of [report] after its synchronous part: settled, or waiting
    for the transport. *)
Inductive ticket : Type :=
| Settled (p : promise)
| Waiting (c : call).

(** The text of the template literal in the handler of [report]. *)
Definition cannot_report (short stack full : string) : string :=
  "Cannot report error: " +:+ short +:+
  newline +:+ newline +:+ "    Because of: " +:+ stack +:+
  newline +:+ newline +:+ "    Main error: " +:+ full +:+
  newline +:+ newline +:+ "    Data: ".

(** [catch (error) { console.error(`Cannot report error: ...`, data);
    resolve(); }] *)
Definition catch_block (c : call) (error : value) : M promise :=
  short ← get_prop (logObject c) "short_message";
  short ← to_string short;
  stack ← get_prop error "stack";
  stack ← to_string stack;
  full ← get_prop (logObject c) "full_message";
  full ← to_string full;
  _ ← emit (Print Error [VStr (cannot_report short stack full); data_of c]);
  mret Resolved.

(** The handler as it runs inside the [async] executor.  When it throws,
    [resolve] is not reached: the promise of the executor is rejected and
    nobody holds it, and the promise of [report] stays pending. *)
Definition failed (c : call) (error : value) : M promise :=
  try_catch (catch_block c error) (λ e, _ ← emit (Unhandled e); mret Pending).

(** [report], up to the [await]. *)
Definition report (lg : logger) (shortMessage fullMessage data level : value)
  : M ticket :=
  data ← default_arg data (alloc (plain ∅));
  level ← default_arg level (mret (num ALERT));
  logObject ← getLogObject shortMessage fullMessage data level (config lg);
  let c := Call logObject data in
  try_catch
    (d ← sendLog lg logObject;
     mret (match d with Returned => Settled Resolved | Promised => Waiting c end))
    (λ error, p ← failed c error; mret (Settled p)).

(** [report], after the [await]. *)
Definition settle (t : ticket) (s : settlement) : M promise :=
  match t with
  | Settled p => mret p
  | Waiting c =>
      match s with
      | Succeeds => mret Resolved
      | Fails error => failed c error
      | Silent => mret Pending
      end
  end.

(** ** The reporters *)


Definition reportGeneralError (lg : logger) (error data level : value)
  : M ticket :=
  data ← default_arg data (alloc (plain ∅));
  level ← default_arg level (mret (num ERROR));
  short ← call_toString error;
  stack ← get_prop error "stack";
  data ← appendErrLocData error data;
  report lg (VStr short) stack data level.

Definition reportInfo (lg : logger) (shortMessage fullMessage data level : value)
  : M ticket :=
  data ← default_arg data (alloc (plain ∅));
  level ← default_arg level (mret (num INFORMATIONAL));
  report lg shortMessage fullMessage data level.

(** ['ApiInfo ' + shortMessage]: with a string on the left, [+] converts its
    right operand to a string, and among the values of the model that
    conversion is the one of [String(v)]. *)
Definition reportApiInfo (lg : logger) (shortMessage fullMessage req etc : value)
  : M ticket :=
  short ← to_string shortMessage;
  data ← getApiRequestData req etc;
  reportInfo lg (VStr ("ApiInfo " +:+ short)) fullMessage data (num INFORMATIONAL).

Definition reportSocketInfo (lg : logger) (shortMessage fullMessage socket req etc : value)
  : M ticket :=
  short ← to_string shortMessage;
  data ← getSocketRequestData socket req etc;
  reportInfo lg (VStr ("SocketInfo " +:+ short)) fullMessage data (num INFORMATIONAL).

Definition reportApiError (lg : logger) (error data : value) : M unit :=
  data ← default_arg data (alloc (plain ∅));
  short ← call_toString error;
  stack ← get_prop error "stack";
  request ← get_prop error "request";
  etc ← get_prop error "etc";
  etc ← spread2 etc data;
  context ← getApiRequestData request etc;
  context ← appendErrLocData error context;
  level ← get_prop error "level";
  _ ← report lg (VStr short) stack context level;
  mret tt.

Definition reportUnexpectedApiError (lg : logger) (error data : value) : M unit :=
  data ← default_arg data (alloc (plain ∅));
  short ← call_toString error;
  stack ← get_prop error "stack";
  request ← get_prop error "request";
  etc ← get_prop error "etc";
  etc ← spread2 etc data;
  context ← getApiRequestData request etc;
  context ← appendErrLocData error context;
  _ ← report lg (VStr short) stack context (num ALERT);
  mret tt.

Definition reportAxiosError (lg : logger) (error data : value) : M unit :=
  data ← default_arg data (alloc (plain ∅));
  short ← call_toString error;
  stack ← get_prop error "stack";
  request ← get_prop error "mainRequest";
  etc ← get_prop error "etc";
  etc ← spread2 etc data;
  context ← getApiRequestData request etc;
  context ← appendErrAxiosData error context;
  _ ← report lg (VStr short) stack context (num ERROR);
  mret tt.

Definition reportSocketError (lg : logger) (error data : value) : M unit :=
  data ← default_arg data (alloc (plain ∅));
  short ← call_toString error;
  stack ← get_prop error "stack";
  socket ← get_prop error "socket";
  request ← get_prop error "request";
  etc ← get_prop error "etc";
  etc ← spread2 etc data;
  context ← getSocketRequestData socket request etc;
  context ← appendErrLocData error context;
  level ← get_prop error "level";
  _ ← report lg (VStr short) stack context level;
  mret tt.

(** ** Error classification *)

Inductive reporter : Type := Api | Socket | Axios | UnexpectedApiErr | General.

(** What [this.errorReporters[key]] finds: one of the five own properties,
    or a member inherited from [Object.prototype], or nothing that can be
    called. *)
Inductive member : Type :=
| Own (r : reporter)
| Quiet
| Keyed
| Defining
| NotAFunction.

(** [this.errorReporters], an object literal: its own keys are [api],
    [socket], [axios], [unexpectedApiErr] and [undefined].  Of the methods it
    inherits, five return whatever they are given ([Quiet]), four first
    convert their first argument to a property key ([Keyed]), and two do not
    take a second argument that is not a function ([Defining]).  Every other
    key finds [undefined], or the prototype itself under [__proto__]. *)
Definition errorReporters (key : string) : member :=
  if bool_decide (key = "api") then Own Api
  else if bool_decide (key = "socket") then Own Socket
  else if bool_decide (key = "axios") then Own Axios
  else if bool_decide (key = "unexpectedApiErr") then Own UnexpectedApiErr
  else if bool_decide (key = "undefined") then Own General
  else if bool_decide (key ∈ ["constructor"; "toString"; "toLocaleString";
                              "valueOf"; "isPrototypeOf"]) then Quiet
  else if bool_decide (key ∈ ["hasOwnProperty"; "propertyIsEnumerable";
                              "__lookupGetter__"; "__lookupSetter__"]) then Keyed
  else if bool_decide (key ∈ ["__defineGetter__"; "__defineSetter__"]) then Defining
  else NotAFunction.

Definition error (lg : logger) (err data : value) : M unit :=
  data ← default_arg data (alloc (plain ∅));
  try_catch
    (errorType ← get_prop err "errorType";
     key ← to_string errorType;
     match errorReporters key with
     | Own Api => reportApiError lg err data
     | Own Socket => reportSocketError lg err data
     | Own Axios => reportAxiosError lg err data
     | Own UnexpectedApiErr => reportUnexpectedApiError lg err data
     | Own General => _ ← reportGeneralError lg err data VUndef; mret tt
     | Quiet => mret tt
     | Keyed => _ ← to_string err; mret tt
     | Defining => type_error "Object.prototype.__defineGetter__: Expecting function"
     | NotAFunction =>
         type_error "this.errorReporters[error.errorType] is not a function"
     end)
    (λ thrown,
       _ ← reportGeneralError lg err data VUndef;
       _ ← reportGeneralError lg thrown data VUndef;
       mret tt).

(** ** Start-up *)

(** The promise [init] returns: resolved at once (there is no queue
    manager), or the invocation [tid] of [connect()] raced against a timer
    of [ms] milliseconds, with the handler [error => console.error(error)]
    for the error of the timer. *)
Inductive startup : Type :=
| Ready
| Racing (tid : nat) (ms : value).

(** [init(ms = 500)], up to the promise it returns; [s] is the state of
    [this.rabbitMQ]. *)
Definition init (lg : logger) (ms : value) (s : RabbitMQ.system)
  : startup * RabbitMQ.system :=
  match sender_of lg with
  | ViaQueue _ =>
      (Racing (length (RabbitMQ.tasks s)) (if decide (ms = VUndef) then num 500 else ms),
       RabbitMQ.connect s)
  | _ => (Ready, s)
  end.

(** ** Letter case *)

(** The names of the transports, and the one a logger uses. *)
Definition transports : list string := ["http"; "amqp"; "console"].

Definition transport_of (lg : logger) : string :=
  match sender_of lg with
  | ViaHttp _ => "http"
  | ViaQueue _ => "amqp"
  | ViaConsole => "console"
  end.

Definition is_upper (a : ascii) : Prop :=
  65 ≤ nat_of_ascii a ∧ nat_of_ascii a ≤ 90.

(** [a] is [b], or the capital of the small letter [b]. *)
Definition same_letter (a b : ascii) : Prop :=
  a = b ∨ (is_upper a ∧ nat_of_ascii b = nat_of_ascii a + 32).

(** [s] is [c] written in some letter case. *)
Definition spells (s c : string) : Prop :=
  Forall2 same_letter (String.list_ascii_of_string s) (String.list_ascii_of_string c).

(** ** What the builders store *)

(** The character [c] does not occur in [s]. *)
Definition without (c : ascii) (s : string) : Prop :=
  c ∉ String.list_ascii_of_string s.

(** The keys [appendErrAxiosData] writes, and the properties of [data]
    after its stores, from the properties [m] before them. *)
Definition axios_keys : list string :=
  ["axiosStatus"; "axiosStatusText"; "axiosResponseData"; "axiosUrl";
   "axiosMethod"; "axiosPath"].

Definition axios_fields (w : world) (error : value) (m : gmap string value)
  : gmap string value :=
  let response := field w error "response" in
  if negb (truthy response) then m
  else
    let m1 := <["axiosResponseData" := field w response "data"]>
              (<["axiosStatusText" := field w response "statusText"]>
              (<["axiosStatus" := field w response "status"]> m)) in
    let m2 := if truthy (field w response "config")
              then <["axiosUrl" := field w (field w response "config") "url"]> m1
              else m1 in
    if truthy (field w response "request")
    then <["axiosPath" := field w (field w response "request") "path"]>
         (<["axiosMethod" := field w (field w response "request") "method"]> m2)
    else m2.

(** The object [getApiRequestData] returns: its literal, then its stores. *)
Definition api_names : list string :=
  ["method"; "baseUrl"; "originalUrl"; "ip"; "userId"].

Definition api_fields (w : world) (req etc : value) : gmap string value :=
  let method := field w req "method" in
  let m := <["method" := method]>
           (<["baseUrl" := field w req "__BASE_URL"]>
           (<["originalUrl" := field w req "originalUrl"]>
           (<["ip" := field w req "ip"]> ∅))) in
  let m := if truthy (field w req "auth")
           then <["userId" := field w (field w req "auth") "id"]> m else m in
  let m := if bool_decide (method = VStr "POST")
           then prefixed "POST_" (own_entries (heap w) (field w req "body")) m
           else if bool_decide (method = VStr "GET")
           then prefixed "GET_" (own_entries (heap w) (field w req "query")) m
           else m in
  prefixed "DATA_" (own_entries (heap w) etc) m.

(** The object [getSocketRequestData] returns. *)
Definition socket_names : list string := ["socketId"; "ip"; "userId"].

Definition socket_fields (w : world) (socket req etc : value) : gmap string value :=
  let forwarded :=
    field w (field w (field w socket "request") "headers") "x-forwarded-for" in
  let authToken := field w socket "authToken" in
  let m := <["socketId" := field w socket "id"]>
           (<["ip" := or_else forwarded (field w socket "remoteAddress")]> ∅) in
  let m := if truthy authToken && truthy (field w authToken "id")
           then <["userId" := field w authToken "id"]> m else m in
  prefixed "DATA_" (own_entries (heap w) etc)
    (prefixed "REQ_" (own_entries (heap w) req) m).

(** The closure the constructor stores in [this.sendLog] for the transport
    named [transport], with what it reads from the configuration. *)
Definition sender_for (w : world) (config : value) (transport : string) : sender :=
  if bool_decide (transport = "http") then
    ViaHttp (HttpOptions (or_else (field w config "httpTimeout") (num 2000))
               (if truthy (field w config "httpAuthUsername") &&
                   truthy (field w config "httpAuthPassword")
                then Some (field w config "httpAuthUsername",
                           field w config "httpAuthPassword")
                else None))
  else if bool_decide (transport = "amqp") then
    ViaQueue (RabbitMQ.constructor
      (RabbitMQ.Options
         (or_else (field w config "amqpHost") (VStr "127.0.0.1"))
         (or_else (field w config "amqpPort") (num 5672))
         (or_else (field w config "amqpUser") (VStr "guest"))
         (or_else (field w config "amqpPassword") (VStr "guest"))
         (or_else (field w config "amqpQueue") (VStr "default_queue"))
         (or_else (field w config "amqpRetryDelay") (num 1000))))
  else ViaConsole.

(** ** Worlds to run the logger in *)

(** The keys of the object literal of [getLogObject] that do not begin with
    an underscore. *)
Definition plain_names : list string :=
  ["version"; "host"; "timestamp"; "short_message"; "full_message"; "level"].

Definition example_host (clock : Z) : host :=
  Host clock "box" (λ _, "11/1/2026, 6:23:20 PM")
       (newline +:+ "    at Logger.error (/app/src/logger.js:116:13)").

(** The heap that holds [objects] at the locations 1, 2, ... *)
Definition world_of (clock : Z) (objects : list object) : world :=
  World (list_to_map (imap (λ i o, (Pos.of_succ_nat i, o)) objects)) []
        (example_host clock).

Definition example_config (transport : string) : object :=
  plain (<["transport" := VStr transport]>
        (<["env" := VStr "production"]>
        (<["appName" := VStr "shop"]> ∅))).

(** [new Error(message)] thrown from line 10 of [/srv/job.js], with further
    properties. *)
Definition example_error (message : string) (more : gmap string value) : object :=
  Obj (ErrorProto "Error")
      (<["message" := VStr message]>
      (<["stack" := VStr ("Error: " +:+ message +:+ newline +:+
                          "    at run (/srv/job.js:10:5)")]> more)).

Definition result_of {A} (x : result A * world) : result A := x.1.
Definition after {A} (x : result A * world) : world := x.2.

End Logger.

(* ===================================================================== *)
(** * Reasoning about computations: what a call leaves untouched *)
(* ===================================================================== *)
Module JS_facts.
Import JS.

Lemma bind_unfold {A B} (m : M A) (k : A → M B) (w : world) :
  (m ≫= k) w = match m w with
               | (Ret a, w') => k a w'
               | (Throw e, w') => (Throw e, w')
               end.
Proof. reflexivity. Qed.

Lemma bind_ret {A B} (m : M A) (k : A → M B) (w w' : world) (a : A) :
  m w = (Ret a, w') → (m ≫= k) w = k a w'.
Proof. intros H. by rewrite bind_unfold, H. Qed.

Lemma stable_refl (D : gset loc) (w : world) : stable D w w.
Proof. by repeat split. Qed.

Lemma stable_trans (D : gset loc) (w1 w2 w3 : world) :
  stable D w1 w2 → stable D w2 w3 → stable D w1 w3.
Proof.
  intros (H1 & H2 & H3) (H4 & H5 & H6). repeat split.
  - intros l Hl. by rewrite H4, H1.
  - set_solver.
  - congruence.
Qed.

Section rules.
Context (D : gset loc).

Lemma keeps_ret {A} (a : A) (Q : A → Prop) : Q a → keeps D (mret a) Q.
Proof. intros HQ w r w' _ [= <- <-]. split; [apply stable_refl|done]. Qed.

Lemma keeps_throw {A} (e : value) (Q : A → Prop) : keeps D (throw e) Q.
Proof. intros w r w' _ [= <- <-]. split; [apply stable_refl|done]. Qed.

Lemma keeps_weaken {A} (m : M A) (Q R : A → Prop) :
  keeps D m Q → (∀ a, Q a → R a) → keeps D m R.
Proof.
  intros Hm HQR w r w' HD Hrun. destruct (Hm w r w' HD Hrun) as [Hs Hr].
  split; [done|]. destruct r; auto.
Qed.

Lemma keeps_bind {A B} (m : M A) (k : A → M B) (Q : A → Prop) (R : B → Prop) :
  keeps D m Q → (∀ a, Q a → keeps D (k a) R) → keeps D (m ≫= k) R.
Proof.
  intros Hm Hk w r w' HD. rewrite bind_unfold.
  destruct (m w) as [[a|e] w1] eqn:Hrun; intros Hrest.
  - destruct (Hm w _ _ HD Hrun) as [Hs HQ].
    assert (HD1 : D ⊆ dom (heap w1)) by (destruct Hs as (_ & ? & _); set_solver).
    destruct (Hk a HQ w1 r w' HD1 Hrest) as [Hs' HR].
    split; [by eapply stable_trans|done].
  - injection Hrest as <- <-. destruct (Hm w _ _ HD Hrun) as [Hs _]. done.
Qed.

Lemma keeps_try_catch {A} (m : M A) (h : value → M A) (Q : A → Prop) :
  keeps D m Q → (∀ e, keeps D (h e) Q) → keeps D (try_catch m h) Q.
Proof.
  intros Hm Hh w r w' HD. unfold try_catch.
  destruct (m w) as [[a|e] w1] eqn:Hrun; intros Hrest.
  - injection Hrest as <- <-. by apply (Hm w _ _ HD Hrun).
  - destruct (Hm w _ _ HD Hrun) as [Hs _].
    assert (HD1 : D ⊆ dom (heap w1)) by (destruct Hs as (_ & ? & _); set_solver).
    destruct (Hh e w1 r w' HD1 Hrest) as [Hs' HR].
    split; [by eapply stable_trans|done].
Qed.

Lemma keeps_get_world : keeps D get_world any.
Proof. intros w r w' _ [= <- <-]. split; [apply stable_refl|done]. Qed.

Lemma keeps_emit (e : effect) : keeps D (emit e) any.
Proof. intros w r w' _ [= <- <-]. by repeat split. Qed.

Lemma keeps_alloc (o : object) : keeps D (alloc o) (outside D).
Proof.
  intros w r w' HD [= <- <-]. unfold with_heap; simpl.
  pose proof (is_fresh (dom (heap w))) as Hfresh.
  repeat split.
  - intros l Hl. apply lookup_insert_ne. set_solver.
  - apply dom_insert_subseteq.
  - set_solver.
Qed.

Lemma keeps_type_error {A} (message : string) (Q : A → Prop) :
  keeps D (type_error message) Q.
Proof.
  unfold type_error. eapply keeps_bind; [apply keeps_get_world|]. intros w _.
  eapply keeps_bind; [apply keeps_alloc|]. intros e _. apply keeps_throw.
Qed.

Lemma keeps_get_prop (v : value) (k : string) : keeps D (get_prop v k) any.
Proof.
  destruct v; simpl; try apply keeps_type_error;
    (eapply keeps_bind; [apply keeps_get_world|]; intros w _; by apply keeps_ret).
Qed.

Lemma keeps_set_prop (v : value) (k : string) (x : value) :
  outside D v → keeps D (set_prop v k x) any.
Proof.
  destruct v; simpl; try (intros _; apply keeps_type_error).
  intros Hl w r w' HD. destruct (heap w !! l) as [o|] eqn:Ho; intros [= <- <-].
  - unfold with_heap. repeat split; simpl.
    + intros l' Hl'. apply lookup_insert_ne. set_solver.
    + apply dom_insert_subseteq.
  - split; [apply stable_refl|done].
Qed.

Lemma keeps_define_prop (v : value) (k : string) (x : value) :
  outside D v → keeps D (define_prop v k x) any.
Proof.
  intros Hv w r w' HD. unfold define_prop.
  destruct v as [| | | | |l]; try (intros [= <- <-]; split; [apply stable_refl|done]).
  destruct (heap w !! l) as [o|] eqn:Ho; intros [= <- <-].
  - unfold with_heap. repeat split; simpl.
    + intros l' Hl'. apply lookup_insert_ne. simpl in Hv. set_solver.
    + apply dom_insert_subseteq.
  - split; [apply stable_refl|done].
Qed.

Lemma keeps_for_each {A} (l : list A) (body : A → M unit) :
  (∀ x, keeps D (body x) any) → keeps D (for_each l body) any.
Proof.
  intros Hbody. induction l as [|x l IH]; simpl.
  - by apply keeps_ret.
  - eapply keeps_bind; [apply Hbody|]. intros _ _. apply IH.
Qed.

Lemma keeps_default_arg (v : value) (d : M value) (Q : value → Prop) :
  keeps D d Q → (v ≠ VUndef → Q v) → keeps D (default_arg v d) Q.
Proof. intros Hd HQ. destruct v; simpl; try (by apply keeps_ret; apply HQ). done. Qed.

Lemma keeps_to_string_depth (n : nat) (v : value) : keeps D (to_string_depth n v) any.
Proof.
  revert v. induction n as [|n IH]; intros v;
    (destruct v; simpl; try (by apply keeps_ret);
     eapply keeps_bind; [apply keeps_get_world|]; intros w _;
     destruct (heap w !! l) as [o|]; [|by apply keeps_ret];
     case_bool_decide; [apply keeps_type_error|];
     destruct (proto_of o); [by apply keeps_ret|]).
  - apply keeps_type_error.
  - eapply keeps_bind.
    { instantiate (1 := any).
      destruct (props o !! "name") as [[]|]; try apply IH; by apply keeps_ret. }
    intros nm _. eapply keeps_bind.
    { instantiate (1 := any).
      destruct (props o !! "message") as [[]|]; try apply IH; by apply keeps_ret. }
    intros msg _. by apply keeps_ret.
Qed.

Lemma keeps_to_string (v : value) : keeps D (to_string v) any.
Proof. apply keeps_to_string_depth. Qed.

Lemma keeps_call_toString (v : value) : keeps D (call_toString v) any.
Proof.
  destruct v; simpl; try apply keeps_to_string.
  - eapply (keeps_bind _ _ any); [apply keeps_type_error|]. intros. by apply keeps_ret.
  - eapply (keeps_bind _ _ any); [apply keeps_type_error|]. intros. by apply keeps_ret.
  - eapply keeps_bind; [apply keeps_get_world|]. intros w _.
    destruct (_ ≫= _); [apply keeps_type_error|apply keeps_to_string].
Qed.

Lemma keeps_for_in (v : value) (body : string → value → M unit) :
  (∀ k x, keeps D (body k x) any) → keeps D (for_in v body) any.
Proof.
  intros Hbody. unfold for_in, entries.
  eapply (keeps_bind _ _ any).
  { eapply keeps_bind; [apply keeps_get_world|]. intros w _.
    apply keeps_ret. exact I. }
  intros kvs _. apply keeps_for_each. intros [k x]. apply Hbody.
Qed.

Lemma keeps_spread2 (a b : value) : keeps D (spread2 a b) (outside D).
Proof.
  unfold spread2. eapply keeps_bind; [apply keeps_alloc|]. intros o Ho.
  eapply keeps_bind; [apply keeps_for_in; intros; by apply keeps_define_prop|].
  intros _ _.
  eapply keeps_bind; [apply keeps_for_in; intros; by apply keeps_define_prop|].
  intros _ _. by apply keeps_ret.
Qed.

End rules.

(** ** Running the primitive operations *)

Lemma with_heap_id (w : world) : with_heap (heap w) w = w.
Proof. by destruct w. Qed.

Lemma get_prop_run (v : value) (k : string) (w : world) :
  nullish v = false → get_prop v k w = (Ret (field w v k), w).
Proof. by destruct v. Qed.

Lemma assign_insert (k : string) (x : value) (m : gmap string value) :
  k ≠ "__proto__" → assign k x m = <[k := x]> m.
Proof. intros Hk. unfold assign. by rewrite bool_decide_eq_false_2. Qed.

Lemma lookup_assign_ne (k k' : string) (x : value) (m : gmap string value) :
  k ≠ k' → assign k x m !! k' = m !! k'.
Proof.
  intros Hk. unfold assign. destruct (_ && _); [done|]. by apply lookup_insert_ne.
Qed.

Lemma set_prop_assign (l : loc) (k : string) (x : value) (w : world) (o : object) :
  heap w !! l = Some o →
  set_prop (VRef l) k x w
  = (Ret tt, with_heap (<[l := Obj (proto_of o) (assign k x (props o))]> (heap w)) w).
Proof. intros H. simpl. by rewrite H. Qed.

Lemma set_prop_run (l : loc) (k : string) (x : value) (w : world) (o : object) :
  heap w !! l = Some o → k ≠ "__proto__" →
  set_prop (VRef l) k x w
  = (Ret tt, with_heap (<[l := Obj (proto_of o) (<[k := x]> (props o))]> (heap w)) w).
Proof. intros H Hk. rewrite (set_prop_assign l k x w o H). by rewrite assign_insert. Qed.

Lemma to_string_str (s : string) (w : world) : to_string (VStr s) w = (Ret s, w).
Proof. reflexivity. Qed.

(** A loop of stores into one object. *)
Lemma for_each_set_prop (l : loc) (f : string → string)
    (kvs : list (string * value)) (w : world) (o : object) :
  heap w !! l = Some o →
  for_each kvs (λ kv, set_prop (VRef l) (f kv.1) kv.2) w
  = (Ret tt,
     with_heap (<[l := Obj (proto_of o)
                        (foldl (λ m kv, assign (f kv.1) kv.2 m) (props o) kvs)]>
                  (heap w)) w).
Proof.
  revert w o. induction kvs as [|[k x] kvs IH]; intros w o Ho.
  - simpl. destruct o as [p m]; simpl. rewrite insert_id by done.
    by rewrite with_heap_id.
  - cbn [for_each]. erewrite bind_ret by (by apply set_prop_assign).
    erewrite IH by apply lookup_insert_eq. simpl.
    unfold with_heap; simpl. by rewrite insert_insert_eq.
Qed.

Lemma for_in_set_prop (l : loc) (pre : string) (v : value) (w : world) (o : object) :
  heap w !! l = Some o →
  for_in v (λ k x, set_prop (VRef l) (pre +:+ k) x) w
  = (Ret tt,
     with_heap (<[l := Obj (proto_of o)
                        (foldl (λ m kv, assign (pre +:+ kv.1) kv.2 m) (props o)
                               (own_entries (heap w) v))]>
                  (heap w)) w).
Proof.
  intros Ho. unfold for_in, entries.
  rewrite bind_unfold. simpl.
  by rewrite (for_each_set_prop l (λ k, pre +:+ k) _ w o Ho).
Qed.

Lemma alloc_run (o : object) (w : world) :
  alloc o w = (Ret (VRef (fresh (dom (heap w)))),
               with_heap (<[fresh (dom (heap w)) := o]> (heap w)) w).
Proof. reflexivity. Qed.

Lemma fresh_unused (w : world) : heap w !! fresh (dom (heap w)) = None.
Proof. apply not_elem_of_dom, is_fresh. Qed.

Lemma own_entries_insert (h : gmap loc object) (l : loc) (o : object) (v : value) :
  h !! l = None → (∀ l', v = VRef l' → is_Some (h !! l')) →
  own_entries (<[l := o]> h) v = own_entries h v.
Proof.
  intros Hl Hv. destruct v as [| | | | |l']; try done. simpl.
  destruct (Hv l' eq_refl) as [o' Ho'].
  rewrite lookup_insert_ne; [done|]. congruence.
Qed.

(** ** The keys a loop visits *)

Lemma NoDup_chars (s : string) : NoDup (chars s).*1.
Proof.
  unfold chars. generalize (String.list_ascii_of_string s). intros l.
  assert (H : ∀ n, (imap (λ i c, (pretty (n + i), VStr (String c EmptyString))) l).*1
                   = pretty <$> seq n (length l)).
  { induction l as [|c l IH]; intros n; [done|]. simpl. rewrite Nat.add_0_r. f_equal.
    rewrite <- IH. f_equal. apply imap_ext. intros i x _. simpl. f_equal. f_equal. lia. }
  specialize (H 0). simpl in H. rewrite H.
  apply NoDup_fmap; [apply _|apply NoDup_seq].
Qed.

Lemma NoDup_enumerable (o : object) : NoDup (enumerable o).*1.
Proof.
  unfold enumerable. destruct (proto_of o).
  - apply NoDup_fst_map_to_list.
  - eapply sublist_NoDup; [apply (NoDup_fst_map_to_list (props o))|].
    apply fmap_sublist, sublist_filter.
Qed.

Lemma NoDup_own_entries (h : gmap loc object) (v : value) :
  NoDup (own_entries h v).*1.
Proof.
  destruct v; simpl; try apply NoDup_nil_2.
  - apply NoDup_chars.
  - destruct (h !! l); simpl; [apply NoDup_enumerable|apply NoDup_nil_2].
Qed.

(** The old heap is kept by every computation that keeps its locations. *)
Lemma keeps_heap {A} (m : M A) (Q : A → Prop) (w w' : world) (r : result A) :
  keeps (dom (heap w)) m Q → m w = (r, w') →
  ∀ l o, heap w !! l = Some o → heap w' !! l = Some o.
Proof.
  intros Hm Hrun l o Hl. destruct (Hm w r w' (reflexivity _) Hrun) as [(H & _) _].
  rewrite H; [done|]. apply elem_of_dom. eauto.
Qed.

(** ** What a computation prints *)

Lemma silent_ret {A} (a : A) : silent (mret a : M A).
Proof. by intros w r w' [= <- <-]. Qed.

Lemma silent_throw {A} (e : value) : silent (throw e : M A).
Proof. by intros w r w' [= <- <-]. Qed.

Lemma silent_bind {A B} (m : M A) (k : A → M B) :
  silent m → (∀ a, silent (k a)) → silent (m ≫= k).
Proof.
  intros Hm Hk w r w'. rewrite bind_unfold.
  destruct (m w) as [[a|e] w1] eqn:Hrun; intros Hrest.
  - rewrite (Hk a _ _ _ Hrest). by eapply Hm.
  - injection Hrest as <- <-. by eapply Hm.
Qed.

Lemma silent_try_catch {A} (m : M A) (h : value → M A) :
  silent m → (∀ e, silent (h e)) → silent (try_catch m h).
Proof.
  intros Hm Hh w r w'. unfold try_catch.
  destruct (m w) as [[a|e] w1] eqn:Hrun; intros Hrest.
  - injection Hrest as <- <-. by eapply Hm.
  - rewrite (Hh e _ _ _ Hrest). by eapply Hm.
Qed.

Lemma silent_get_world : silent get_world.
Proof. by intros w r w' [= <- <-]. Qed.

Lemma silent_alloc (o : object) : silent (alloc o).
Proof. by intros w r w' [= <- <-]. Qed.

Lemma silent_type_error {A} (message : string) : silent (type_error message : M A).
Proof. by intros w r w' [= <- <-]. Qed.

Lemma silent_get_prop (v : value) (k : string) : silent (get_prop v k).
Proof. destruct v; by intros w r w' [= <- <-]. Qed.

Lemma silent_set_prop (v : value) (k : string) (x : value) : silent (set_prop v k x).
Proof.
  destruct v; try by intros w r w' [= <- <-].
  intros w r w'. simpl. by destruct (heap w !! l); intros [= <- <-].
Qed.

Lemma silent_define_prop (v : value) (k : string) (x : value) :
  silent (define_prop v k x).
Proof.
  intros w r w'. unfold define_prop.
  destruct v; try by intros [= <- <-].
  by destruct (heap w !! l); intros [= <- <-].
Qed.

Lemma silent_for_each {A} (l : list A) (body : A → M unit) :
  (∀ x, silent (body x)) → silent (for_each l body).
Proof.
  intros Hbody. induction l as [|x l IH]; simpl.
  - apply silent_ret.
  - apply silent_bind; [apply Hbody|]. intros _. apply IH.
Qed.

Lemma silent_for_in (v : value) (body : string → value → M unit) :
  (∀ k x, silent (body k x)) → silent (for_in v body).
Proof.
  intros Hbody. unfold for_in, entries. apply silent_bind.
  - apply silent_bind; [apply silent_get_world|]. intros w. apply silent_ret.
  - intros kvs. apply silent_for_each. intros [k x]. apply Hbody.
Qed.

Lemma silent_default_arg (v : value) (d : M value) :
  silent d → silent (default_arg v d).
Proof. intros Hd. destruct v; simpl; try apply silent_ret. done. Qed.

Lemma silent_to_string_depth (n : nat) (v : value) : silent (to_string_depth n v).
Proof.
  revert v. induction n as [|n IH]; intros v;
    (destruct v; simpl; try apply silent_ret;
     apply silent_bind; [apply silent_get_world|]; intros w;
     destruct (heap w !! l) as [o|]; [|apply silent_ret];
     case_bool_decide; [apply silent_type_error|];
     destruct (proto_of o); [apply silent_ret|]).
  - apply silent_type_error.
  - apply silent_bind.
    { destruct (props o !! "name") as [[]|]; try apply IH; apply silent_ret. }
    intros nm. apply silent_bind.
    { destruct (props o !! "message") as [[]|]; try apply IH; apply silent_ret. }
    intros msg. apply silent_ret.
Qed.

Lemma silent_to_string (v : value) : silent (to_string v).
Proof. apply silent_to_string_depth. Qed.

Lemma silent_call_toString (v : value) : silent (call_toString v).
Proof.
  destruct v; simpl; try apply silent_to_string.
  - apply silent_bind; [apply silent_type_error|]. intros. apply silent_ret.
  - apply silent_bind; [apply silent_type_error|]. intros. apply silent_ret.
  - apply silent_bind; [apply silent_get_world|]. intros w.
    destruct (_ ≫= _); [apply silent_type_error|apply silent_to_string].
Qed.

Lemma silent_spread2 (a b : value) : silent (spread2 a b).
Proof.
  unfold spread2. apply silent_bind; [apply silent_alloc|]. intros o.
  apply silent_bind; [apply silent_for_in; intros; apply silent_define_prop|].
  intros _.
  apply silent_bind; [apply silent_for_in; intros; apply silent_define_prop|].
  intros _. apply silent_ret.
Qed.

(** ** Computations that throw *)

Lemma fails_bind {A B} (m : M A) (k : A → M B) (w : world) :
  silent m → (∀ a w1, m w = (Ret a, w1) → fails (k a) w1) → fails (m ≫= k) w.
Proof.
  intros Hm Hk. unfold fails. rewrite bind_unfold.
  destruct (m w) as [[a|e] w1] eqn:Hrun.
  - destruct (Hk a w1 eq_refl) as (e & w' & -> & Heff).
    exists e, w'. split; [done|]. rewrite Heff. by eapply Hm.
  - exists e, w1. split; [done|]. by eapply Hm.
Qed.

Lemma fails_bind_l {A B} (m : M A) (k : A → M B) (w : world) :
  fails m w → fails (m ≫= k) w.
Proof.
  intros (e & w' & Hrun & Heff). exists e, w'. by rewrite bind_unfold, Hrun.
Qed.

Lemma fails_bind_r {A B} (m : M A) (k : A → M B) (w : world) (a : A) :
  m w = (Ret a, w) → fails (k a) w → fails (m ≫= k) w.
Proof. intros Hrun Hk. unfold fails. by erewrite bind_ret by exact Hrun. Qed.

(** A step of a computation that throws further on: the step prints
    nothing and keeps the objects [D]. *)
Lemma fails_step {A B} (D : gset loc) (m : M A) (k : A → M B) (Q : A → Prop)
    (w0 w : world) :
  silent m → keeps D m Q → D ⊆ dom (heap w0) → stable D w0 w →
  (∀ a w1, m w = (Ret a, w1) → stable D w0 w1 → fails (k a) w1) →
  fails (m ≫= k) w.
Proof.
  intros Hm Hk HD Hs Hrest. apply fails_bind; [done|]. intros a w1 Hrun.
  apply Hrest; [done|]. eapply stable_trans; [done|].
  eapply Hk; [|done]. destruct Hs as (_ & ? & _). set_solver.
Qed.

Lemma get_prop_inv (v : value) (k : string) (w w' : world) (x : value) :
  get_prop v k w = (Ret x, w') → x = field w v k ∧ w' = w ∧ nullish v = false.
Proof. destruct v; try (by intros [= <- <-]); by intros H; vm_compute in H. Qed.

Lemma stable_field (w w' : world) (v : value) (k : string) :
  stable (dom (heap w)) w w' → bound w v → field w' v k = field w v k.
Proof.
  intros (H & _) Hv. destruct v as [| | | | |l]; try done. simpl.
  rewrite H; [done|]. by apply elem_of_dom.
Qed.

Lemma fails_type_error {A} (message : string) (w : world) :
  fails (type_error message : M A) w.
Proof. by eexists _, _. Qed.

Lemma fails_get_prop (v : value) (k : string) (w : world) :
  nullish v = true → fails (get_prop v k) w.
Proof. destruct v; try done; intros _; apply fails_type_error. Qed.

(** ** [split] *)

Lemma split_sep (sep : ascii) (a b : string) :
  sep ∉ String.list_ascii_of_string a →
  split sep (a +:+ String sep b) = a :: split sep b.
Proof.
  induction a as [|c a IH]; simpl; intros Ha.
  - by rewrite Ascii.eqb_refl.
  - apply not_elem_of_cons in Ha as [Hc Ha].
    rewrite (proj2 (Ascii.eqb_neq c sep)) by done. by rewrite IH.
Qed.


Lemma split_absent (sep : ascii) (a : string) :
  sep ∉ String.list_ascii_of_string a → split sep a = [a].
Proof.
  induction a as [|c a IH]; simpl; intros Ha; [done|].
  apply not_elem_of_cons in Ha as [Hc Ha].
  rewrite (proj2 (Ascii.eqb_neq c sep)) by done. by rewrite IH.
Qed.

Lemma string_app_cons (x : ascii) (a b : string) :
  String x a +:+ b = String x (a +:+ b).
Proof. reflexivity. Qed.



(** ** Heaps without dangling references *)

Lemma bound_field (w : world) (v : value) (k : string) :
  closed w → bound w (field w v k).
Proof.
  intros Hw. destruct v as [| | | | |l]; try done. simpl.
  destruct (heap w !! l) as [o|] eqn:Ho; [|done]. simpl.
  destruct (props o !! k) as [x|] eqn:Hx; [|done]. simpl.
  exact (Hw l o Ho k x Hx).
Qed.

Lemma field_insert (w : world) (l : loc) (o : object) (v : value) (k : string) :
  heap w !! l = None → bound w v →
  field (with_heap (<[l := o]> (heap w)) w) v k = field w v k.
Proof.
  intros Hl Hv. destruct v as [| | | | |l']; try done. simpl.
  destruct Hv as [o' Ho']. rewrite lookup_insert_ne; [done|]. congruence.
Qed.

Lemma field_set (w : world) (l : loc) (o : object) (k : string) (x v : value) (k' : string) :
  heap w !! l = Some o → k' ≠ k →
  field (with_heap (<[l := Obj (proto_of o) (<[k := x]> (props o))]> (heap w)) w) v k'
  = field w v k'.
Proof.
  intros Ho Hk. destruct v as [| | | | |l']; try done. simpl.
  destruct (decide (l' = l)) as [->|Hl].
  - rewrite lookup_insert_eq, Ho. simpl. by rewrite lookup_insert_ne.
  - by rewrite lookup_insert_ne.
Qed.

Lemma truthy_not_nullish (v : value) : truthy v = true → nullish v = false.
Proof. by destruct v. Qed.

Lemma string_app_nil_r (a : string) : a +:+ "" = a.
Proof. induction a as [|x a IH]; [done|]. rewrite string_app_cons. by rewrite IH. Qed.

(** One store into an object, and what it leaves as it was. *)
Lemma set_prop_step (l : loc) (k : string) (x : value) (w : world) (o : object) :
  heap w !! l = Some o → k ≠ "__proto__" →
  ∃ w', set_prop (VRef l) k x w = (Ret tt, w') ∧
        heap w' = <[l := Obj (proto_of o) (<[k := x]> (props o))]> (heap w) ∧
        effects w' = effects w ∧ env w' = env w ∧
        ∀ v k', k' ≠ k → field w' v k' = field w v k'.
Proof.
  intros Ho Hk. eexists. split; [by apply set_prop_run|].
  repeat split. intros v k' Hk'. by apply field_set.
Qed.

(** ** A fresh object under construction *)

Lemma alloc_with_object (m : gmap string value) (w : world) :
  alloc (plain m) w = (Ret (VRef (fresh (dom (heap w)))),
                       with_object (fresh (dom (heap w))) m w).
Proof. reflexivity. Qed.

Lemma get_prop_with_object (l : loc) (m : gmap string value) (w : world)
    (v : value) (k : string) :
  heap w !! l = None → bound w v → nullish v = false →
  get_prop v k (with_object l m w) = (Ret (field w v k), with_object l m w).
Proof.
  intros Hl Hv Hn. rewrite get_prop_run by done. f_equal. f_equal.
  by apply field_insert.
Qed.

Lemma set_prop_with_object (l : loc) (m : gmap string value) (w : world)
    (k : string) (x : value) :
  k ≠ "__proto__" →
  set_prop (VRef l) k x (with_object l m w) = (Ret tt, with_object l (<[k := x]> m) w).
Proof.
  intros Hk. erewrite set_prop_run; [|apply lookup_insert_eq|done].
  unfold with_object, with_heap, plain; simpl. by rewrite insert_insert_eq.
Qed.

Lemma bound_with_object (l : loc) (m : gmap string value) (w : world) (v : value) :
  heap w !! l = None → bound w v → bound (with_object l m w) v.
Proof.
  intros Hl Hv. destruct v as [| | | | |l']; try done. simpl in *.
  destruct Hv as [o Ho]. exists o. rewrite lookup_insert_ne; [done|]. congruence.
Qed.

Lemma own_entries_falsy (h : gmap loc object) (v : value) :
  truthy v = false → own_entries h v = [].
Proof.
  destruct v as [| | | |s|]; try done. simpl. case_bool_decide; [by subst|done].
Qed.

(** ** The replacement in the locale date *)

Lemma prefix_app (p s : string) :
  String.prefix p s = true → ∃ r, s = p +:+ r.
Proof.
  revert s. induction p as [|x p IH]; intros s Hp; [by exists s|].
  destruct s as [|y s]; [done|]. simpl in Hp.
  destruct (ascii_dec x y) as [->|]; [|done].
  destruct (IH s Hp) as [r ->]. by exists r.
Qed.

Lemma prefix_app_true (p r : string) : String.prefix p (p +:+ r) = true.
Proof.
  induction p as [|x p IH]; [by destruct r|]. rewrite string_app_cons. simpl.
  by destruct (ascii_dec x x).
Qed.

Lemma insert_before_meridiem_absent (ins s : string) :
  (∀ a b, s ≠ a +:+ " AM" +:+ b) → (∀ a b, s ≠ a +:+ " PM" +:+ b) →
  insert_before_meridiem ins s = s.
Proof.
  induction s as [|c s IH]; intros HA HP; [done|].
  cbn [insert_before_meridiem].
  destruct (String.prefix " AM" (String c s)) eqn:H1.
  { apply prefix_app in H1 as [r Hr]. by destruct (HA "" r). }
  destruct (String.prefix " PM" (String c s)) eqn:H2.
  { apply prefix_app in H2 as [r Hr]. by destruct (HP "" r). }
  cbn [orb]. rewrite IH; [done|..].
  - intros a b ->. by destruct (HA (String c a) b).
  - intros a b ->. by destruct (HP (String c a) b).
Qed.

Lemma insert_before_meridiem_first (ins a m b : string) :
  m = " AM" ∨ m = " PM" → "M"%char ∉ String.list_ascii_of_string a →
  insert_before_meridiem ins (a +:+ m +:+ b) = a +:+ ins +:+ m +:+ b.
Proof.
  intros Hm. induction a as [|c a IH]; intros Ha.
  - destruct Hm as [-> | ->].
    + change (insert_before_meridiem ins ("" +:+ " AM" +:+ b))
        with (if String.prefix " AM" (" AM" +:+ b) || String.prefix " PM" (" AM" +:+ b)
              then ins +:+ " AM" +:+ b
              else String " " (insert_before_meridiem ins ("AM" +:+ b))).
      by rewrite prefix_app_true.
    + change (insert_before_meridiem ins ("" +:+ " PM" +:+ b))
        with (if false || String.prefix " PM" (" PM" +:+ b)
              then ins +:+ " PM" +:+ b
              else String " " (insert_before_meridiem ins ("PM" +:+ b))).
      by rewrite prefix_app_true.
  - simpl in Ha. apply not_elem_of_cons in Ha as [Hc Ha].
    rewrite !string_app_cons. cbn [insert_before_meridiem].
    assert (Hno : ∀ x, String.prefix (String " " (String x "M")) (String c (a +:+ m +:+ b))
                       = false).
    { intros x. destruct (String.prefix _ _) eqn:Hp; [|done].
      apply prefix_app in Hp as [r Hr]. rewrite !string_app_cons in Hr.
      injection Hr as -> Hr. exfalso.
      destruct a as [|c1 [|c2 a]].
      - destruct Hm as [-> | ->]; discriminate.
      - rewrite !string_app_cons in Hr. injection Hr as -> Hr.
        destruct Hm as [-> | ->]; discriminate.
      - rewrite !string_app_cons in Hr. injection Hr as -> -> _.
        simpl in Ha. apply Ha. right. left. }
    rewrite !Hno. cbn [orb]. by rewrite IH.
Qed.

(** ** Numbers that are not integers *)

(** [String(0.75)], [String(-2.5)] and a timestamp in seconds with its
    milliseconds. *)
Lemma number_to_string_decimals :
  number_to_string (Q2Qc (3 # 4)) = "0.75" ∧
  number_to_string (Q2Qc (-5 # 2)) = "-2.5" ∧
  number_to_string (Q2Qc (1730483000123 # 1000)) = "1730483000.123".
Proof. by vm_compute. Qed.

End JS_facts.

(* ===================================================================== *)
(** * Properties of the logger *)
(* ===================================================================== *)
Module Logger_facts.
Import JS JS_facts Logger.

(** ** The record builder *)

Lemma lookup_prefixed_other (pre : string) (kvs : list (string * value))
    (m : gmap string value) (k : string) :
  (∀ k', k' ∈ kvs.*1 → pre +:+ k' ≠ k) →
  prefixed pre kvs m !! k = m !! k.
Proof.
  revert m. induction kvs as [|[k0 v0] kvs IH]; intros m Hk; [done|].
  unfold prefixed in *. simpl. rewrite IH.
  - apply lookup_assign_ne. apply Hk. simpl. left.
  - intros k' Hk'. apply Hk. simpl. by right.
Qed.

Lemma lookup_prefixed_in (pre : string) (kvs : list (string * value))
    (m : gmap string value) (k : string) (v : value) :
  NoDup kvs.*1 → (k, v) ∈ kvs → pre +:+ k ≠ "__proto__" →
  prefixed pre kvs m !! (pre +:+ k) = Some v.
Proof.
  revert m. induction kvs as [|[k0 v0] kvs IH]; intros m Hnd Hin Hk.
  - by apply elem_of_nil in Hin.
  - simpl in Hnd. apply NoDup_cons in Hnd as [Hk0 Hnd].
    apply elem_of_cons in Hin as [[= -> ->]|Hin].
    + unfold prefixed. simpl. fold (prefixed pre kvs (assign (pre +:+ k0) v0 m)).
      rewrite lookup_prefixed_other; [rewrite assign_insert by done; apply lookup_insert_eq|].
      intros k' Hk' Heq. apply (inj (String.app pre)) in Heq. by subst.
    + unfold prefixed. simpl. by apply IH.
Qed.

Lemma lookup_prefixed_plain (kvs : list (string * value))
    (m : gmap string value) (k : string) :
  k ∈ plain_names → prefixed "_" kvs m !! k = m !! k.
Proof.
  intros Hk. apply lookup_prefixed_other. intros k' _ Heq.
  unfold plain_names in Hk. set_unfold. destruct_or!; subst; discriminate.
Qed.

(** What [getLogObject] does: it allocates the record, and before that the
    default of [data] when the caller passes none. *)
Lemma getLogObject_run (shortMessage fullMessage data level config : value) (w : world) :
  nullish config = false → bound w data →
  ∃ l w0,
    getLogObject shortMessage fullMessage data level config w
    = (Ret (VRef l),
       with_heap
         (<[l := plain (prefixed "_" (own_entries (heap w) data)
                  (fixed_fields (env w) shortMessage fullMessage level
                     (field w config "env") (field w config "appName")))]>
            (heap w0)) w0) ∧
    heap w0 !! l = None ∧
    (∀ l' o, heap w !! l' = Some o → heap w0 !! l' = Some o) ∧
    effects w0 = effects w ∧ env w0 = env w.
Proof.
  intros Hc Hd. unfold getLogObject.
  assert (Hgo : ∀ (data' : value) (w0 : world),
    env w0 = env w →
    (∀ k, field w0 config k = field w config k) →
    own_entries (heap w0) data' = own_entries (heap w) data →
    bound w0 data' →
    (w ← get_world;
     let timestamp := now (env w) in
     _env ← get_prop config "env";
     _app_name ← get_prop config "appName";
     obj ← alloc (plain
       (<["version" := VStr "1.1"]>
       (<["host" := VStr (hostname (env w))]>
       (<["timestamp" := VNum (Q2Qc (timestamp # 1000)%Q)]>
       (<["short_message" := shortMessage]>
       (<["full_message" := fullMessage]>
       (<["level" := level]>
       (<["_env" := _env]>
       (<["_localeDate" :=
            VStr (insert_before_meridiem
                    ("." +:+ pretty (Z.rem timestamp 1000))
                    (toLocaleString (env w) timestamp))]>
       (<["_app_name" := _app_name]> ∅))))))))));
     _ ← for_in data' (λ key x, set_prop obj ("_" +:+ key) x);
     mret obj) w0
    = (Ret (VRef (fresh (dom (heap w0)))),
       with_heap
         (<[fresh (dom (heap w0)) :=
              plain (prefixed "_" (own_entries (heap w) data)
                  (fixed_fields (env w) shortMessage fullMessage level
                     (field w config "env") (field w config "appName")))]>
            (heap w0)) w0)).
  { intros data' w0 Henv Hfield Hentries Hbound.
    erewrite bind_ret by reflexivity. cbv zeta.
    erewrite bind_ret by (by apply get_prop_run).
    erewrite bind_ret by (by apply get_prop_run).
    erewrite bind_ret by apply alloc_run.
    erewrite bind_ret by (apply for_in_set_prop, lookup_insert_eq).
    unfold with_heap, plain, fixed_fields, prefixed; simpl.
    rewrite insert_insert_eq, !Hfield, Henv.
    rewrite own_entries_insert, Hentries; [done|apply fresh_unused|].
    intros l' ->. apply Hbound. }
  destruct (decide (data = VUndef)) as [->|Hdata].
  - simpl default_arg. erewrite bind_ret by apply alloc_run.
    set (w0 := with_heap (<[fresh (dom (heap w)) := plain ∅]> (heap w)) w).
    exists (fresh (dom (heap w0))), w0. split.
    { apply Hgo; simpl; [done| |by rewrite lookup_insert_eq|by rewrite lookup_insert_eq].
      intros k. destruct config as [| | | | |lc]; try done. simpl.
      destruct (decide (lc = fresh (dom (heap w)))) as [->|Hne].
      - by rewrite lookup_insert_eq, fresh_unused.
      - by rewrite lookup_insert_ne. }
    split; [apply fresh_unused|]. split; [|done].
    intros l' o Ho. simpl. rewrite lookup_insert_ne; [done|].
    intros <-. by rewrite fresh_unused in Ho.
  - assert (default_arg data (alloc (plain ∅)) = mret data) as -> by by destruct data.
    erewrite bind_ret by reflexivity.
    exists (fresh (dom (heap w))), w. split; [by apply Hgo|].
    split; [apply fresh_unused|]. done.
Qed.

(** ** What the methods leave untouched *)

Create HintDb frame.
#[local] Hint Resolve keeps_get_world keeps_emit keeps_alloc keeps_get_prop
  keeps_to_string keeps_call_toString keeps_spread2 keeps_type_error
  keeps_throw : frame.
#[local] Hint Extern 1 (keeps _ (set_prop _ _ _) _) =>
  apply keeps_set_prop; assumption : frame.
#[local] Hint Extern 1 (keeps _ (for_in _ _) _) =>
  apply keeps_for_in; intros; apply keeps_set_prop; assumption : frame.
#[local] Hint Extern 1 (keeps _ (default_arg _ (alloc _)) (outside _)) =>
  apply keeps_default_arg; [apply keeps_alloc|intros _; assumption] : frame.

(** Goes through a method statement by statement. *)
Ltac frame :=
  lazymatch goal with
  | |- keeps _ (mret _) _ => apply keeps_ret; first [exact I | assumption]
  | |- keeps _ (_ ≫= _) _ =>
      first [ eapply (keeps_bind _ _ _ any); [solve [eauto with frame]|intros ? _; frame]
            | eapply keeps_bind; [solve [eauto with frame]|intros ? ?; frame]
            | eapply (keeps_bind _ _ _ any); [frame|intros ? _; frame] ]
  | |- keeps _ (try_catch _ _) _ => apply keeps_try_catch; [frame|intros ?; frame]
  | |- keeps _ (if ?b then _ else _) _ => destruct b; frame
  | |- keeps _ (match ?x with _ => _ end) _ => destruct x; frame
  | |- _ => solve [eauto with frame]
  end.

Section frames.
Context (D : gset loc).




Lemma keeps_call_split (v : value) (sep : ascii) : keeps D (call_split v sep) any.
Proof. unfold call_split. frame. Qed.

Lemma keeps_location (error : value) : keeps D (location error) any.
Proof.
  unfold location.
  eapply keeps_bind; [apply keeps_get_prop|]. intros stack _.
  eapply keeps_bind; [apply keeps_call_split|]. intros lines _.
  eapply keeps_bind; [apply keeps_call_split|]. intros inner _.
  eapply keeps_bind; [apply keeps_call_split|]. intros parts _.
  by apply keeps_ret.
Qed.

Lemma keeps_appendErrLocData (error data : value) :
  outside D data → keeps D (appendErrLocData error data) (outside D).
Proof.
  intros Hd. unfold appendErrLocData.
  eapply keeps_bind;
    [apply keeps_default_arg; [apply keeps_alloc|intros _; exact Hd]|].
  intros data' Hd'.
  eapply (keeps_bind _ _ _ any).
  { apply keeps_try_catch; [|intros; by apply keeps_ret].
    eapply keeps_bind; [apply keeps_location|]. intros [file line] _. frame. }
  intros _ _. by apply keeps_ret.
Qed.









End frames.

(** ** Enrichment with the location of the error *)

Lemma default_arg_mret (v d : value) (w : world) :
  default_arg v (mret d) w = (Ret (if decide (v = VUndef) then d else v), w).
Proof. by destruct v. Qed.



(** C7, as the code has it.  [getLogObject] stores every extra key [k] of
    [data] under ["_" + k] with its value.  The six fixed fields whose name
    has no underscore ([version], [host], [timestamp], [short_message],
    [full_message], [level]) keep the value the builder gave them, whatever
    the extra keys; the three fixed fields [_env], [_localeDate] and
    [_app_name] share the prefix with the extra keys and keep their value
    exactly when [data] has no key [env], [localeDate] or [app_name].  (The
    key [_proto__] is left out: ["_" + k] is then the accessor
    [__proto__].) *)
Theorem extra_keys_are_prefixed
    (shortMessage fullMessage data level config : value) (w : world) :
  nullish config = false → bound w data →
  ∃ l w' record,
    getLogObject shortMessage fullMessage data level config w = (Ret (VRef l), w') ∧
    heap w !! l = None ∧
    heap w' !! l = Some (plain record) ∧
    record !! "version" = Some (VStr "1.1") ∧
    record !! "host" = Some (VStr (hostname (env w))) ∧
    record !! "timestamp" = Some (VNum (Q2Qc (now (env w) # 1000)%Q)) ∧
    record !! "short_message" = Some shortMessage ∧
    record !! "full_message" = Some fullMessage ∧
    record !! "level" = Some level ∧
    (∀ k v, (k, v) ∈ own_entries (heap w) data → k ≠ "_proto__" →
            record !! ("_" +:+ k) = Some v) ∧
    (∀ k, k ∉ (own_entries (heap w) data).*1 →
          record !! ("_" +:+ k)
          = fixed_fields (env w) shortMessage fullMessage level
              (field w config "env") (field w config "appName") !! ("_" +:+ k)) ∧
    ("env" ∉ (own_entries (heap w) data).*1 →
       record !! "_env" = Some (field w config "env")) ∧
    ("app_name" ∉ (own_entries (heap w) data).*1 →
       record !! "_app_name" = Some (field w config "appName")).
Proof.
  intros Hc Hd.
  destruct (getLogObject_run shortMessage fullMessage data level config w Hc Hd)
    as (l & w0 & Hrun & Hl & Hold & _ & _).
  eexists l, _, _. split; [exact Hrun|]. split.
  { destruct (heap w !! l) as [o|] eqn:Ho; [|done]. apply Hold in Ho. congruence. }
  split; [apply lookup_insert_eq|].
  assert (Hother : ∀ k, k ∉ (own_entries (heap w) data).*1 →
    prefixed "_" (own_entries (heap w) data)
      (fixed_fields (env w) shortMessage fullMessage level
         (field w config "env") (field w config "appName")) !! ("_" +:+ k)
    = fixed_fields (env w) shortMessage fullMessage level
        (field w config "env") (field w config "appName") !! ("_" +:+ k)).
  { intros k Hk. apply lookup_prefixed_other. intros k' Hk' Heq.
    apply (inj (String.app "_")) in Heq. by subst. }
  repeat (split; [by rewrite lookup_prefixed_plain by (apply list_elem_of_In; simpl; tauto)|]).
  split.
  { intros k v Hkv Hk. apply lookup_prefixed_in; [apply NoDup_own_entries|done|].
    intros Heq. apply Hk. by injection Heq. }
  split; [exact Hother|].
  split; intros Hk.
  - etrans; [apply (Hother "env" Hk)|reflexivity].
  - etrans; [apply (Hother "app_name" Hk)|reflexivity].
Qed.

Lemma extra_keys_are_prefixed_witness :
  let w := world_of 1730483000123
             [example_config "console"; plain {[ "component" := VStr "writer" ]}] in
  nullish (VRef 1) = false ∧ bound w (VRef 2) ∧
  ∃ l w' record,
    getLogObject (VStr "Disk full") (VStr "stack...") (VRef 2) (num ERROR) (VRef 1) w
      = (Ret (VRef l), w') ∧
    heap w' !! l = Some (plain record) ∧
    record !! "short_message" = Some (VStr "Disk full") ∧
    record !! "level" = Some (num 3) ∧
    record !! "_component" = Some (VStr "writer").
Proof.
  intros w.
  assert (Hb : bound w (VRef 2)) by (unfold bound; vm_compute; eauto).
  split; [reflexivity|]. split; [exact Hb|].
  destruct (extra_keys_are_prefixed (VStr "Disk full") (VStr "stack...") (VRef 2)
              (num ERROR) (VRef 1) w eq_refl Hb)
    as (l & w' & record & Hrun & _ & Hrec & _ & _ & _ & Hs & _ & Hl & Hextra & _).
  exists l, w', record.
  split; [exact Hrun|]. split; [exact Hrec|]. split; [exact Hs|]. split; [exact Hl|].
  apply (Hextra "component"); [vm_compute; left|discriminate].
Defined.

(** C7, as stated, fails: an extra key [env] lands on the fixed field
    [_env] and replaces the environment of the configuration. *)
Lemma extra_key_env_replaces_the_environment :
  let w := world_of 1730483000123
             [example_config "console"; plain {[ "env" := VStr "staging" ]}] in
  let r := getLogObject (VStr "Disk full") (VStr "stack...") (VRef 2) (num ERROR) (VRef 1) w in
  field w (VRef 1) "env" = VStr "production" ∧
  result_of r = Ret (VRef 3) ∧
  field (after r) (VRef 3) "_env" = VStr "staging".
Proof. by vm_compute. Qed.

(** C9, as the code has it.  The record [getLogObject] builds is determined
    by its five arguments (with the properties of [data] and the [env] and
    [appName] of [config]) together with the clock, the host name and the
    locale of the process; and the call writes nothing but the record: the
    objects that exist stay as they are, and nothing is printed or sent. *)
Theorem getLogObject_is_a_function_of_its_inputs_and_the_host
    (shortMessage fullMessage data level config : value) (w1 w2 : world) :
  nullish config = false → bound w1 data → bound w2 data →
  env w1 = env w2 →
  own_entries (heap w1) data = own_entries (heap w2) data →
  field w1 config "env" = field w2 config "env" →
  field w1 config "appName" = field w2 config "appName" →
  ∃ l1 l2 w1' w2' record,
    getLogObject shortMessage fullMessage data level config w1 = (Ret (VRef l1), w1') ∧
    getLogObject shortMessage fullMessage data level config w2 = (Ret (VRef l2), w2') ∧
    heap w1' !! l1 = Some (plain record) ∧
    heap w2' !! l2 = Some (plain record) ∧
    (∀ l o, heap w1 !! l = Some o → heap w1' !! l = Some o) ∧
    (∀ l o, heap w2 !! l = Some o → heap w2' !! l = Some o) ∧
    effects w1' = effects w1 ∧ effects w2' = effects w2 ∧
    env w1' = env w1 ∧ env w2' = env w2.
Proof.
  intros Hc Hd1 Hd2 Henv Hentries Hf1 Hf2.
  destruct (getLogObject_run shortMessage fullMessage data level config w1 Hc Hd1)
    as (l1 & w01 & Hrun1 & Hl1 & Hold1 & Heff1 & Henv1).
  destruct (getLogObject_run shortMessage fullMessage data level config w2 Hc Hd2)
    as (l2 & w02 & Hrun2 & Hl2 & Hold2 & Heff2 & Henv2).
  eexists l1, l2, _, _, _. split; [exact Hrun1|]. split; [exact Hrun2|].
  split; [apply lookup_insert_eq|].
  split; [rewrite Henv, Hentries, Hf1, Hf2; apply lookup_insert_eq|].
  split.
  { intros l o Ho. simpl. rewrite lookup_insert_ne; [by apply Hold1|].
    intros <-. apply Hold1 in Ho. congruence. }
  split.
  { intros l o Ho. simpl. rewrite lookup_insert_ne; [by apply Hold2|].
    intros <-. apply Hold2 in Ho. congruence. }
  done.
Qed.

Lemma getLogObject_is_a_function_of_its_inputs_and_the_host_witness :
  let data := plain {[ "component" := VStr "writer" ]} in
  let w1 := world_of 1730483000123 [example_config "console"; data] in
  let w2 := world_of 1730483000123 [example_config "http"; data; plain ∅] in
  ∃ l1 l2 w1' w2' record,
    getLogObject (VStr "Disk full") VUndef (VRef 2) (num ERROR) (VRef 1) w1
      = (Ret (VRef l1), w1') ∧
    getLogObject (VStr "Disk full") VUndef (VRef 2) (num ERROR) (VRef 1) w2
      = (Ret (VRef l2), w2') ∧
    heap w1' !! l1 = Some (plain record) ∧
    heap w2' !! l2 = Some (plain record).
Proof.
  intros data w1 w2.
  destruct (getLogObject_is_a_function_of_its_inputs_and_the_host
              (VStr "Disk full") VUndef (VRef 2) (num ERROR) (VRef 1) w1 w2)
    as (l1 & l2 & w1' & w2' & record & H1 & H2 & H3 & H4 & _);
    [ reflexivity | unfold bound; vm_compute; eauto | unfold bound; vm_compute; eauto
    | reflexivity | by vm_compute | by vm_compute | by vm_compute | ].
  exists l1, l2, w1', w2', record. auto.
Defined.

(** C9, as stated, fails: two calls with the same five arguments, made one
    millisecond apart, build two different records. *)
Lemma getLogObject_reads_the_clock :
  let objects := [example_config "console"; plain {[ "component" := VStr "writer" ]}] in
  let r1 := getLogObject (VStr "Disk full") VUndef (VRef 2) (num ERROR) (VRef 1)
              (world_of 1730483000123 objects) in
  let r2 := getLogObject (VStr "Disk full") VUndef (VRef 2) (num ERROR) (VRef 1)
              (world_of 1730483000124 objects) in
  result_of r1 = Ret (VRef 3) ∧ result_of r2 = Ret (VRef 3) ∧
  field (after r1) (VRef 3) "_localeDate" = VStr "11/1/2026, 6:23:20.123 PM" ∧
  field (after r2) (VRef 3) "_localeDate" = VStr "11/1/2026, 6:23:20.124 PM" ∧
  heap (after r1) !! 3%positive ≠ heap (after r2) !! 3%positive.
Proof.
  intros objects r1 r2. repeat (split; [by vm_compute|]).
  intros H.
  assert (Hf : field (after r1) (VRef 3) "_localeDate"
               = field (after r2) (VRef 3) "_localeDate")
    by (unfold field; by rewrite H).
  vm_compute in Hf. discriminate Hf.
Qed.

(** ** Dispatch *)

Lemma lookup_fixed_fields_short (h : host) (short full level e a : value)
    (kvs : list (string * value)) :
  prefixed "_" kvs (fixed_fields h short full level e a) !! "short_message" = Some short ∧
  prefixed "_" kvs (fixed_fields h short full level e a) !! "full_message" = Some full ∧
  prefixed "_" kvs (fixed_fields h short full level e a) !! "level" = Some level.
Proof.
  repeat split;
    by rewrite lookup_prefixed_plain by (apply list_elem_of_In; simpl; tauto).
Qed.

(** The synchronous part of [report] returns: with a settled promise on the
    console, with a promise that waits for the transport otherwise. *)
Lemma report_run (lg : logger) (shortMessage fullMessage data level : value) (w : world) :
  nullish (config lg) = false → bound w data →
  ∃ l data' level' w1,
    report lg shortMessage fullMessage data level w
    = (Ret (match sender_of lg with
            | ViaConsole => Settled Resolved
            | _ => Waiting (Call (VRef l) data')
            end), w1) ∧
    field w1 (VRef l) "short_message" = shortMessage ∧
    field w1 (VRef l) "full_message" = fullMessage ∧
    field w1 (VRef l) "level" = level' ∧
    level' = (if decide (level = VUndef) then num ALERT else level) ∧
    (data ≠ VUndef → data' = data) ∧
    env w1 = env w ∧
    ∃ sent, effects w1 = effects w ++ [sent] ∧
      match sender_of lg with
      | ViaConsole =>
          sent = Print (if bool_decide (level' = num INFORMATIONAL) then Info else Error)
                       [VRef l]
      | ViaQueue _ => sent = QueueSend (VRef l)
      | ViaHttp options => ∃ url, sent = HttpPost url (VRef l) (timeout options) (auth options)
      end.
Proof.
  intros Hc Hd. unfold report.
  assert (Hdata : ∃ data' w0,
    default_arg data (alloc (plain ∅)) w = (Ret data', w0) ∧ bound w0 data' ∧
    (data ≠ VUndef → data' = data) ∧ effects w0 = effects w ∧ env w0 = env w).
  { destruct (decide (data = VUndef)) as [->|Hne].
    - eexists _, _. split; [apply alloc_run|]. simpl.
      rewrite lookup_insert_eq. split; [by eexists|done].
    - exists data, w. by destruct data. }
  destruct Hdata as (data' & w0 & Hrun0 & Hb0 & Hdata' & Heff0 & Henv0).
  erewrite bind_ret by exact Hrun0.
  erewrite bind_ret by apply default_arg_mret.
  destruct (getLogObject_run shortMessage fullMessage data'
              (if decide (level = VUndef) then num ALERT else level) (config lg) w0 Hc Hb0)
    as (l & wg & Hrung & Hl & _ & Heffg & Henvg).
  erewrite bind_ret by exact Hrung. cbv zeta.
  match type of Hrung with _ = (_, ?w') => set (w2 := w') in * end.
  assert (Hfields : ∀ k v,
    prefixed "_" (own_entries (heap w0) data')
      (fixed_fields (env w0) shortMessage fullMessage
         (if decide (level = VUndef) then num ALERT else level)
         (field w0 (config lg) "env") (field w0 (config lg) "appName")) !! k = Some v →
    field w2 (VRef l) k = v).
  { intros k v Hk. unfold field, w2; simpl. rewrite lookup_insert_eq. simpl. by rewrite Hk. }
  destruct (lookup_fixed_fields_short (env w0) shortMessage fullMessage
              (if decide (level = VUndef) then num ALERT else level)
              (field w0 (config lg) "env") (field w0 (config lg) "appName")
              (own_entries (heap w0) data')) as (Hs & Hf & Hlv).
  apply Hfields in Hs, Hf, Hlv.
  exists l, data', (if decide (level = VUndef) then num ALERT else level).
  unfold try_catch, sendLog.
  destruct (sender_of lg) as [options|mq|].
  - erewrite bind_ret by (erewrite bind_ret by (by apply get_prop_run);
                          erewrite bind_ret by reflexivity; reflexivity).
    eexists. split; [reflexivity|]. split; [exact Hs|]. split; [exact Hf|].
    split; [exact Hlv|]. split; [done|]. split; [exact Hdata'|].
    split; [simpl; congruence|].
    eexists. split; [rewrite ?Hlv; simpl; rewrite Heffg, Heff0; reflexivity|by eexists].
  - erewrite bind_ret by (erewrite bind_ret by reflexivity; reflexivity).
    eexists. split; [reflexivity|]. split; [exact Hs|]. split; [exact Hf|].
    split; [exact Hlv|]. split; [done|]. split; [exact Hdata'|].
    split; [simpl; congruence|].
    eexists. split; [rewrite ?Hlv; simpl; rewrite Heffg, Heff0; reflexivity|done].
  - erewrite bind_ret by (erewrite bind_ret by (by apply get_prop_run);
                          erewrite bind_ret by reflexivity; reflexivity).
    eexists. split; [reflexivity|]. split; [exact Hs|]. split; [exact Hf|].
    split; [exact Hlv|]. split; [done|]. split; [exact Hdata'|].
    split; [simpl; congruence|].
    eexists. split; [rewrite ?Hlv; simpl; rewrite Heffg, Heff0; reflexivity|done].
Qed.

Lemma catch_block_run (c : call) (error : value) (w : world) (s1 s2 s3 : string) :
  nullish (logObject c) = false → nullish error = false →
  to_string (field w (logObject c) "short_message") w = (Ret s1, w) →
  to_string (field w error "stack") w = (Ret s2, w) →
  to_string (field w (logObject c) "full_message") w = (Ret s3, w) →
  catch_block c error w
  = (Ret Resolved,
     with_effect (Print Error [VStr (cannot_report s1 s2 s3); data_of c]) w).
Proof.
  intros Hl He H1 H2 H3. unfold catch_block.
  erewrite bind_ret by (by apply get_prop_run).
  erewrite bind_ret by exact H1.
  erewrite bind_ret by (by apply get_prop_run).
  erewrite bind_ret by exact H2.
  erewrite bind_ret by (by apply get_prop_run).
  erewrite bind_ret by exact H3.
  erewrite bind_ret by reflexivity. reflexivity.
Qed.

(** The handler never throws out of the executor, and never rejects. *)
Lemma failed_settles (c : call) (error : value) (w : world) :
  ∃ p w', failed c error w = (Ret p, w') ∧ (p = Resolved ∨ p = Pending).
Proof.
  unfold failed, try_catch.
  destruct (catch_block c error w) as [[p|e] w'] eqn:Hrun.
  - exists p, w'. split; [done|]. left.
    assert (Hk : keeps ∅ (catch_block c error) (λ p, p = Resolved)).
    { unfold catch_block. repeat (eapply (keeps_bind _ _ _ any);
        [solve [eauto with frame]|intros ? _]). by apply keeps_ret. }
    destruct (Hk w _ _ (empty_subseteq _) Hrun) as [_ Hp]. exact Hp.
  - eexists _, _. split; [reflexivity|]. by right.
Qed.

(** C1, as the code has it.  [report] returns without throwing, and the
    promise it returns is never rejected, whatever the transport does.  When
    the transport fails with an error that is neither [null] nor [undefined],
    the handler prints the short message of the record, the [stack] of the
    error, the full message of the record and the [data] on the error
    console, and the promise resolves, provided the three values can be
    converted to strings (as every primitive can). *)
Theorem report_is_best_effort
    (lg : logger) (shortMessage fullMessage data level : value) (w : world) :
  nullish (config lg) = false → bound w data →
  ∃ t w1,
    report lg shortMessage fullMessage data level w = (Ret t, w1) ∧
    (∀ s, ∃ p w2, settle t s w1 = (Ret p, w2) ∧ ∀ e, p ≠ Rejected e) ∧
    (sender_of lg = ViaConsole → t = Settled Resolved) ∧
    (sender_of lg ≠ ViaConsole →
       ∃ c, t = Waiting c ∧ (data ≠ VUndef → data_of c = data) ∧
         settle t Succeeds w1 = (Ret Resolved, w1) ∧
         ∀ error s1 s2 s3,
           nullish error = false →
           to_string shortMessage w1 = (Ret s1, w1) →
           to_string (field w1 error "stack") w1 = (Ret s2, w1) →
           to_string fullMessage w1 = (Ret s3, w1) →
           settle t (Fails error) w1
           = (Ret Resolved,
              with_effect (Print Error [VStr (cannot_report s1 s2 s3); data_of c]) w1)).
Proof.
  intros Hc Hd.
  destruct (report_run lg shortMessage fullMessage data level w Hc Hd)
    as (l & data' & level' & w1 & Hrun & Hs & Hf & _ & _ & Hdata & _).
  eexists _, w1. split; [exact Hrun|]. split; [|split].
  - intros s. destruct (sender_of lg); simpl; try by eexists _, _.
    + destruct s as [|err|]; try by eexists _, _.
      destruct (failed_settles (Call (VRef l) data') err w1) as (p & w2 & -> & Hp).
      exists p, w2. split; [done|]. intros e. by destruct Hp as [-> | ->].
    + destruct s as [|err|]; try by eexists _, _.
      destruct (failed_settles (Call (VRef l) data') err w1) as (p & w2 & -> & Hp).
      exists p, w2. split; [done|]. intros e. by destruct Hp as [-> | ->].
  - by intros ->.
  - intros Hsender. exists (Call (VRef l) data').
    split; [by destruct (sender_of lg)|]. split; [done|].
    split; [by destruct (sender_of lg)|].
    intros error s1 s2 s3 He H1 H2 H3.
    assert (Hsettle : settle (Waiting (Call (VRef l) data')) (Fails error) w1
      = (Ret Resolved,
         with_effect (Print Error [VStr (cannot_report s1 s2 s3); data']) w1)).
    { rewrite <- Hs in H1. rewrite <- Hf in H3. simpl. unfold failed, try_catch.
      by rewrite (catch_block_run (Call (VRef l) data') error w1 s1 s2 s3
                    eq_refl He H1 H2 H3). }
    by destruct (sender_of lg).
Qed.

(** ** Construction *)

Lemma lower_ascii_same_letter (a : ascii) : same_letter a (lower_ascii a).
Proof.
  unfold same_letter, lower_ascii, is_upper.
  destruct (Nat.leb 65 (nat_of_ascii a)) eqn:H1;
    destruct (Nat.leb (nat_of_ascii a) 90) eqn:H2; simpl; auto.
  apply Nat.leb_le in H1, H2. right. split; [done|].
  apply nat_ascii_embedding. lia.
Qed.

Lemma same_letter_lower_ascii (a b : ascii) :
  same_letter a b → ¬ is_upper b → lower_ascii a = b.
Proof.
  unfold same_letter, lower_ascii, is_upper. intros [->|[[H1 H2] Hb]] Hnb.
  - destruct (Nat.leb 65 (nat_of_ascii b)) eqn:H1;
      destruct (Nat.leb (nat_of_ascii b) 90) eqn:H2; simpl; auto.
    apply Nat.leb_le in H1, H2. tauto.
  - apply Nat.leb_le in H1 as ->. apply Nat.leb_le in H2 as ->. simpl.
    rewrite <- Hb. apply ascii_nat_embedding.
Qed.

Lemma toLowerCase_spells (s : string) : spells s (toLowerCase s).
Proof.
  unfold spells. induction s as [|a s IH]; simpl; constructor;
    auto using lower_ascii_same_letter.
Qed.

Lemma spells_toLowerCase (s c : string) :
  spells s c → Forall (λ b, ¬ is_upper b) (String.list_ascii_of_string c) →
  toLowerCase s = c.
Proof.
  unfold spells. revert c. induction s as [|a s IH]; intros [|b c]; simpl;
    intros Hs Hc; inversion Hs; subst; [done|].
  inversion Hc; subst. f_equal; auto using same_letter_lower_ascii.
Qed.

Lemma transports_lower (c : string) :
  c ∈ transports → Forall (λ b, ¬ is_upper b) (String.list_ascii_of_string c).
Proof.
  intros Hc. apply list_elem_of_In in Hc. simpl in Hc.
  destruct Hc as [<-|[<-|[<-|[]]]]; simpl;
    repeat (constructor; [intros [_ H]; compute in H; lia|]); constructor.
Qed.

(** A string names a transport in some letter case exactly when its lower
    case is the name. *)
Lemma spells_transport (s c : string) :
  c ∈ transports → spells s c ↔ toLowerCase s = c.
Proof.
  intros Hc. split.
  - intros Hs. apply spells_toLowerCase; [done|by apply transports_lower].
  - intros <-. apply toLowerCase_spells.
Qed.

Lemma includes_transports (x : string) :
  includes [VStr "http"; VStr "amqp"; VStr "console"] (VStr x)
  = bool_decide (x ∈ transports).
Proof.
  unfold includes, transports. apply bool_decide_ext.
  rewrite !elem_of_cons, !elem_of_nil. split; intros H; destruct_or!;
    simplify_eq; auto.
Qed.

(** C6.  Construction never fails on a configuration object whose
    [transport] can be converted to a string (every primitive can).  When
    the string names one of the transports in some letter case, the logger
    uses that transport, [config.transport] holds the name in lower case,
    and nothing is printed; when it names none, the logger uses the
    console, [config.transport] holds ["console"], and exactly one warning
    is printed. *)
Theorem constructor_normalizes_the_transport
    (l : loc) (o : object) (s : string) (w : world) :
  heap w !! l = Some o →
  to_string (field w (VRef l) "transport") w = (Ret s, w) →
  ∃ lg w',
    constructor (VRef l) w = (Ret lg, w') ∧
    config lg = VRef l ∧
    field w' (VRef l) "transport" = VStr (transport_of lg) ∧
    (∀ c, c ∈ transports → spells s c →
          transport_of lg = c ∧ effects w' = effects w) ∧
    ((∀ c, c ∈ transports → ¬ spells s c) →
       transport_of lg = "console" ∧
       effects w' = effects w ++ [Print Warn [VStr (invalid_transport (toLowerCase s))]]).
Proof.
  intros Ho Hs. unfold constructor.
  erewrite bind_ret by (by apply get_prop_run).
  erewrite bind_ret by exact Hs.
  erewrite bind_ret by (by apply set_prop_run).
  match goal with |- context [with_heap ?h w] => set (w1 := with_heap h w) end.
  assert (Hw1 : heap w1 !! l
    = Some (Obj (proto_of o) (<["transport" := VStr (toLowerCase s)]> (props o))))
    by apply lookup_insert_eq.
  assert (Ht1 : field w1 (VRef l) "transport" = VStr (toLowerCase s)).
  { unfold field. rewrite Hw1. simpl. by rewrite lookup_insert_eq. }
  erewrite bind_ret by (by apply get_prop_run). rewrite Ht1, includes_transports.
  destruct (decide (toLowerCase s ∈ transports)) as [Hin|Hout].
  - rewrite bool_decide_eq_true_2 by done. cbn [negb].
    erewrite bind_ret by reflexivity.
    erewrite bind_ret by (by apply get_prop_run). rewrite Ht1.
    assert (Hvalid : ∀ lg,
      transport_of lg = toLowerCase s →
      (∀ c, c ∈ transports → spells s c →
            transport_of lg = c ∧ effects w1 = effects w) ∧
      ((∀ c, c ∈ transports → ¬ spells s c) →
         transport_of lg = "console" ∧
         effects w1 = effects w ++ [Print Warn [VStr (invalid_transport (toLowerCase s))]])).
    { intros lg Hlg. split.
      - intros c Hc Hspell. apply spells_transport in Hspell; [|done]. by rewrite Hlg.
      - intros Hno. destruct (Hno _ Hin). apply toLowerCase_spells. }
    apply list_elem_of_In in Hin. simpl in Hin.
    destruct Hin as [H|[H|[H|[]]]]; rewrite <- H in *.
    + rewrite bool_decide_eq_true_2 by done.
      repeat (erewrite bind_ret by (by apply get_prop_run)).
      eexists _, w1. split; [reflexivity|]. split; [done|]. split; [done|].
      by apply Hvalid.
    + rewrite bool_decide_eq_false_2 by done. rewrite bool_decide_eq_true_2 by done.
      repeat (erewrite bind_ret by (by apply get_prop_run)).
      eexists _, w1. split; [reflexivity|]. split; [done|]. split; [done|].
      by apply Hvalid.
    + rewrite !bool_decide_eq_false_2 by done.
      eexists _, w1. split; [reflexivity|]. split; [done|]. split; [done|].
      by apply Hvalid.
  - rewrite bool_decide_eq_false_2 by done. cbn [negb].
    erewrite bind_ret.
    2:{ erewrite bind_ret by (by apply get_prop_run). rewrite Ht1.
        erewrite bind_ret by apply to_string_str.
        erewrite bind_ret by reflexivity.
        by apply set_prop_run. }
    match goal with |- context [with_heap ?h ?w0] =>
      lazymatch w0 with with_effect _ _ => set (w2 := with_heap h w0) end end.
    assert (Ht2 : field w2 (VRef l) "transport" = VStr "console").
    { unfold field, w2. simpl. rewrite lookup_insert_eq. simpl. by rewrite lookup_insert_eq. }
    erewrite bind_ret by (by apply get_prop_run). rewrite Ht2.
    rewrite !bool_decide_eq_false_2 by done.
    eexists _, w2. split; [reflexivity|]. split; [done|]. split; [done|]. split.
    + intros c Hc Hspell. apply spells_transport in Hspell; [|done]. by subst.
    + done.
Qed.

Lemma constructor_normalizes_the_transport_witness :
  let w := world_of 1730483000123 [example_config "AMQP"] in
  ∃ lg w',
    constructor (VRef 1) w = (Ret lg, w') ∧
    transport_of lg = "amqp" ∧
    field w' (VRef 1) "transport" = VStr "amqp" ∧
    effects w' = [].
Proof.
  intros w.
  destruct (constructor_normalizes_the_transport 1 (example_config "AMQP") "AMQP" w)
    as (lg & w' & Hrun & _ & Hfield & Hvalid & _); [by vm_compute|by vm_compute|].
  destruct (Hvalid "amqp") as [Hlg Heff].
  { apply list_elem_of_In. simpl. tauto. }
  { apply spells_transport; [apply list_elem_of_In; simpl; tauto|reflexivity]. }
  exists lg, w'. rewrite Hlg in Hfield. auto.
Defined.

Lemma report_is_best_effort_witness :
  let w := world_of 1730483000123
             [example_config "http"; example_error "timeout of 2000ms exceeded" ∅] in
  let lg := Instance (VRef 1) (ViaHttp (HttpOptions (num 2000) None)) in
  let stack := "Error: timeout of 2000ms exceeded" +:+ newline +:+
               "    at run (/srv/job.js:10:5)" in
  ∃ c w1,
    report lg (VStr "Disk full") (VStr "stack...") VUndef (num ERROR) w
      = (Ret (Waiting c), w1) ∧
    settle (Waiting c) (Fails (VRef 2)) w1
      = (Ret Resolved,
         with_effect
           (Print Error [VStr (cannot_report "Disk full" stack "stack..."); data_of c])
           w1).
Proof.
  intros w lg stack.
  destruct (report_is_best_effort lg (VStr "Disk full") (VStr "stack...") VUndef
              (num ERROR) w eq_refl I)
    as (t & w1 & Hrun & _ & _ & Hfails).
  destruct (Hfails ltac:(done)) as (c & -> & _ & _ & Hprint).
  exists c, w1. split; [exact Hrun|].
  apply Hprint; try reflexivity.
  assert (Hw : w1 = after (report lg (VStr "Disk full") (VStr "stack...") VUndef
                             (num ERROR) w)) by (by rewrite Hrun).
  assert (Hstack : field w1 (VRef 2) "stack" = VStr stack)
    by (rewrite Hw; by vm_compute).
  rewrite Hstack. reflexivity.
Defined.

(** C1, as stated, fails.  What the handler prints of the failure is its
    [stack]: when the transport rejects with a value that has none (the
    string ["ECONNRESET"] here), the line on the console says
    ["Because of: undefined"] and the failure is not in it.  And when the
    transport rejects with [undefined], the handler throws on [error.stack]
    before it prints: nothing is written to the console, and the promise of
    [report] is never settled. *)
Lemma report_prints_the_stack_and_stays_pending_on_undefined :
  let w := world_of 1730483000123 [example_config "HTTP"] in
  let reported (failure : value) :=
    (lg ← constructor (VRef 1);
     t ← report lg (VStr "Disk full") (VStr "stack...") VUndef (num ERROR);
     settle t (Fails failure)) w in
  (result_of (reported (VStr "ECONNRESET")) = Ret Resolved ∧
   effects (after (reported (VStr "ECONNRESET")))
   = [HttpPost VUndef (VRef 3) (num 2000) None;
      Print Error [VStr (cannot_report "Disk full" "undefined" "stack..."); VRef 2]]) ∧
  (result_of (reported VUndef) = Ret Pending ∧
   effects (after (reported VUndef))
   = [HttpPost VUndef (VRef 3) (num 2000) None; Unhandled (VRef 4)] ∧
   proto_of <$> heap (after (reported VUndef)) !! 4%positive
   = Some (ErrorProto "TypeError")).
Proof. by vm_compute. Qed.

(** ** Error classification *)

(** C8 at its failing inputs.  An error whose kind is the name of a member
    of [Object.prototype] ([toString] here) finds that member in
    [this.errorReporters]: the call returns and no report is made.  And
    [error(undefined)] throws out of [error]: the handler of the [try]
    calls [error.toString()] again.  For comparison, a kind that is found
    nowhere is reported twice through [reportGeneralError], a missing kind
    once, and an error of kind [api] without a request twice. *)
Lemma error_drops_inherited_kinds_and_throws_on_undefined :
  let objects kind := [example_config "console"; example_error "boom" kind] in
  let run kind err :=
    (lg ← constructor (VRef 1); error lg err VUndef)
      (world_of 1730483000123 (objects kind)) in
  (result_of (run {[ "errorType" := VStr "toString" ]} (VRef 2)) = Ret tt ∧
   effects (after (run {[ "errorType" := VStr "toString" ]} (VRef 2))) = []) ∧
  (∃ e, result_of (run ∅ VUndef) = Throw e ∧ effects (after (run ∅ VUndef)) = []) ∧
  (let r := run {[ "errorType" := VStr "database" ]} (VRef 2) in
   result_of r = Ret tt ∧
   effects (after r) = [Print Error [VRef 5]; Print Error [VRef 6]] ∧
   field (after r) (VRef 5) "short_message" = VStr "Error: boom" ∧
   field (after r) (VRef 5) "level" = num ERROR ∧
   field (after r) (VRef 6) "short_message"
   = VStr "TypeError: this.errorReporters[error.errorType] is not a function") ∧
  (let r := run ∅ (VRef 2) in
   result_of r = Ret tt ∧
   effects (after r) = [Print Error [VRef 4]] ∧
   field (after r) (VRef 4) "short_message" = VStr "Error: boom" ∧
   field (after r) (VRef 4) "level" = num ERROR) ∧
  (let r := run {[ "errorType" := VStr "api" ]} (VRef 2) in
   result_of r = Ret tt ∧
   effects (after r) = [Print Error [VRef 6]; Print Error [VRef 7]] ∧
   field (after r) (VRef 6) "short_message" = VStr "Error: boom" ∧
   field (after r) (VRef 7) "short_message"
   = VStr "TypeError: Cannot read properties of undefined (reading 'method')").
Proof.
  intros objects run. split; [by vm_compute|].
  split; [|split; [|split]; by vm_compute].
  exists (VRef 5). by vm_compute.
Qed.




(** Decides a closed proposition by evaluation. *)
Ltac evaluate := apply (bool_decide_unpack _); by vm_compute.

(** ** What the methods print *)

Create HintDb silence.
#[local] Hint Resolve silent_ret silent_throw silent_get_world silent_alloc
  silent_type_error silent_get_prop silent_set_prop silent_define_prop
  silent_to_string silent_call_toString silent_spread2 : silence.
#[local] Hint Extern 1 (silent (for_in _ _)) =>
  apply silent_for_in; intros; apply silent_set_prop : silence.
#[local] Hint Extern 1 (silent (default_arg _ _)) =>
  apply silent_default_arg : silence.

(** Goes through a method that prints nothing. *)
Ltac silence :=
  lazymatch goal with
  | |- silent (_ ≫= _) => apply silent_bind; [silence|intros ?; silence]
  | |- silent (try_catch _ _) => apply silent_try_catch; [silence|intros ?; silence]
  | |- silent (if ?b then _ else _) => destruct b; silence
  | |- silent (match ?x with _ => _ end) => destruct x; silence
  | |- _ => solve [eauto with silence]
  end.

Lemma silent_call_split (v : value) (sep : ascii) : silent (call_split v sep).
Proof. unfold call_split. silence. Qed.

Lemma silent_location (error : value) : silent (location error).
Proof.
  unfold location.
  repeat (apply silent_bind; [first [apply silent_get_prop|apply silent_call_split]|intros ?]).
  apply silent_ret.
Qed.

Lemma silent_appendErrLocData (error data : value) :
  silent (appendErrLocData error data).
Proof.
  unfold appendErrLocData. apply silent_bind; [silence|]. intros data'.
  apply silent_bind; [|intros; apply silent_ret].
  apply silent_try_catch; [|intros; apply silent_ret].
  apply silent_bind; [apply silent_location|]. intros [file line]. silence.
Qed.

Lemma silent_appendErrAxiosData (error data : value) :
  silent (appendErrAxiosData error data).
Proof. unfold appendErrAxiosData. silence. Qed.

Lemma silent_getApiRequestData (req etc : value) : silent (getApiRequestData req etc).
Proof. unfold getApiRequestData. silence. Qed.

Lemma silent_getSocketRequestData (socket req etc : value) :
  silent (getSocketRequestData socket req etc).
Proof. unfold getSocketRequestData. silence. Qed.

(** A [try] whose handler is empty always completes. *)
Lemma try_catch_empty (m : M unit) (w : world) :
  ∃ w', try_catch m (λ _, mret tt) w = (Ret tt, w').
Proof. unfold try_catch. destruct (m w) as [[[]|e] w']; by eexists. Qed.

(** X1.  [appendErrLocData] never throws: whatever the error is
    ([undefined], a value without a stack, a stack that does not parse), it
    returns the [data] it was given, prints nothing, and leaves every object
    other than [data] as it was; and when the location cannot be read, the
    [data] object is left as it was too. *)
Theorem appendErrLocData_never_throws (error data : value) (w : world) :
  data ≠ VUndef →
  ∃ w',
    appendErrLocData error data w = (Ret data, w') ∧
    effects w' = effects w ∧
    (∀ l o, heap w !! l = Some o → data ≠ VRef l → heap w' !! l = Some o) ∧
    ((∃ e w1, location error w = (Throw e, w1)) →
       ∀ l o, heap w !! l = Some o → heap w' !! l = Some o).
Proof.
  intros Hdata.
  assert (Hrun : ∃ w', appendErrLocData error data w = (Ret data, w')).
  { unfold appendErrLocData.
    assert (default_arg data (alloc (plain ∅)) = mret data) as -> by by destruct data.
    erewrite bind_ret by reflexivity.
    match goal with |- context [try_catch ?m _] =>
      destruct (try_catch_empty m w) as [w' Hw'] end.
    exists w'. by erewrite bind_ret by exact Hw'. }
  destruct Hrun as [w' Hrun]. exists w'. split; [exact Hrun|].
  split; [exact (silent_appendErrLocData _ _ _ _ _ Hrun)|]. split.
  - intros l o Ho Hl.
    set (D := match data with
              | VRef l0 => dom (heap w) ∖ {[l0]}
              | _ => dom (heap w)
              end).
    assert (Hout : outside D data).
    { unfold D. destruct data; simpl; try done.
      apply not_elem_of_difference. right. by apply elem_of_singleton. }
    assert (HD : D ⊆ dom (heap w)).
    { unfold D. destruct data; try done. apply subseteq_difference_l. done. }
    destruct (keeps_appendErrLocData D error data Hout w _ _ HD Hrun) as [(Hs & _) _].
    rewrite Hs; [done|]. unfold D.
    apply elem_of_dom_2 in Ho. destruct data; try done.
    apply elem_of_difference. split; [done|]. apply not_elem_of_singleton. congruence.
  - intros (e & w1 & Hloc) l o Ho.
    assert (w' = w1) as ->.
    { revert Hrun. unfold appendErrLocData.
      assert (default_arg data (alloc (plain ∅)) = mret data) as -> by by destruct data.
      erewrite bind_ret by reflexivity.
      rewrite bind_unfold. unfold try_catch. rewrite bind_unfold, Hloc.
      by intros [= <-]. }
    exact (keeps_heap _ _ _ _ _ (keeps_location _ error) Hloc l o Ho).
Qed.

Lemma appendErrLocData_never_throws_witness :
  let data := plain {[ "databaseName" := VStr "usersDB" ]} in
  let w := world_of 1730483000123 [example_config "console"; data] in
  ∃ w', appendErrLocData VUndef (VRef 2) w = (Ret (VRef 2), w') ∧
        effects w' = [] ∧ heap w' !! 2%positive = Some data.
Proof.
  intros data w.
  destruct (appendErrLocData_never_throws VUndef (VRef 2) w)
    as (w' & Hrun & Heff & _ & Hsame); [done|].
  exists w'. split; [exact Hrun|]. split; [exact Heff|].
  apply Hsame; [by eexists _, _|by vm_compute].
Defined.



Lemma appendErrLocData_skips (error data : value) (w : world) :
  data ≠ VUndef → fails (location error) w →
  ∃ w', appendErrLocData error data w = (Ret data, w') ∧
        effects w' = effects w ∧
        ∀ l o, heap w !! l = Some o → heap w' !! l = Some o.
Proof.
  intros Hdata (e & w1 & Hloc & Heff). exists w1. split; [|split; [done|]].
  - unfold appendErrLocData.
    assert (default_arg data (alloc (plain ∅)) = mret data) as -> by by destruct data.
    erewrite bind_ret by reflexivity.
    rewrite bind_unfold. unfold try_catch. by rewrite bind_unfold, Hloc.
  - exact (keeps_heap _ _ _ _ _ (keeps_location _ error) Hloc).
Qed.

Lemma location_fails_one_line (error : value) (w : world) (s : string) :
  field w error "stack" = VStr s → without "010" s → fails (location error) w.
Proof.
  intros Hstack Hs.
  assert (He : nullish error = false) by (by destruct error).
  unfold fails, location. erewrite bind_ret by (by apply get_prop_run). rewrite Hstack.
  cbn [call_split]. erewrite bind_ret by reflexivity.
  rewrite split_absent by done. by eexists _, _.
Qed.

Lemma location_fails_no_parenthesis (error : value) (w : world) (head frame rest : string) :
  field w error "stack" = VStr (head +:+ newline +:+ frame +:+ rest) →
  without "010" head → without "010" frame → without "(" frame →
  rest = "" ∨ (∃ r, rest = newline +:+ r) →
  fails (location error) w.
Proof.
  intros Hstack Hh Hf Hp Hrest.
  assert (He : nullish error = false) by (by destruct error).
  unfold fails, location. erewrite bind_ret by (by apply get_prop_run). rewrite Hstack.
  cbn [call_split]. erewrite bind_ret by reflexivity.
  change (newline +:+ ?x) with (String "010" x).
  rewrite split_sep by done.
  assert (Hlines : ∃ tl, split "010" (frame +:+ rest) = frame :: tl).
  { destruct Hrest as [->|[r ->]].
    - rewrite string_app_nil_r, split_absent by done. by eexists.
    - change (newline +:+ r) with (String "010" r). rewrite split_sep by done. by eexists. }
  destruct Hlines as [tl ->].
  cbn [at_index lookup list_lookup from_option call_split].
  erewrite bind_ret by reflexivity.
  rewrite split_absent by done. by eexists _, _.
Qed.

Lemma location_fails_no_string (error : value) (w : world) :
  (∀ s, field w error "stack" ≠ VStr s) → fails (location error) w.
Proof.
  intros Hstack. unfold location.
  destruct (nullish error) eqn:He.
  - apply fails_bind; [apply silent_get_prop|]. intros stack w1 Hrun.
    destruct error; try done; by vm_compute in Hrun.
  - unfold fails. erewrite bind_ret by (by apply get_prop_run).
    destruct (field w error "stack") as [| | | |s|l] eqn:Hs;
      try (by eexists _, _). by destruct (Hstack s).
Qed.

(** X3.  Nothing is appended when the stack is missing or is not a
    string, when it has one line only, or when its second line has no
    opening parenthesis (a frame written [at file:line:col]):
    [appendErrLocData] returns [data], and every object, [data] included,
    is as it was. *)
Theorem appendErrLocData_needs_a_parenthesised_frame
    (error data : value) (w : world) :
  data ≠ VUndef →
  (∀ s, field w error "stack" ≠ VStr s) ∨
  (∃ s, field w error "stack" = VStr s ∧ without "010" s) ∨
  (∃ head frame rest,
     field w error "stack" = VStr (head +:+ newline +:+ frame +:+ rest) ∧
     without "010" head ∧ without "010" frame ∧ without "(" frame ∧
     (rest = "" ∨ ∃ r, rest = newline +:+ r)) →
  ∃ w', appendErrLocData error data w = (Ret data, w') ∧
        effects w' = effects w ∧
        ∀ l o, heap w !! l = Some o → heap w' !! l = Some o.
Proof.
  intros Hdata Hstack. apply appendErrLocData_skips; [done|].
  destruct Hstack as [H|[(s & H & Hs)|(head & frame & rest & H & Hh & Hf & Hp & Hr)]].
  - by apply location_fails_no_string.
  - by eapply location_fails_one_line.
  - by eapply location_fails_no_parenthesis.
Qed.

Lemma appendErrLocData_needs_a_parenthesised_frame_witness :
  let error :=
    Obj (ErrorProto "Error")
        {[ "message" := VStr "boom";
           "stack" := VStr ("Error: boom" +:+ newline +:+ "    at /srv/job.js:10:5") ]} in
  let data := plain {[ "databaseName" := VStr "usersDB" ]} in
  let w := world_of 1730483000123 [example_config "console"; error; data] in
  ∃ w', appendErrLocData (VRef 2) (VRef 3) w = (Ret (VRef 3), w') ∧
        heap w' !! 3%positive = Some data.
Proof.
  intros error data w.
  destruct (appendErrLocData_needs_a_parenthesised_frame (VRef 2) (VRef 3) w)
    as (w' & Hrun & _ & Hsame); [done| |].
  { right. right. exists "Error: boom", "    at /srv/job.js:10:5", "".
    split; [by vm_compute|]. split; [evaluate|]. split; [evaluate|].
    split; [evaluate|]. by left. }
  exists w'. split; [exact Hrun|]. apply Hsame. by vm_compute.
Defined.

Lemma appendErrAxiosData_run (error : value) (l : loc) (o : object) (w : world) :
  heap w !! l = Some o →
  ∃ w',
    appendErrAxiosData error (VRef l) w = (Ret (VRef l), w') ∧
    effects w' = effects w ∧
    heap w' !! l = Some (Obj (proto_of o) (axios_fields w error (props o))) ∧
    (∀ l' x, l' ≠ l → heap w !! l' = Some x → heap w' !! l' = Some x).
Proof.
  intros Ho. unfold appendErrAxiosData. simpl default_arg.
  erewrite bind_ret by reflexivity.
  cut (∃ w',
    try_catch
      (response ← get_prop error "response";
       if negb (truthy response) then mret tt
       else
         status ← get_prop response "status";
         _ ← set_prop (VRef l) "axiosStatus" status;
         statusText ← get_prop response "statusText";
         _ ← set_prop (VRef l) "axiosStatusText" statusText;
         body ← get_prop response "data";
         _ ← set_prop (VRef l) "axiosResponseData" body;
         cfg ← get_prop response "config";
         _ ← (if truthy cfg then
                url ← get_prop cfg "url"; set_prop (VRef l) "axiosUrl" url
              else mret tt);
         request ← get_prop response "request";
         if truthy request then
           method ← get_prop request "method";
           _ ← set_prop (VRef l) "axiosMethod" method;
           path ← get_prop request "path";
           set_prop (VRef l) "axiosPath" path
         else mret tt)
      (λ _, mret tt) w = (Ret tt, w') ∧
    effects w' = effects w ∧
    heap w' !! l = Some (Obj (proto_of o) (axios_fields w error (props o))) ∧
    (∀ l' x, l' ≠ l → heap w !! l' = Some x → heap w' !! l' = Some x)).
  { intros (w' & Hrun & H). exists w'. split; [|exact H].
    by erewrite bind_ret by exact Hrun. }
  unfold try_catch, axios_fields.
  destruct (nullish error) eqn:He.
  { assert (Hr : field w error "response" = VUndef) by (by destruct error).
    rewrite Hr. cbn [negb].
    eexists. split; [by destruct error|]. split; [by destruct error|].
    pose proof (fresh_unused w) as Hfresh.
    assert (Hne : fresh (dom (heap w)) ≠ l) by congruence.
    split.
    - destruct error; try done; simpl; rewrite lookup_insert_ne by done;
        rewrite Ho; by destruct o.
    - intros l' x _ Hx. destruct error; try done; simpl;
        (rewrite lookup_insert_ne; [done|congruence]). }
  erewrite bind_ret by (by apply get_prop_run).
  destruct (truthy (field w error "response")) eqn:Hr; cbn [negb].
  2:{ exists w. split; [done|]. split; [done|]. split; [|done].
      rewrite Ho. by destruct o. }
  set (response := field w error "response") in *.
  pose proof (truthy_not_nullish _ Hr) as Hnr.
  erewrite bind_ret by (by apply get_prop_run).
  destruct (set_prop_step l "axiosStatus" (field w response "status") w o Ho)
    as (w1 & Hrun1 & Hh1 & Heff1 & _ & Hf1); [done|].
  erewrite bind_ret by exact Hrun1.
  erewrite bind_ret by (by apply get_prop_run). rewrite Hf1 by done.
  destruct (set_prop_step l "axiosStatusText" (field w response "statusText") w1 _
              ltac:(rewrite Hh1; apply lookup_insert_eq))
    as (w2 & Hrun2 & Hh2 & Heff2 & _ & Hf2); [done|].
  erewrite bind_ret by exact Hrun2.
  erewrite bind_ret by (by apply get_prop_run). rewrite Hf2, Hf1 by done.
  destruct (set_prop_step l "axiosResponseData" (field w response "data") w2 _
              ltac:(rewrite Hh2; apply lookup_insert_eq))
    as (w3 & Hrun3 & Hh3 & Heff3 & _ & Hf3); [done|].
  erewrite bind_ret by exact Hrun3.
  erewrite bind_ret by (by apply get_prop_run). rewrite Hf3, Hf2, Hf1 by done.
  simpl in Hh3. rewrite Hh2 in Hh3. simpl in Hh3. rewrite Hh1 in Hh3.
  rewrite !insert_insert_eq in Hh3.
  assert (Heff : effects w3 = effects w) by congruence.
  assert (Hf : ∀ v k, k ∉ axios_keys → field w3 v k = field w v k).
  { intros v k Hk. rewrite Hf3, Hf2, Hf1; [done|..]; intros ->; apply Hk;
      apply list_elem_of_In; simpl; tauto. }
  clear Hrun1 Hrun2 Hrun3 Hh1 Hh2 Heff1 Heff2 Heff3 Hf1 Hf2 Hf3 w1 w2.
  match type of Hh3 with _ = <[l := Obj _ ?m]> _ => set (m1 := m) in * end.
  assert (Hstep4 : ∃ w4,
    (if truthy (field w response "config")
     then url ← get_prop (field w response "config") "url";
          set_prop (VRef l) "axiosUrl" url
     else mret tt) w3 = (Ret tt, w4) ∧
    heap w4 = <[l := Obj (proto_of o)
                  (if truthy (field w response "config")
                   then <["axiosUrl" := field w (field w response "config") "url"]> m1
                   else m1)]> (heap w) ∧
    effects w4 = effects w ∧
    ∀ v k, k ∉ axios_keys → field w4 v k = field w v k).
  { destruct (truthy (field w response "config")) eqn:Hc.
    - erewrite bind_ret by (apply get_prop_run; by apply truthy_not_nullish).
      rewrite Hf by (intros H; apply list_elem_of_In in H; simpl in H;
                     repeat destruct H as [H|H]; done).
      destruct (set_prop_step l "axiosUrl" (field w (field w response "config") "url") w3 _
                  ltac:(rewrite Hh3; apply lookup_insert_eq))
        as (w4 & Hrun4 & Hh4 & Heff4 & _ & Hf4); [done|].
      exists w4. split; [done|]. split.
      { rewrite Hh4, Hh3. simpl. by rewrite insert_insert_eq. }
      split; [congruence|]. intros v k Hk. rewrite Hf4, Hf; [done..|].
      intros ->; apply Hk; apply list_elem_of_In; simpl; tauto.
    - exists w3. done. }
  destruct Hstep4 as (w4 & Hrun4 & Hh4 & Heff4 & Hf4).
  erewrite bind_ret by exact Hrun4.
  erewrite bind_ret by (by apply get_prop_run).
  rewrite Hf4 by (intros H; apply list_elem_of_In in H; simpl in H;
                  repeat destruct H as [H|H]; done).
  match type of Hh4 with _ = <[l := Obj _ ?m]> _ => set (m2 := m) in * end.
  destruct (truthy (field w response "request")) eqn:Hq.
  - erewrite bind_ret by (apply get_prop_run; by apply truthy_not_nullish).
    rewrite Hf4 by (intros H; apply list_elem_of_In in H; simpl in H;
                    repeat destruct H as [H|H]; done).
    destruct (set_prop_step l "axiosMethod" (field w (field w response "request") "method")
                w4 _ ltac:(rewrite Hh4; apply lookup_insert_eq))
      as (w5 & Hrun5 & Hh5 & Heff5 & _ & Hf5); [done|].
    erewrite bind_ret by exact Hrun5.
    erewrite bind_ret by (apply get_prop_run; by apply truthy_not_nullish).
    rewrite Hf5, Hf4 by first [done | intros H; apply list_elem_of_In in H; simpl in H;
                               repeat destruct H as [H|H]; done].
    destruct (set_prop_step l "axiosPath" (field w (field w response "request") "path")
                w5 _ ltac:(rewrite Hh5; apply lookup_insert_eq))
      as (w6 & Hrun6 & Hh6 & Heff6 & _ & Hf6); [done|].
    exists w6. split; [by rewrite Hrun6|]. split; [congruence|].
    rewrite Hh6, Hh5, Hh4. simpl. rewrite !insert_insert_eq. split.
    + by rewrite lookup_insert_eq.
    + intros l' x Hne Hx. by rewrite lookup_insert_ne.
  - exists w4. split; [done|]. split; [done|]. rewrite Hh4. split.
    + by rewrite lookup_insert_eq.
    + intros l' x Hne Hx. by rewrite lookup_insert_ne.
Qed.

(** X4.  [appendErrAxiosData] never throws and returns the [data] object
    it was given.  It writes at most the six keys [axiosStatus],
    [axiosStatusText], [axiosResponseData], [axiosUrl], [axiosMethod] and
    [axiosPath] of [data]; every other key of [data] and every other object
    stay as they were.  Without a [response] (or with a falsy one) [data] is
    unchanged; with one, the status, the status text and the body are
    copied (undefined or not), the URL only when the response has a
    [config], the method and the path only when it has a [request]. *)
Theorem appendErrAxiosData_adds_the_response
    (error : value) (l : loc) (o : object) (w : world) :
  heap w !! l = Some o →
  ∃ w' m,
    appendErrAxiosData error (VRef l) w = (Ret (VRef l), w') ∧
    effects w' = effects w ∧
    heap w' !! l = Some (Obj (proto_of o) m) ∧
    (∀ l' x, l' ≠ l → heap w !! l' = Some x → heap w' !! l' = Some x) ∧
    (∀ k, k ∉ axios_keys → m !! k = props o !! k) ∧
    (truthy (field w error "response") = false → m = props o) ∧
    (truthy (field w error "response") = true →
       let response := field w error "response" in
       let cfg := field w response "config" in
       let request := field w response "request" in
       m !! "axiosStatus" = Some (field w response "status") ∧
       m !! "axiosStatusText" = Some (field w response "statusText") ∧
       m !! "axiosResponseData" = Some (field w response "data") ∧
       m !! "axiosUrl"
       = (if truthy cfg then Some (field w cfg "url") else props o !! "axiosUrl") ∧
       m !! "axiosMethod"
       = (if truthy request then Some (field w request "method")
          else props o !! "axiosMethod") ∧
       m !! "axiosPath"
       = (if truthy request then Some (field w request "path")
          else props o !! "axiosPath")).
Proof.
  intros Ho.
  destruct (appendErrAxiosData_run error l o w Ho) as (w' & Hrun & Heff & Hl & Hother).
  exists w', (axios_fields w error (props o)).
  split; [exact Hrun|]. split; [exact Heff|]. split; [exact Hl|]. split; [exact Hother|].
  unfold axios_fields. split; [|split].
  - intros k Hk.
    assert (Hne : k ≠ "axiosStatus" ∧ k ≠ "axiosStatusText" ∧ k ≠ "axiosResponseData" ∧
                  k ≠ "axiosUrl" ∧ k ≠ "axiosMethod" ∧ k ≠ "axiosPath").
    { repeat split; intros ->; apply Hk; apply list_elem_of_In; simpl; tauto. }
    destruct Hne as (? & ? & ? & ? & ? & ?).
    destruct (truthy (field w error "response")); cbn [negb]; [|done].
    destruct (truthy (field w (field w error "response") "config"));
      destruct (truthy (field w (field w error "response") "request"));
      by rewrite ?lookup_insert_ne by done.
  - by intros ->.
  - intros ->. cbn [negb]. cbv zeta.
    destruct (truthy (field w (field w error "response") "config"));
      destruct (truthy (field w (field w error "response") "request"));
      repeat split; by simplify_map_eq.
Qed.

Lemma appendErrAxiosData_adds_the_response_witness :
  let response := plain {[ "status" := num 404; "statusText" := VStr "Not Found" ]} in
  let data := plain {[ "some" := VStr "data" ]} in
  let w := world_of 1730483000123
             [example_config "console";
              example_error "Request failed with status code 404" {[ "response" := VRef 4 ]};
              data; response] in
  ∃ w' m, appendErrAxiosData (VRef 2) (VRef 3) w = (Ret (VRef 3), w') ∧
          heap w' !! 3%positive = Some (plain m) ∧
          m !! "axiosStatus" = Some (num 404) ∧
          m !! "axiosStatusText" = Some (VStr "Not Found") ∧
          m !! "some" = Some (VStr "data").
Proof.
  intros response data w.
  destruct (appendErrAxiosData_adds_the_response (VRef 2) 3 data w)
    as (w' & m & Hrun & _ & Hl & _ & Hframe & _ & Hresponse); [by vm_compute|].
  destruct Hresponse as (Hstatus & Htext & _); [by vm_compute|].
  exists w', m. split; [exact Hrun|]. split; [exact Hl|].
  split; [rewrite Hstatus; by vm_compute|]. split; [rewrite Htext; by vm_compute|].
  rewrite Hframe; [by vm_compute|evaluate].
Defined.

Lemma for_in_with_object (l : loc) (m : gmap string value) (w : world)
    (pre : string) (v : value) :
  heap w !! l = None → bound w v →
  for_in v (λ k x, set_prop (VRef l) (pre +:+ k) x) (with_object l m w)
  = (Ret tt, with_object l (prefixed pre (own_entries (heap w) v) m) w).
Proof.
  intros Hl Hv. erewrite for_in_set_prop by apply lookup_insert_eq.
  unfold with_object, with_heap, plain, prefixed; simpl.
  rewrite insert_insert_eq, own_entries_insert; [done|done|].
  intros l' ->. exact Hv.
Qed.


Lemma getApiRequestData_run (req etc : value) (w : world) :
  nullish req = false → closed w → bound w req → bound w etc →
  getApiRequestData req etc w
  = (Ret (VRef (fresh (dom (heap w)))),
     with_object (fresh (dom (heap w))) (api_fields w req etc) w).
Proof.
  intros Hn Hw Hreq Hetc. unfold getApiRequestData, api_fields.
  pose proof (fresh_unused w) as Hl. set (l := fresh (dom (heap w))) in *.
  do 4 erewrite bind_ret by (by apply get_prop_run).
  erewrite bind_ret by apply alloc_with_object. fold l.
  erewrite bind_ret by (by apply get_prop_with_object).
  erewrite (bind_ret (if truthy (field w req "auth") then _ else _)).
  2:{ instantiate (1 := with_object l
        (if truthy (field w req "auth")
         then <["userId" := field w (field w req "auth") "id"]> _ else _) w).
      destruct (truthy (field w req "auth")) eqn:Ha; [|reflexivity].
      erewrite bind_ret
        by (apply get_prop_with_object;
            [done|by apply bound_field|by apply truthy_not_nullish]).
      by apply set_prop_with_object. }
  cbv zeta.
  erewrite (bind_ret (if bool_decide _ then _ else _)).
  2:{ instantiate (1 := with_object l
        (if bool_decide (field w req "method" = VStr "POST")
         then prefixed "POST_" (own_entries (heap w) (field w req "body")) _
         else if bool_decide (field w req "method" = VStr "GET")
         then prefixed "GET_" (own_entries (heap w) (field w req "query")) _
         else _) w).
      destruct (bool_decide (field w req "method" = VStr "POST")).
      - erewrite bind_ret by (by apply get_prop_with_object).
        apply for_in_with_object; [done|by apply bound_field].
      - destruct (bool_decide (field w req "method" = VStr "GET")); [|reflexivity].
        erewrite bind_ret by (by apply get_prop_with_object).
        apply for_in_with_object; [done|by apply bound_field]. }
  erewrite (bind_ret (if truthy etc then _ else _)).
  2:{ instantiate (1 := with_object l (prefixed "DATA_" (own_entries (heap w) etc) _) w).
      destruct (truthy etc) eqn:He.
      - by apply for_in_with_object.
      - rewrite (own_entries_falsy _ etc He). reflexivity. }
  reflexivity.
Qed.

Lemma lookup_prefixed_inv (pre : string) (kvs : list (string * value))
    (m : gmap string value) (k : string) (v : value) :
  prefixed pre kvs m !! k = Some v →
  m !! k = Some v ∨ ∃ k', k = pre +:+ k' ∧ k' ∈ kvs.*1.
Proof.
  revert m. induction kvs as [|[k0 v0] kvs IH]; intros m; [by left|].
  unfold prefixed in *. simpl. intros H. apply IH in H as [H|(k' & -> & Hk')].
  - destruct (decide (pre +:+ k0 = k)) as [<-|Hne].
    + right. exists k0. split; [done|]. simpl. left.
    + left. by rewrite lookup_assign_ne in H.
  - right. exists k'. split; [done|]. simpl. by right.
Qed.

(** What the record of [getApiRequestData] holds, key by key. *)
Lemma api_fields_spec (req etc : value) (w : world) :
  let method := field w req "method" in
  let body := own_entries (heap w) (field w req "body") in
  let query := own_entries (heap w) (field w req "query") in
  let extra := own_entries (heap w) etc in
  let record := api_fields w req etc in
  record !! "method" = Some method ∧
  record !! "baseUrl" = Some (field w req "__BASE_URL") ∧
  record !! "originalUrl" = Some (field w req "originalUrl") ∧
  record !! "ip" = Some (field w req "ip") ∧
  record !! "userId"
  = (if truthy (field w req "auth") then Some (field w (field w req "auth") "id")
     else None) ∧
  (∀ k v, (k, v) ∈ extra → record !! ("DATA_" +:+ k) = Some v) ∧
  (method = VStr "POST" → ∀ k v, (k, v) ∈ body → record !! ("POST_" +:+ k) = Some v) ∧
  (method = VStr "GET" → ∀ k v, (k, v) ∈ query → record !! ("GET_" +:+ k) = Some v) ∧
  (∀ k, is_Some (record !! k) →
        k ∈ api_names ∨
        (∃ k', k = "DATA_" +:+ k' ∧ k' ∈ extra.*1) ∨
        (method = VStr "POST" ∧ ∃ k', k = "POST_" +:+ k' ∧ k' ∈ body.*1) ∨
        (method = VStr "GET" ∧ ∃ k', k = "GET_" +:+ k' ∧ k' ∈ query.*1)).
Proof.
  intros method body query extra record. unfold record, api_fields.
  fold method body query extra.
  set (m0 := <["method" := method]> _).
  set (m1 := if truthy (field w req "auth") then _ else m0).
  set (m2 := if bool_decide (method = VStr "POST") then _ else _).
  assert (H2 : ∀ k, (∀ k', k ≠ "POST_" +:+ k') → (∀ k', k ≠ "GET_" +:+ k') →
                    m2 !! k = m1 !! k).
  { intros k HP HG. unfold m2. repeat case_bool_decide; try done;
      apply lookup_prefixed_other; intros k' _ Heq; [by destruct (HP k')|by destruct (HG k')]. }
  assert (H3 : ∀ k, (∀ k', k ≠ "DATA_" +:+ k') →
                    prefixed "DATA_" extra m2 !! k = m2 !! k).
  { intros k HD. apply lookup_prefixed_other. intros k' _ Heq. by destruct (HD k'). }
  assert (Hfixed : ∀ k, k ∈ api_names → prefixed "DATA_" extra m2 !! k = m1 !! k).
  { intros k Hk. apply list_elem_of_In in Hk. simpl in Hk.
    rewrite H3, H2; [done|..]; intros k' ->; destruct_or!; done. }
  repeat (split; [rewrite Hfixed by (apply list_elem_of_In; simpl; tauto);
                  unfold m1, m0; by destruct (truthy _); simplify_map_eq|]).
  split.
  { intros k v Hkv. by apply lookup_prefixed_in; [apply NoDup_own_entries|..]. }
  split.
  { intros Hm k v Hkv. rewrite H3 by done. unfold m2.
    rewrite bool_decide_eq_true_2 by done.
    by apply lookup_prefixed_in; [apply NoDup_own_entries|..]. }
  split.
  { intros Hm k v Hkv. rewrite H3 by done. unfold m2.
    rewrite bool_decide_eq_false_2 by (rewrite Hm; done).
    rewrite bool_decide_eq_true_2 by done.
    by apply lookup_prefixed_in; [apply NoDup_own_entries|..]. }
  intros k [v Hk]. apply lookup_prefixed_inv in Hk as [Hk|Hk]; [|by right; left].
  unfold m2 in Hk. case_bool_decide as HP.
  { apply lookup_prefixed_inv in Hk as [Hk|Hk]; [|by right; right; left].
    left. unfold m1, m0 in Hk. apply list_elem_of_In. simpl.
    destruct (truthy _); repeat (apply lookup_insert_Some in Hk as [[<- _]|[_ Hk]]; [tauto|]);
      done. }
  case_bool_decide as HG.
  { apply lookup_prefixed_inv in Hk as [Hk|Hk]; [|by right; right; right].
    left. unfold m1, m0 in Hk. apply list_elem_of_In. simpl.
    destruct (truthy _); repeat (apply lookup_insert_Some in Hk as [[<- _]|[_ Hk]]; [tauto|]);
      done. }
  left. unfold m1, m0 in Hk. apply list_elem_of_In. simpl.
  destruct (truthy _); repeat (apply lookup_insert_Some in Hk as [[<- _]|[_ Hk]]; [tauto|]);
    done.
Qed.

(** X5.  [getApiRequestData] returns a new object and changes no other.
    It holds [method], [baseUrl] (read from [__BASE_URL]), [originalUrl]
    and [ip] of the request, and [userId] exactly when [req.auth] is truthy;
    the keys of [etc] under [DATA_], the keys of the body under [POST_] when
    the method is the string [POST], the keys of the query under [GET_]
    when it is [GET], and nothing else.  Whatever the keys of the body, the
    query and [etc] are, they replace none of the five named fields and do
    not replace one another. *)
Theorem getApiRequestData_namespaces_its_sources (req etc : value) (w : world) :
  nullish req = false → closed w → bound w req → bound w etc →
  let method := field w req "method" in
  let body := own_entries (heap w) (field w req "body") in
  let query := own_entries (heap w) (field w req "query") in
  let extra := own_entries (heap w) etc in
  ∃ l w' record,
    getApiRequestData req etc w = (Ret (VRef l), w') ∧
    heap w !! l = None ∧
    heap w' = <[l := plain record]> (heap w) ∧
    effects w' = effects w ∧
    record !! "method" = Some method ∧
    record !! "baseUrl" = Some (field w req "__BASE_URL") ∧
    record !! "originalUrl" = Some (field w req "originalUrl") ∧
    record !! "ip" = Some (field w req "ip") ∧
    record !! "userId"
    = (if truthy (field w req "auth") then Some (field w (field w req "auth") "id")
       else None) ∧
    (∀ k v, (k, v) ∈ extra → record !! ("DATA_" +:+ k) = Some v) ∧
    (method = VStr "POST" → ∀ k v, (k, v) ∈ body → record !! ("POST_" +:+ k) = Some v) ∧
    (method = VStr "GET" → ∀ k v, (k, v) ∈ query → record !! ("GET_" +:+ k) = Some v) ∧
    (∀ k, is_Some (record !! k) →
          k ∈ api_names ∨
          (∃ k', k = "DATA_" +:+ k' ∧ k' ∈ extra.*1) ∨
          (method = VStr "POST" ∧ ∃ k', k = "POST_" +:+ k' ∧ k' ∈ body.*1) ∨
          (method = VStr "GET" ∧ ∃ k', k = "GET_" +:+ k' ∧ k' ∈ query.*1)).
Proof.
  intros Hn Hw Hreq Hetc method body query extra.
  eexists (fresh (dom (heap w))), _, (api_fields w req etc).
  split; [by apply getApiRequestData_run|].
  split; [apply fresh_unused|]. split; [done|]. split; [done|].
  apply api_fields_spec.
Qed.

Lemma getApiRequestData_namespaces_its_sources_witness :
  let req := plain {[ "method" := VStr "POST"; "originalUrl" := VStr "/orders";
                      "ip" := VStr "10.0.0.7"; "body" := VRef 3 ]} in
  let w := world_of 1730483000123
             [example_config "console"; req; plain {[ "item" := VStr "book" ]};
              plain {[ "requestId" := VStr "r-1" ]}] in
  ∃ l w' record,
    getApiRequestData (VRef 2) (VRef 4) w = (Ret (VRef l), w') ∧
    heap w' !! l = Some (plain record) ∧
    record !! "ip" = Some (VStr "10.0.0.7") ∧
    record !! "POST_item" = Some (VStr "book") ∧
    record !! "DATA_requestId" = Some (VStr "r-1").
Proof.
  intros req w.
  destruct (getApiRequestData_namespaces_its_sources (VRef 2) (VRef 4) w)
    as (l & w' & record & Hrun & _ & Hheap & _ & _ & _ & _ & Hip & _ & Hdata & Hpost & _);
    [done|evaluate|evaluate|evaluate|].
  exists l, w', record. split; [exact Hrun|].
  split; [rewrite Hheap; apply lookup_insert_eq|].
  split; [rewrite Hip; by vm_compute|].
  split; [apply Hpost; [by vm_compute|vm_compute; left]|].
  apply Hdata. vm_compute. left.
Defined.

Lemma getApiRequestData_fails (req etc : value) (w : world) :
  nullish req = true → fails (getApiRequestData req etc) w.
Proof. intros Hn. apply fails_bind_l. by apply fails_get_prop. Qed.

Lemma getSocketRequestData_fails (socket req etc : value) (w : world) :
  nullish socket = true ∨
  nullish (field w socket "request") = true ∨
  nullish (field w (field w socket "request") "headers") = true →
  fails (getSocketRequestData socket req etc) w.
Proof.
  intros H. unfold getSocketRequestData.
  destruct (nullish socket) eqn:Hs; [apply fails_bind_l; by apply fails_get_prop|].
  destruct H as [H|H]; [done|].
  eapply fails_bind_r; [by apply get_prop_run|].
  eapply fails_bind_r; [by apply get_prop_run|].
  destruct (nullish (field w socket "request")) eqn:Hr;
    [apply fails_bind_l; by apply fails_get_prop|].
  destruct H as [H|H]; [done|].
  eapply fails_bind_r; [by apply get_prop_run|].
  apply fails_bind_l. by apply fails_get_prop.
Qed.

(** The common beginning of the reporters that describe a request. *)
Lemma request_reporter_fails (key : string) (k : string → value → value → M unit)
    (error data : value) (w : world) :
  bound w error → nullish (field w error key) = true →
  fails (data ← default_arg data (alloc (plain ∅));
         short ← call_toString error;
         stack ← get_prop error "stack";
         request ← get_prop error key;
         etc ← get_prop error "etc";
         etc ← spread2 etc data;
         context ← getApiRequestData request etc;
         k short stack context) w.
Proof.
  intros Hb Hn. set (D := dom (heap w)).
  apply (fails_step D _ _ any w); [silence| |done|apply stable_refl|].
  { apply keeps_default_arg; [eapply keeps_weaken; [apply keeps_alloc|done]|done]. }
  intros data' w1 _ Hs1.
  apply (fails_step D _ _ any w);
    [apply silent_call_toString|apply keeps_call_toString|done|done|].
  intros short w2 _ Hs2.
  apply (fails_step D _ _ any w);
    [apply silent_get_prop|apply keeps_get_prop|done|done|].
  intros stack w3 _ Hs3.
  apply (fails_step D _ _ any w);
    [apply silent_get_prop|apply keeps_get_prop|done|done|].
  intros request w4 Hrun4 Hs4.
  apply get_prop_inv in Hrun4 as (-> & -> & He).
  rewrite (stable_field w w3) in * by done.
  apply (fails_step D _ _ any w);
    [apply silent_get_prop|apply keeps_get_prop|done|done|].
  intros etc w5 _ Hs5.
  apply (fails_step D _ _ (outside D) w);
    [apply silent_spread2|apply keeps_spread2|done|done|].
  intros etc' w6 _ Hs6.
  apply fails_bind_l. by apply getApiRequestData_fails.
Qed.

(** X6.  The reporters that describe a request throw, before anything is
    printed or sent, when the request is missing: [reportApiError] and
    [reportUnexpectedApiError] when [error.request] is [null] or
    [undefined], [reportAxiosError] when [error.mainRequest] is (an error
    rejected by axios has a [request] and no [mainRequest]),
    [reportSocketError] when [error.socket] is, and [reportApiInfo] and
    [reportSocketInfo] when their [req] or [socket] argument is. *)
Theorem request_reporters_throw_without_a_request
    (lg : logger) (error data : value) (w : world) :
  bound w error →
  (nullish (field w error "request") = true →
     fails (reportApiError lg error data) w ∧
     fails (reportUnexpectedApiError lg error data) w) ∧
  (nullish (field w error "mainRequest") = true →
     fails (reportAxiosError lg error data) w) ∧
  (nullish (field w error "socket") = true →
     fails (reportSocketError lg error data) w) ∧
  (∀ shortMessage fullMessage req etc,
     nullish req = true → fails (reportApiInfo lg shortMessage fullMessage req etc) w) ∧
  (∀ shortMessage fullMessage socket req etc,
     nullish socket = true →
     fails (reportSocketInfo lg shortMessage fullMessage socket req etc) w).
Proof.
  intros Hb. split; [|split; [|split; [|split]]].
  - intros Hn. split.
    + exact (request_reporter_fails "request"
        (λ short stack context,
           context ← appendErrLocData error context;
           level ← get_prop error "level";
           _ ← report lg (VStr short) stack context level;
           mret tt) error data w Hb Hn).
    + exact (request_reporter_fails "request"
        (λ short stack context,
           context ← appendErrLocData error context;
           _ ← report lg (VStr short) stack context (num ALERT);
           mret tt) error data w Hb Hn).
  - intros Hn.
    exact (request_reporter_fails "mainRequest"
      (λ short stack context,
         context ← appendErrAxiosData error context;
         _ ← report lg (VStr short) stack context (num ERROR);
         mret tt) error data w Hb Hn).
  - intros Hn. unfold reportSocketError. set (D := dom (heap w)).
    apply (fails_step D _ _ any w); [silence| |done|apply stable_refl|].
    { apply keeps_default_arg; [eapply keeps_weaken; [apply keeps_alloc|done]|done]. }
    intros data' w1 _ Hs1.
    apply (fails_step D _ _ any w);
      [apply silent_call_toString|apply keeps_call_toString|done|done|].
    intros short w2 _ Hs2.
    apply (fails_step D _ _ any w);
      [apply silent_get_prop|apply keeps_get_prop|done|done|].
    intros stack w3 _ Hs3.
    apply (fails_step D _ _ any w);
      [apply silent_get_prop|apply keeps_get_prop|done|done|].
    intros socket w4 Hrun4 Hs4.
    apply get_prop_inv in Hrun4 as (-> & -> & He).
    rewrite (stable_field w w3) in * by done.
    apply (fails_step D _ _ any w);
      [apply silent_get_prop|apply keeps_get_prop|done|done|].
    intros request w5 _ Hs5.
    apply (fails_step D _ _ any w);
      [apply silent_get_prop|apply keeps_get_prop|done|done|].
    intros etc w6 _ Hs6.
    apply (fails_step D _ _ (outside D) w);
      [apply silent_spread2|apply keeps_spread2|done|done|].
    intros etc' w7 _ Hs7.
    apply fails_bind_l. apply getSocketRequestData_fails. by left.
  - intros shortMessage fullMessage req etc Hn. unfold reportApiInfo.
    apply fails_bind; [apply silent_to_string|]. intros short w1 _.
    apply fails_bind_l. by apply getApiRequestData_fails.
  - intros shortMessage fullMessage socket req etc Hn. unfold reportSocketInfo.
    apply fails_bind; [apply silent_to_string|]. intros short w1 _.
    apply fails_bind_l. apply getSocketRequestData_fails. by left.
Qed.

Lemma request_reporters_throw_without_a_request_witness :
  let error := example_error "Network Error"
                 {[ "errorType" := VStr "axios"; "request" := VRef 3 ]} in
  let w := world_of 1730483000123 [example_config "console"; error; plain ∅] in
  fails (reportAxiosError (Instance (VRef 1) ViaConsole) (VRef 2) VUndef) w.
Proof.
  intros error w.
  destruct (request_reporters_throw_without_a_request
              (Instance (VRef 1) ViaConsole) (VRef 2) VUndef w) as (_ & Haxios & _);
    [evaluate|].
  apply Haxios. by vm_compute.
Defined.

Lemma getSocketRequestData_run (socket req etc : value) (w : world) :
  nullish socket = false →
  nullish (field w socket "request") = false →
  nullish (field w (field w socket "request") "headers") = false →
  closed w → bound w socket → bound w req → bound w etc →
  getSocketRequestData socket req etc w
  = (Ret (VRef (fresh (dom (heap w)))),
     with_object (fresh (dom (heap w))) (socket_fields w socket req etc) w).
Proof.
  intros Hs Hr Hh Hw Hsocket Hreq Hetc. unfold getSocketRequestData, socket_fields.
  pose proof (fresh_unused w) as Hl. set (l := fresh (dom (heap w))) in *.
  do 4 erewrite bind_ret by (by apply get_prop_run).
  erewrite (bind_ret (if truthy _ then _ else _)).
  2:{ instantiate (1 := w). instantiate (1 := or_else
        (field w (field w (field w socket "request") "headers") "x-forwarded-for")
        (field w socket "remoteAddress")).
      unfold or_else. destruct (truthy _); [done|]. by apply get_prop_run. }
  erewrite bind_ret by apply alloc_with_object. fold l.
  erewrite bind_ret by (by apply get_prop_with_object).
  erewrite (bind_ret (if truthy (field w socket "authToken") then _ else _)).
  2:{ instantiate (1 := with_object l
        (if truthy (field w socket "authToken") &&
            truthy (field w (field w socket "authToken") "id")
         then <["userId" := field w (field w socket "authToken") "id"]> _ else _) w).
      destruct (truthy (field w socket "authToken")) eqn:Ha; [|reflexivity].
      erewrite bind_ret
        by (apply get_prop_with_object;
            [done|by apply bound_field|by apply truthy_not_nullish]).
      cbn [andb].
      destruct (truthy (field w (field w socket "authToken") "id")); [|reflexivity].
      by apply set_prop_with_object. }
  cbv zeta.
  erewrite (bind_ret (if truthy req then _ else _)).
  2:{ instantiate (1 := with_object l (prefixed "REQ_" (own_entries (heap w) req) _) w).
      destruct (truthy req) eqn:He.
      - by apply for_in_with_object.
      - rewrite (own_entries_falsy _ req He). reflexivity. }
  erewrite (bind_ret (if truthy etc then _ else _)).
  2:{ instantiate (1 := with_object l (prefixed "DATA_" (own_entries (heap w) etc) _) w).
      destruct (truthy etc) eqn:He.
      - by apply for_in_with_object.
      - rewrite (own_entries_falsy _ etc He). reflexivity. }
  reflexivity.
Qed.

(** X7.  [getSocketRequestData] returns a new object and changes no
    other.  Its [ip] is the header [x-forwarded-for] when that is truthy and
    [socket.remoteAddress] otherwise; [userId] is there exactly when
    [socket.authToken.id] is truthy; the keys of [req] come under [REQ_] and
    the keys of [etc] under [DATA_], and none of them replaces [socketId],
    [ip] or [userId]. *)
Theorem getSocketRequestData_namespaces_its_sources
    (socket req etc : value) (w : world) :
  nullish socket = false →
  nullish (field w socket "request") = false →
  nullish (field w (field w socket "request") "headers") = false →
  closed w → bound w socket → bound w req → bound w etc →
  let forwarded :=
    field w (field w (field w socket "request") "headers") "x-forwarded-for" in
  let authToken := field w socket "authToken" in
  ∃ l w' record,
    getSocketRequestData socket req etc w = (Ret (VRef l), w') ∧
    heap w !! l = None ∧
    heap w' = <[l := plain record]> (heap w) ∧
    effects w' = effects w ∧
    record !! "socketId" = Some (field w socket "id") ∧
    record !! "ip"
    = Some (if truthy forwarded then forwarded else field w socket "remoteAddress") ∧
    record !! "userId"
    = (if truthy authToken && truthy (field w authToken "id")
       then Some (field w authToken "id") else None) ∧
    (∀ k v, (k, v) ∈ own_entries (heap w) req → record !! ("REQ_" +:+ k) = Some v) ∧
    (∀ k v, (k, v) ∈ own_entries (heap w) etc → record !! ("DATA_" +:+ k) = Some v) ∧
    (∀ k, is_Some (record !! k) →
          k ∈ socket_names ∨
          (∃ k', k = "REQ_" +:+ k' ∧ k' ∈ (own_entries (heap w) req).*1) ∨
          (∃ k', k = "DATA_" +:+ k' ∧ k' ∈ (own_entries (heap w) etc).*1)).
Proof.
  intros Hs Hr Hh Hw Hsocket Hreq Hetc forwarded authToken.
  eexists (fresh (dom (heap w))), _, (socket_fields w socket req etc).
  split; [by apply getSocketRequestData_run|].
  split; [apply fresh_unused|]. split; [done|]. split; [done|].
  unfold socket_fields. fold forwarded authToken.
  set (m0 := <["socketId" := _]> _).
  set (m1 := if truthy authToken && _ then _ else m0).
  assert (Hfixed : ∀ k, k ∈ socket_names →
    prefixed "DATA_" (own_entries (heap w) etc)
      (prefixed "REQ_" (own_entries (heap w) req) m1) !! k = m1 !! k).
  { intros k Hk. apply list_elem_of_In in Hk. simpl in Hk.
    rewrite !lookup_prefixed_other; [done|..]; intros k' _ <-; destruct_or!; done. }
  repeat (split; [rewrite Hfixed by (apply list_elem_of_In; simpl; tauto);
                  unfold m1, m0, or_else; by destruct (_ && _); simplify_map_eq|]).
  split.
  { intros k v Hkv. rewrite lookup_prefixed_other by (intros k' _ Heq; discriminate).
    by apply lookup_prefixed_in; [apply NoDup_own_entries|..]. }
  split.
  { intros k v Hkv. by apply lookup_prefixed_in; [apply NoDup_own_entries|..]. }
  intros k [v Hk]. apply lookup_prefixed_inv in Hk as [Hk|Hk]; [|by right; right].
  apply lookup_prefixed_inv in Hk as [Hk|Hk]; [|by right; left].
  left. unfold m1, m0 in Hk. apply list_elem_of_In. simpl.
  destruct (_ && _); repeat (apply lookup_insert_Some in Hk as [[<- _]|[_ Hk]]; [tauto|]);
    done.
Qed.

Lemma getSocketRequestData_namespaces_its_sources_witness :
  let socket := plain {[ "id" := VStr "s-1"; "request" := VRef 3;
                         "remoteAddress" := VStr "10.0.0.7" ]} in
  let w := world_of 1730483000123
             [example_config "console"; socket; plain {[ "headers" := VRef 4 ]};
              plain {[ "x-forwarded-for" := VStr "203.0.113.9" ]};
              plain {[ "event" := VStr "join" ]}] in
  ∃ l w' record,
    getSocketRequestData (VRef 2) (VRef 5) VUndef w = (Ret (VRef l), w') ∧
    heap w' !! l = Some (plain record) ∧
    record !! "ip" = Some (VStr "203.0.113.9") ∧
    record !! "REQ_event" = Some (VStr "join") ∧
    record !! "userId" = None.
Proof.
  intros socket w.
  destruct (getSocketRequestData_namespaces_its_sources (VRef 2) (VRef 5) VUndef w)
    as (l & w' & record & Hrun & _ & Hheap & _ & _ & Hip & Huser & Hreq & _);
    [done|by vm_compute|by vm_compute|evaluate|evaluate|evaluate|done|].
  exists l, w', record. split; [exact Hrun|].
  split; [rewrite Hheap; apply lookup_insert_eq|].
  split; [rewrite Hip; by vm_compute|].
  split; [apply Hreq; vm_compute; left|].
  rewrite Huser. by vm_compute.
Defined.

(** What [report] builds and hands to the transport. *)
Lemma report_sends (lg : logger) (shortMessage fullMessage data level : value) (w : world) :
  nullish (config lg) = false → bound w (config lg) → bound w data →
  let level' := if decide (level = VUndef) then num ALERT else level in
  ∃ l data' w1,
    report lg shortMessage fullMessage data level w
    = (Ret (match sender_of lg with
            | ViaConsole => Settled Resolved
            | _ => Waiting (Call (VRef l) data')
            end), w1) ∧
    heap w !! l = None ∧
    heap w1 !! l
    = Some (plain (prefixed "_" (own_entries (heap w) data)
                     (fixed_fields (env w) shortMessage fullMessage level'
                        (field w (config lg) "env") (field w (config lg) "appName")))) ∧
    (∀ l' o, heap w !! l' = Some o → heap w1 !! l' = Some o) ∧
    env w1 = env w ∧
    effects w1
    = effects w ++
      [match sender_of lg with
       | ViaConsole =>
           Print (if bool_decide (level' = num INFORMATIONAL) then Info else Error) [VRef l]
       | ViaQueue _ => QueueSend (VRef l)
       | ViaHttp options =>
           HttpPost (field w (config lg) "httpUrl") (VRef l) (timeout options) (auth options)
       end].
Proof.
  intros Hc Hbc Hd level'. unfold report.
  assert (Hdata : ∃ data' w0,
    default_arg data (alloc (plain ∅)) w = (Ret data', w0) ∧ bound w0 data' ∧
    own_entries (heap w0) data' = own_entries (heap w) data ∧
    (∀ l' o, heap w !! l' = Some o → heap w0 !! l' = Some o) ∧
    effects w0 = effects w ∧ env w0 = env w).
  { destruct (decide (data = VUndef)) as [->|Hne].
    - eexists _, _. split; [apply alloc_run|]. simpl.
      rewrite lookup_insert_eq. split; [by eexists|]. split; [done|]. split; [|done].
      intros l' o Ho. rewrite lookup_insert_ne; [done|].
      intros <-. by rewrite fresh_unused in Ho.
    - exists data, w. by destruct data. }
  destruct Hdata as (data' & w0 & Hrun0 & Hb0 & Hentries & Hold0 & Heff0 & Henv0).
  erewrite bind_ret by exact Hrun0.
  erewrite bind_ret by apply default_arg_mret. fold level'.
  destruct (getLogObject_run shortMessage fullMessage data' level' (config lg) w0 Hc Hb0)
    as (l & wg & Hrung & Hl & Holdg & Heffg & Henvg).
  erewrite bind_ret by exact Hrung. cbv zeta.
  match type of Hrung with _ = (_, ?w') => set (w2 := w') in * end.
  assert (Hfield : ∀ k, field w2 (config lg) k = field w (config lg) k).
  { intros k. destruct (config lg) as [| | | | |lc]; try done.
    destruct Hbc as [oc Hoc]. pose proof (Holdg _ _ (Hold0 _ _ Hoc)) as Hoc'.
    simpl. rewrite lookup_insert_ne by congruence. by rewrite Hoc', Hoc. }
  assert (Hfield0 : ∀ k, field w0 (config lg) k = field w (config lg) k).
  { intros k. destruct (config lg) as [| | | | |lc]; try done.
    destruct Hbc as [oc Hoc]. simpl. by rewrite (Hold0 _ _ Hoc), Hoc. }
  assert (Hlevel : field w2 (VRef l) "level" = level').
  { simpl. rewrite lookup_insert_eq. simpl.
    by rewrite (proj2 (proj2 (lookup_fixed_fields_short _ _ _ _ _ _ _))). }
  unfold try_catch, sendLog.
  assert (Hsent : ∃ w3,
    (d ← match sender_of lg with
         | ViaHttp options =>
             httpUrl ← get_prop (config lg) "httpUrl";
             _ ← emit (HttpPost httpUrl (VRef l) (timeout options) (auth options));
             mret Promised
         | ViaQueue _ => _ ← emit (QueueSend (VRef l)); mret Promised
         | ViaConsole =>
             level ← get_prop (VRef l) "level";
             _ ← emit (Print (if bool_decide (level = num INFORMATIONAL)
                              then Info else Error) [VRef l]);
             mret Returned
         end;
     mret match d with Returned => Settled Resolved
          | Promised => Waiting (Call (VRef l) data') end) w2
    = (Ret (match sender_of lg with
            | ViaConsole => Settled Resolved
            | _ => Waiting (Call (VRef l) data')
            end), w3) ∧
    heap w3 = heap w2 ∧ env w3 = env w2 ∧
    effects w3
    = effects w2 ++
      [match sender_of lg with
       | ViaConsole =>
           Print (if bool_decide (level' = num INFORMATIONAL) then Info else Error) [VRef l]
       | ViaQueue _ => QueueSend (VRef l)
       | ViaHttp options =>
           HttpPost (field w (config lg) "httpUrl") (VRef l) (timeout options) (auth options)
       end]).
  { destruct (sender_of lg) as [options|mq|].
    - erewrite bind_ret by (erewrite bind_ret by (by apply get_prop_run);
                            erewrite bind_ret by reflexivity; reflexivity).
      rewrite Hfield. by eexists.
    - erewrite bind_ret by (erewrite bind_ret by reflexivity; reflexivity).
      by eexists.
    - erewrite bind_ret by (erewrite bind_ret by (by apply get_prop_run);
                            erewrite bind_ret by reflexivity; reflexivity).
      rewrite Hlevel. by eexists. }
  destruct Hsent as (w3 & Hrun3 & Hh3 & Henv3 & Heff3).
  exists l, data', w3. rewrite Hrun3.
  split; [reflexivity|]. split.
  { destruct (heap w !! l) as [o|] eqn:Ho; [|done].
    apply Hold0, Holdg in Ho. congruence. }
  split.
  { rewrite Hh3. simpl. rewrite lookup_insert_eq.
    by rewrite Hentries, Henv0, !Hfield0. }
  split.
  { intros l' o Ho. rewrite Hh3. simpl. apply Hold0, Holdg in Ho.
    rewrite lookup_insert_ne; [done|]. congruence. }
  split; [rewrite Henv3; simpl; congruence|].
  rewrite Heff3. simpl. by rewrite Heffg, Heff0.
Qed.

Lemma constructor_run (l : loc) (o : object) (s : string) (w : world) :
  heap w !! l = Some o →
  to_string (field w (VRef l) "transport") w = (Ret s, w) →
  let t := toLowerCase s in
  let name := if bool_decide (t ∈ transports) then t else "console" in
  constructor (VRef l) w
  = (Ret (Instance (VRef l) (sender_for w (VRef l) name)),
     with_heap (<[l := Obj (proto_of o) (<["transport" := VStr name]> (props o))]> (heap w))
       (if bool_decide (t ∈ transports) then w
        else with_effect (Print Warn [VStr (invalid_transport t)]) w)).
Proof.
  intros Ho Hs t name. unfold constructor.
  erewrite bind_ret by (by apply get_prop_run).
  erewrite bind_ret by exact Hs.
  destruct (set_prop_step l "transport" (VStr t) w o Ho) as (w1 & Hrun1 & Hh1 & Heff1 & Henv1 & Hf1);
    [done|].
  erewrite bind_ret by exact Hrun1.
  assert (Ht1 : field w1 (VRef l) "transport" = VStr t).
  { simpl. rewrite Hh1, lookup_insert_eq. simpl. by rewrite lookup_insert_eq. }
  erewrite bind_ret by (by apply get_prop_run). rewrite Ht1, includes_transports.
  assert (Hfinish : ∀ w2 : world,
    field w2 (VRef l) "transport" = VStr name →
    (∀ k, k ≠ "transport" → field w2 (VRef l) k = field w (VRef l) k) →
    (t ← get_prop (VRef l) "transport";
     if bool_decide (t = VStr "http") then
       httpTimeout ← get_prop (VRef l) "httpTimeout";
       username ← get_prop (VRef l) "httpAuthUsername";
       password ← get_prop (VRef l) "httpAuthPassword";
       mret (Instance (VRef l)
               (ViaHttp (HttpOptions (or_else httpTimeout (num 2000))
                           (if truthy username && truthy password
                            then Some (username, password) else None))))
     else if bool_decide (t = VStr "amqp") then
       amqpHost ← get_prop (VRef l) "amqpHost";
       amqpPort ← get_prop (VRef l) "amqpPort";
       amqpUser ← get_prop (VRef l) "amqpUser";
       amqpPassword ← get_prop (VRef l) "amqpPassword";
       amqpQueue ← get_prop (VRef l) "amqpQueue";
       amqpRetryDelay ← get_prop (VRef l) "amqpRetryDelay";
       mret (Instance (VRef l)
               (ViaQueue (RabbitMQ.constructor
                  (RabbitMQ.Options
                     (or_else amqpHost (VStr "127.0.0.1"))
                     (or_else amqpPort (num 5672))
                     (or_else amqpUser (VStr "guest"))
                     (or_else amqpPassword (VStr "guest"))
                     (or_else amqpQueue (VStr "default_queue"))
                     (or_else amqpRetryDelay (num 1000))))))
     else mret (Instance (VRef l) ViaConsole)) w2
    = (Ret (Instance (VRef l) (sender_for w (VRef l) name)), w2)).
  { intros w2 Ht2 Hf2. erewrite bind_ret by (by apply get_prop_run). rewrite Ht2.
    unfold sender_for.
    destruct (decide (name = "http")) as [->|Hhttp].
    { rewrite !bool_decide_eq_true_2 by done.
      repeat (erewrite bind_ret by (by apply get_prop_run)).
      by rewrite !Hf2 by done. }
    rewrite (bool_decide_eq_false_2 (VStr name = VStr "http")) by congruence.
    rewrite (bool_decide_eq_false_2 (name = "http")) by done.
    destruct (decide (name = "amqp")) as [->|Hamqp].
    { rewrite !bool_decide_eq_true_2 by done.
      repeat (erewrite bind_ret by (by apply get_prop_run)).
      by rewrite !Hf2 by done. }
    rewrite (bool_decide_eq_false_2 (VStr name = VStr "amqp")) by congruence.
    by rewrite (bool_decide_eq_false_2 (name = "amqp")) by done. }
  destruct (decide (t ∈ transports)) as [Hin|Hout].
  - assert (Hname : name = t) by (unfold name; by rewrite bool_decide_eq_true_2).
    rewrite !bool_decide_eq_true_2 by done. cbn [negb].
    erewrite bind_ret by reflexivity.
    rewrite Hfinish; [|by rewrite Hname|intros k Hk; by apply Hf1].
    rewrite Hname. unfold with_heap. by rewrite <- Hh1, <- Heff1, <- Henv1; destruct w1.
  - assert (Hname : name = "console") by (unfold name; by rewrite bool_decide_eq_false_2).
    rewrite !bool_decide_eq_false_2 by done. cbn [negb].
    erewrite bind_ret.
    2:{ erewrite bind_ret by (by apply get_prop_run). rewrite Ht1.
        erewrite bind_ret by apply to_string_str.
        erewrite bind_ret by reflexivity.
        apply set_prop_run; [|done]. simpl. rewrite Hh1. apply lookup_insert_eq. }
    rewrite Hfinish.
    + rewrite Hname. unfold with_heap, with_effect; simpl.
      by rewrite Hh1, !insert_insert_eq, Heff1, Henv1.
    + rewrite Hname. simpl. rewrite lookup_insert_eq. simpl. by rewrite lookup_insert_eq.
    + intros k Hk. rewrite <- Hf1 by done.
      apply (field_set (with_effect _ w1)); [|done].
      simpl. rewrite Hh1. apply lookup_insert_eq.
Qed.

Lemma transports_toLowerCase (c : string) : c ∈ transports → toLowerCase c = c.
Proof.
  intros Hc. apply list_elem_of_In in Hc. simpl in Hc.
  by destruct Hc as [<-|[<-|[<-|[]]]].
Qed.

Lemma transport_of_sender_for (w : world) (config : value) (c : string) :
  c ∈ transports → transport_of (Instance config (sender_for w config c)) = c.
Proof.
  intros Hc. apply list_elem_of_In in Hc. simpl in Hc.
  by destruct Hc as [<-|[<-|[<-|[]]]].
Qed.

Lemma sender_for_ext (w w' : world) (config : value) (c : string) :
  (∀ k, k ≠ "transport" → field w' config k = field w config k) →
  sender_for w' config c = sender_for w config c.
Proof. intros H. unfold sender_for. by rewrite !H by done. Qed.

(** X8.  The constructor writes into the caller's configuration object:
    after it, [config.transport] holds the name of the transport in use, and
    nothing else has changed in the heap.  Hence a second logger built from
    the same object uses the same transport and prints nothing, also when
    the first construction replaced an invalid name and warned. *)
Theorem constructor_rewrites_only_the_transport
    (l : loc) (o : object) (s : string) (w : world) :
  heap w !! l = Some o →
  to_string (field w (VRef l) "transport") w = (Ret s, w) →
  ∃ lg w',
    constructor (VRef l) w = (Ret lg, w') ∧
    heap w'
    = <[l := Obj (proto_of o) (<["transport" := VStr (transport_of lg)]> (props o))]>
        (heap w) ∧
    env w' = env w ∧
    ∃ lg2 w'',
      constructor (VRef l) w' = (Ret lg2, w'') ∧
      sender_of lg2 = sender_of lg ∧ heap w'' = heap w' ∧ effects w'' = effects w'.
Proof.
  intros Ho Hs. pose proof (constructor_run l o s w Ho Hs) as Hrun. cbv zeta in Hrun.
  set (t := toLowerCase s) in *.
  set (name := if bool_decide (t ∈ transports) then t else "console") in *.
  assert (Hname : name ∈ transports).
  { unfold name. case_bool_decide; [done|]. apply list_elem_of_In. simpl. tauto. }
  eexists _, _. split; [exact Hrun|]. simpl.
  rewrite transport_of_sender_for by done. split; [done|].
  split; [by destruct (bool_decide _)|].
  match type of Hrun with _ = (_, ?w1) => set (w' := w1) in * end.
  assert (Ho' : heap w' !! l = Some (Obj (proto_of o) (<["transport" := VStr name]> (props o))))
    by apply lookup_insert_eq.
  assert (Hs' : to_string (field w' (VRef l) "transport") w' = (Ret name, w')).
  { simpl. rewrite lookup_insert_eq. simpl. by rewrite lookup_insert_eq. }
  pose proof (constructor_run l _ name w' Ho' Hs') as Hrun'. cbv zeta in Hrun'.
  rewrite transports_toLowerCase in Hrun' by done.
  rewrite !bool_decide_eq_true_2 in Hrun' by done.
  eexists _, _. split; [exact Hrun'|]. simpl.
  split; [|split; [|done]].
  - apply sender_for_ext. intros k Hk.
    assert (Hw' : w' = with_heap (<[l := Obj (proto_of o) (<["transport" := VStr name]> (props o))]>
                                   (heap (if bool_decide (t ∈ transports) then w
                                          else with_effect (Print Warn [VStr (invalid_transport t)]) w)))
                         (if bool_decide (t ∈ transports) then w
                          else with_effect (Print Warn [VStr (invalid_transport t)]) w))
      by (by destruct (bool_decide _)).
    rewrite Hw'. rewrite field_set; [by destruct (bool_decide _)| |done].
    by destruct (bool_decide _).
  - by rewrite !insert_insert_eq.
Qed.

Lemma constructor_rewrites_only_the_transport_witness :
  let w := world_of 1730483000123 [example_config "udp"] in
  ∃ lg w' lg2 w'',
    constructor (VRef 1) w = (Ret lg, w') ∧
    heap w' !! 1%positive = Some (example_config (transport_of lg)) ∧
    constructor (VRef 1) w' = (Ret lg2, w'') ∧
    sender_of lg2 = sender_of lg ∧ effects w'' = effects w'.
Proof.
  intros w.
  destruct (constructor_rewrites_only_the_transport 1 (example_config "udp") "udp" w)
    as (lg & w' & Hrun & Hheap & _ & lg2 & w'' & Hrun2 & Hsender & _ & Heff);
    [by vm_compute|by vm_compute|].
  exists lg, w', lg2, w''. split; [exact Hrun|]. split; [|done].
  rewrite Hheap, lookup_insert_eq. unfold example_config, plain. simpl.
  by rewrite insert_insert_eq.
Defined.

(** X9.  Construction throws, and prints nothing, when [config] is not
    an object: [new Logger()] reads [transport] of [undefined], and a
    primitive does not take the assignment to [config.transport] (class
    bodies are strict). *)
Theorem constructor_needs_an_object (config : value) (w : world) :
  (∀ l, config ≠ VRef l) → fails (constructor config) w.
Proof.
  intros Hc. destruct config as [| | | | |l]; try (by eexists _, _). by destruct (Hc l).
Qed.

Lemma constructor_needs_an_object_witness :
  fails (constructor VUndef) (world_of 1730483000123 []) ∧
  fails (constructor (VStr "console")) (world_of 1730483000123 []).
Proof. split; by apply constructor_needs_an_object. Defined.

(** X10.  On the console transport a report is settled when [report]
    returns, and exactly one line is printed, the record: on [console.info]
    when its level is the number 6, and on [console.error] for every other
    level, [DEBUG] and [NOTICE] included.  The level defaults to [ALERT] in
    [report] and to [INFORMATIONAL] in [reportInfo]. *)
Theorem console_sink_follows_the_level
    (lg : logger) (shortMessage fullMessage data level : value) (w : world) :
  sender_of lg = ViaConsole →
  nullish (config lg) = false → bound w (config lg) → bound w data → data ≠ VUndef →
  (let level' := if decide (level = VUndef) then num ALERT else level in
   ∃ l w1,
     report lg shortMessage fullMessage data level w = (Ret (Settled Resolved), w1) ∧
     heap w !! l = None ∧
     field w1 (VRef l) "level" = level' ∧
     effects w1
     = effects w ++
       [Print (if bool_decide (level' = num INFORMATIONAL) then Info else Error) [VRef l]]) ∧
  (let level' := if decide (level = VUndef) then num INFORMATIONAL else level in
   ∃ l w1,
     reportInfo lg shortMessage fullMessage data level w = (Ret (Settled Resolved), w1) ∧
     heap w !! l = None ∧
     field w1 (VRef l) "level" = level' ∧
     effects w1
     = effects w ++
       [Print (if bool_decide (level' = num INFORMATIONAL) then Info else Error) [VRef l]]).
Proof.
  intros Hsender Hc Hbc Hd Hdata.
  assert (Hreport : ∀ level,
    let level' := if decide (level = VUndef) then num ALERT else level in
    ∃ l w1,
      report lg shortMessage fullMessage data level w = (Ret (Settled Resolved), w1) ∧
      heap w !! l = None ∧
      field w1 (VRef l) "level" = level' ∧
      effects w1
      = effects w ++
        [Print (if bool_decide (level' = num INFORMATIONAL) then Info else Error) [VRef l]]).
  { intros lv level'.
    destruct (report_sends lg shortMessage fullMessage data lv w Hc Hbc Hd)
      as (l & data' & w1 & Hrun & Hl & Hrec & _ & _ & Heff).
    rewrite Hsender in Hrun, Heff. exists l, w1.
    split; [exact Hrun|]. split; [exact Hl|]. split; [|exact Heff].
    simpl. rewrite Hrec. simpl.
    by rewrite (proj2 (proj2 (lookup_fixed_fields_short _ _ _ _ _ _ _))). }
  split; [apply Hreport|].
  intros level'. unfold reportInfo.
  assert (default_arg data (alloc (plain ∅)) = mret data) as -> by by destruct data.
  erewrite bind_ret by reflexivity.
  erewrite bind_ret by apply default_arg_mret. fold level'.
  destruct (Hreport level') as (l & w1 & Hrun & Hl & Hlevel & Heff).
  assert (Hlv : (if decide (level' = VUndef) then num ALERT else level') = level').
  { unfold level'. by repeat case_decide. }
  rewrite Hlv in Hlevel, Heff. by exists l, w1.
Qed.

Lemma console_sink_follows_the_level_witness :
  let w := world_of 1730483000123
             [example_config "console"; plain {[ "component" := VStr "writer" ]}] in
  let lg := Instance (VRef 1) ViaConsole in
  (∃ l w1, report lg (VStr "tick") VUndef (VRef 2) (num DEBUG) w = (Ret (Settled Resolved), w1) ∧
           effects w1 = [Print Error [VRef l]]) ∧
  (∃ l w1, reportInfo lg (VStr "tick") VUndef (VRef 2) VUndef w = (Ret (Settled Resolved), w1) ∧
           effects w1 = [Print Info [VRef l]]).
Proof.
  intros w lg.
  destruct (console_sink_follows_the_level lg (VStr "tick") VUndef (VRef 2) (num DEBUG) w)
    as [(l & w1 & Hrun & _ & _ & Heff) _]; [done|done|evaluate|evaluate|done|].
  destruct (console_sink_follows_the_level lg (VStr "tick") VUndef (VRef 2) VUndef w)
    as [_ (l' & w1' & Hrun' & _ & _ & Heff')]; [done|done|evaluate|evaluate|done|].
  split; [exists l, w1|exists l', w1']; (split; [done|]).
  - rewrite Heff. by vm_compute.
  - rewrite Heff'. by vm_compute.
Defined.

(** X11.  The HTTP transport fixes its timeout and its credentials at
    construction and reads the URL at each report: the timeout is
    [config.httpTimeout] or, when that is falsy (0 included), 2000; the
    credentials are sent only when the user name and the password are both
    truthy; and each record is posted to [config.httpUrl] as it is when
    [report] is called. *)
Theorem http_logger_posts_to_the_current_url
    (l : loc) (o : object) (s : string) (w : world) :
  heap w !! l = Some o →
  to_string (field w (VRef l) "transport") w = (Ret s, w) →
  toLowerCase s = "http" →
  let username := field w (VRef l) "httpAuthUsername" in
  let password := field w (VRef l) "httpAuthPassword" in
  ∃ lg w' options,
    constructor (VRef l) w = (Ret lg, w') ∧
    sender_of lg = ViaHttp options ∧
    timeout options = or_else (field w (VRef l) "httpTimeout") (num 2000) ∧
    auth options
    = (if truthy username && truthy password then Some (username, password) else None) ∧
    ∀ (w2 : world) (shortMessage fullMessage data level : value),
      bound w2 (VRef l) → bound w2 data →
      ∃ r data' w3,
        report lg shortMessage fullMessage data level w2
        = (Ret (Waiting (Call (VRef r) data')), w3) ∧
        heap w2 !! r = None ∧
        effects w3
        = effects w2 ++
          [HttpPost (field w2 (VRef l) "httpUrl") (VRef r) (timeout options) (auth options)].
Proof.
  intros Ho Hs Ht username password.
  pose proof (constructor_run l o s w Ho Hs) as Hrun. cbv zeta in Hrun.
  rewrite Ht in Hrun.
  rewrite (bool_decide_eq_true_2 ("http" ∈ transports)) in Hrun
    by (apply list_elem_of_In; simpl; tauto).
  eexists _, _, _. split; [exact Hrun|]. split; [reflexivity|].
  split; [reflexivity|]. split; [reflexivity|].
  intros w2 shortMessage fullMessage data level Hb Hd.
  destruct (report_sends (Instance (VRef l) (sender_for w (VRef l) "http"))
              shortMessage fullMessage data level w2 eq_refl Hb Hd)
    as (r & data' & w3 & Hrun3 & Hr & _ & _ & _ & Heff).
  by exists r, data', w3.
Qed.

Lemma http_logger_posts_to_the_current_url_witness :
  let config := plain {[ "transport" := VStr "HTTP";
                         "httpUrl" := VStr "http://graylog:12201/gelf";
                         "httpTimeout" := num 0;
                         "httpAuthUsername" := VStr "logger" ]} in
  let w := world_of 1730483000123 [config] in
  ∃ lg w' options,
    constructor (VRef 1) w = (Ret lg, w') ∧
    sender_of lg = ViaHttp options ∧
    timeout options = num 2000 ∧ auth options = None ∧
    ∃ r data' w3,
      report lg (VStr "Disk full") VUndef VUndef VUndef w'
      = (Ret (Waiting (Call (VRef r) data')), w3) ∧
      effects w3
      = effects w' ++ [HttpPost (field w' (VRef 1) "httpUrl") (VRef r) (num 2000) None].
Proof.
  intros config w.
  destruct (http_logger_posts_to_the_current_url 1 config "HTTP" w)
    as (lg & w' & options & Hrun & Hsender & Htimeout & Hauth & Hreport);
    [by vm_compute|by vm_compute|by vm_compute|].
  assert (Ht : timeout options = num 2000) by (rewrite Htimeout; by vm_compute).
  assert (Ha : auth options = None) by (rewrite Hauth; by vm_compute).
  exists lg, w', options. split; [exact Hrun|]. split; [exact Hsender|].
  split; [exact Ht|]. split; [exact Ha|].
  destruct (Hreport w' (VStr "Disk full") VUndef VUndef VUndef)
    as (r & data' & w3 & Hrun3 & _ & Heff); [|done|].
  { assert (Hw' : w' = after (constructor (VRef 1) w)) by (by rewrite Hrun).
    rewrite Hw'. evaluate. }
  exists r, data', w3. split; [exact Hrun3|]. by rewrite Heff, Ht, Ha.
Defined.

(** X12.  [reportApiInfo] reports, at level 6, a record whose short
    message is the text [ApiInfo ] followed by the caller's; the fields of
    the request are in the record under [_method], [_baseUrl],
    [_originalUrl] and [_ip], and every key [k] of [etc] under [_DATA_k].
    No existing object changes, and one record is handed to the
    transport. *)
Theorem reportApiInfo_records_the_request
    (lg : logger) (shortMessage fullMessage req etc : value) (short : string) (w : world) :
  nullish (config lg) = false → bound w (config lg) → closed w →
  nullish req = false → bound w req → bound w etc →
  to_string shortMessage w = (Ret short, w) →
  ∃ t l w1,
    reportApiInfo lg shortMessage fullMessage req etc w = (Ret t, w1) ∧
    heap w !! l = None ∧
    field w1 (VRef l) "short_message" = VStr ("ApiInfo " +:+ short) ∧
    field w1 (VRef l) "full_message" = fullMessage ∧
    field w1 (VRef l) "level" = num INFORMATIONAL ∧
    field w1 (VRef l) "_method" = field w req "method" ∧
    field w1 (VRef l) "_baseUrl" = field w req "__BASE_URL" ∧
    field w1 (VRef l) "_originalUrl" = field w req "originalUrl" ∧
    field w1 (VRef l) "_ip" = field w req "ip" ∧
    (∀ k v, (k, v) ∈ own_entries (heap w) etc →
            field w1 (VRef l) ("_DATA_" +:+ k) = v) ∧
    (∀ l' o, heap w !! l' = Some o → heap w1 !! l' = Some o) ∧
    effects w1
    = effects w ++
      [match sender_of lg with
       | ViaConsole => Print Info [VRef l]
       | ViaQueue _ => QueueSend (VRef l)
       | ViaHttp options =>
           HttpPost (field w (config lg) "httpUrl") (VRef l) (timeout options) (auth options)
       end].
Proof.
  intros Hc Hbc Hw Hn Hreq Hetc Hshort. unfold reportApiInfo.
  erewrite bind_ret by exact Hshort.
  erewrite bind_ret by (by apply getApiRequestData_run).
  pose proof (fresh_unused w) as Hd. set (d := fresh (dom (heap w))) in *.
  set (wd := with_object d (api_fields w req etc) w).
  unfold reportInfo. cbn [default_arg]. erewrite bind_ret by reflexivity.
  erewrite bind_ret by apply default_arg_mret.
  rewrite decide_False by done.
  destruct (report_sends lg (VStr ("ApiInfo " +:+ short)) fullMessage (VRef d)
              (num INFORMATIONAL) wd Hc)
    as (l & data' & w1 & Hrun & Hl & Hrec & Hold & _ & Heff).
  { by apply bound_with_object. }
  { simpl. rewrite lookup_insert_eq. by eexists. }
  rewrite decide_False in Hrec, Heff by done.
  rewrite bool_decide_eq_true_2 in Heff by done.
  assert (Hcfg : ∀ k, field wd (config lg) k = field w (config lg) k).
  { intros k. by apply field_insert. }
  rewrite Hcfg in Heff.
  assert (Hentries : own_entries (heap wd) (VRef d) = map_to_list (api_fields w req etc)).
  { simpl. by rewrite lookup_insert_eq. }
  rewrite Hentries in Hrec.
  match type of Hrec with _ = Some (plain ?r) => set (record := r) in * end.
  assert (Hfield : ∀ k, field w1 (VRef l) k = default VUndef (record !! k)).
  { intros k. simpl. by rewrite Hrec. }
  assert (Hextra : ∀ k v, api_fields w req etc !! k = Some v →
                          field w1 (VRef l) ("_" +:+ k) = v).
  { intros k v Hk. rewrite Hfield. unfold record.
    rewrite (lookup_prefixed_in "_" _ _ k v); [done|apply NoDup_fst_map_to_list| |].
    - by apply elem_of_map_to_list.
    - intros Heq. assert (k = "_proto__") as -> by (by injection Heq).
      destruct (api_fields_spec req etc w) as (_ & _ & _ & _ & _ & _ & _ & _ & Hall).
      destruct (Hall "_proto__" (mk_is_Some _ _ Hk)) as [H|[H|[H|H]]].
      + apply list_elem_of_In in H. simpl in H. by destruct_or!.
      + by destruct H as (? & ? & _).
      + by destruct H as (_ & ? & ? & _).
      + by destruct H as (_ & ? & ? & _). }
  destruct (lookup_fixed_fields_short (env wd) (VStr ("ApiInfo " +:+ short)) fullMessage
              (num INFORMATIONAL) (field wd (config lg) "env")
              (field wd (config lg) "appName") (map_to_list (api_fields w req etc)))
    as (Hs & Hf & Hlv).
  destruct (api_fields_spec req etc w) as (Hm & Hb & Hou & Hip & _ & Hdata & _).
  eexists _, l, w1. split; [exact Hrun|]. split.
  { destruct (heap w !! l) as [x|] eqn:Hx; [|done].
    assert (heap wd !! l = Some x); [|congruence].
    simpl. rewrite lookup_insert_ne; [done|]. congruence. }
  split; [by rewrite Hfield; unfold record; rewrite Hs|].
  split; [by rewrite Hfield; unfold record; rewrite Hf|].
  split; [by rewrite Hfield; unfold record; rewrite Hlv|].
  split; [by apply (Hextra "method")|]. split; [by apply (Hextra "baseUrl")|].
  split; [by apply (Hextra "originalUrl")|]. split; [by apply (Hextra "ip")|].
  split; [intros k v Hkv; apply (Hextra ("DATA_" +:+ k)); by apply Hdata|].
  split; [|exact Heff].
  intros l' x Hx. apply Hold. simpl. rewrite lookup_insert_ne; [done|]. congruence.
Qed.

Lemma reportApiInfo_records_the_request_witness :
  let req := plain {[ "method" := VStr "GET"; "originalUrl" := VStr "/orders" ]} in
  let w := world_of 1730483000123
             [example_config "console"; req; plain {[ "requestId" := VStr "r-1" ]}] in
  ∃ t l w1,
    reportApiInfo (Instance (VRef 1) ViaConsole) (VStr "listed") VUndef (VRef 2) (VRef 3) w
    = (Ret t, w1) ∧
    field w1 (VRef l) "short_message" = VStr "ApiInfo listed" ∧
    field w1 (VRef l) "_method" = VStr "GET" ∧
    field w1 (VRef l) "_DATA_requestId" = VStr "r-1" ∧
    effects w1 = [Print Info [VRef l]].
Proof.
  intros req w.
  destruct (reportApiInfo_records_the_request (Instance (VRef 1) ViaConsole)
              (VStr "listed") VUndef (VRef 2) (VRef 3) "listed" w)
    as (t & l & w1 & Hrun & _ & Hshort & _ & _ & Hmethod & _ & _ & _ & Hdata & _ & Heff);
    [done|evaluate|evaluate|done|evaluate|evaluate|done|].
  exists t, l, w1. split; [exact Hrun|]. split; [exact Hshort|].
  split; [rewrite Hmethod; by vm_compute|].
  split; [apply Hdata; vm_compute; left|]. exact Heff.
Defined.

Lemma or_else_or_else (a d : value) :
  truthy d = true → or_else (or_else a d) d = or_else a d.
Proof. intros Hd. unfold or_else. destruct (truthy a) eqn:Ha; by rewrite ?Ha, ?Hd. Qed.

(** X13.  A logger built for the queue transport holds a manager that is
    not connected and has no channel; its queue is [config.amqpQueue] or
    [default_queue], its retry delay [config.amqpRetryDelay] or 1000 (a
    delay of 0 is replaced), and [init] calls [connect()] at once:
    [amqp.connect] is called with the host, port, user and password of the
    configuration, or [127.0.0.1], 5672, [guest] and [guest], with the
    protocol [amqp] and a heartbeat of 60, whatever [ms] is.  On the other
    transports [init] leaves the manager alone and returns a resolved
    promise. *)
Theorem init_makes_the_first_attempt
    (l : loc) (o : object) (s : string) (ms : value) (w : world) :
  heap w !! l = Some o →
  to_string (field w (VRef l) "transport") w = (Ret s, w) →
  let settings :=
    RabbitMQ.Settings
      (RabbitMQ.Options
         (or_else (field w (VRef l) "amqpHost") (VStr "127.0.0.1"))
         (or_else (field w (VRef l) "amqpPort") (num 5672))
         (or_else (field w (VRef l) "amqpUser") (VStr "guest"))
         (or_else (field w (VRef l) "amqpPassword") (VStr "guest"))
         (or_else (field w (VRef l) "amqpQueue") (VStr "default_queue"))
         (or_else (field w (VRef l) "amqpRetryDelay") (num 1000)))
      "amqp" 60 in
  ∃ lg w',
    constructor (VRef l) w = (Ret lg, w') ∧
    (toLowerCase s = "amqp" →
       ∃ m, sender_of lg = ViaQueue m ∧
            RabbitMQ.config m = settings ∧
            RabbitMQ.isConnected m = false ∧
            RabbitMQ.connection m = None ∧ RabbitMQ.channel m = None ∧
            RabbitMQ.queue m
            = or_else (field w (VRef l) "amqpQueue") (VStr "default_queue") ∧
            RabbitMQ.retryDelay m
            = or_else (field w (VRef l) "amqpRetryDelay") (num 1000) ∧
            init lg ms (RabbitMQ.boot m)
            = (Racing 0 (if decide (ms = VUndef) then num 500 else ms),
               RabbitMQ.System m [RabbitMQ.Task RabbitMQ.AwaitConnect 0] []
                 [RabbitMQ.Connect settings])) ∧
    (toLowerCase s ≠ "amqp" → ∀ sys, init lg ms sys = (Ready, sys)).
Proof.
  intros Ho Hs settings.
  pose proof (constructor_run l o s w Ho Hs) as Hrun. cbv zeta in Hrun.
  eexists _, _. split; [exact Hrun|]. split.
  - intros Ht. rewrite Ht.
    rewrite (bool_decide_eq_true_2 ("amqp" ∈ transports))
      by (apply list_elem_of_In; simpl; tauto).
    eexists. split; [reflexivity|]. split; [reflexivity|]. split; [reflexivity|].
    split; [reflexivity|]. split; [reflexivity|].
    split; [by apply or_else_or_else|]. split; [by apply or_else_or_else|].
    reflexivity.
  - intros Ht sys. unfold init. simpl.
    case_bool_decide as Hin; [|done].
    apply list_elem_of_In in Hin. simpl in Hin.
    destruct Hin as [<-|[Hin|[<-|[]]]]; [done| |done]. by destruct Ht.
Qed.

Lemma init_makes_the_first_attempt_witness :
  let config := plain {[ "transport" := VStr "amqp"; "amqpQueue" := VStr "logs" ]} in
  let w := world_of 1730483000123 [config] in
  ∃ lg w' m,
    constructor (VRef 1) w = (Ret lg, w') ∧
    sender_of lg = ViaQueue m ∧
    RabbitMQ.queue m = VStr "logs" ∧ RabbitMQ.retryDelay m = num 1000 ∧
    RabbitMQ.trace (init lg VUndef (RabbitMQ.boot m)).2
    = [RabbitMQ.Connect
         (RabbitMQ.Settings
            (RabbitMQ.Options (VStr "127.0.0.1") (num 5672) (VStr "guest") (VStr "guest")
               (VStr "logs") (num 1000)) "amqp" 60)].
Proof.
  intros config w.
  destruct (init_makes_the_first_attempt 1 config "amqp" VUndef w)
    as (lg & w' & Hrun & Hamqp & _); [by vm_compute|by vm_compute|].
  destruct (Hamqp eq_refl) as (m & Hsender & _ & _ & _ & _ & Hqueue & Hdelay & Hinit).
  exists lg, w', m. split; [exact Hrun|]. split; [exact Hsender|].
  split; [rewrite Hqueue; by vm_compute|]. split; [rewrite Hdelay; by vm_compute|].
  rewrite Hinit. simpl. by vm_compute.
Defined.

(** X14.  [_localeDate] is the locale date of the clock reading with the
    milliseconds put before the first [ AM] or [ PM]: a dot and
    [timestamp % 1000], without leading zeros.  In a locale that writes
    neither (a 24-hour clock) the date is left as it is and carries no
    milliseconds.  ([data] is supposed to have no key [localeDate].) *)
Theorem localeDate_takes_the_milliseconds_before_the_meridiem
    (shortMessage fullMessage data level config : value) (w : world) :
  nullish config = false → bound w data →
  "localeDate" ∉ (own_entries (heap w) data).*1 →
  let date := toLocaleString (env w) (now (env w)) in
  let ms := "." +:+ pretty (Z.rem (now (env w)) 1000) in
  ∃ l w',
    getLogObject shortMessage fullMessage data level config w = (Ret (VRef l), w') ∧
    ((∀ a b, date ≠ a +:+ " AM" +:+ b) → (∀ a b, date ≠ a +:+ " PM" +:+ b) →
       field w' (VRef l) "_localeDate" = VStr date) ∧
    (∀ a m b, date = a +:+ m +:+ b → m = " AM" ∨ m = " PM" → without "M" a →
       field w' (VRef l) "_localeDate" = VStr (a +:+ ms +:+ m +:+ b)).
Proof.
  intros Hc Hd Hkey date ms.
  destruct (getLogObject_run shortMessage fullMessage data level config w Hc Hd)
    as (l & w0 & Hrun & _).
  eexists l, _. split; [exact Hrun|].
  assert (Hfield : field
    (with_heap
       (<[l := plain (prefixed "_" (own_entries (heap w) data)
                 (fixed_fields (env w) shortMessage fullMessage level
                    (field w config "env") (field w config "appName")))]>
          (heap w0)) w0) (VRef l) "_localeDate"
    = VStr (insert_before_meridiem ms date)).
  { simpl. rewrite lookup_insert_eq. simpl.
    rewrite lookup_prefixed_other; [done|].
    intros k' Hk' Heq. apply Hkey. by assert (k' = "localeDate") as <- by (by injection Heq). }
  rewrite Hfield. split.
  - intros HA HP. by rewrite insert_before_meridiem_absent.
  - intros a m b Hdate Hm Ha. by rewrite Hdate, insert_before_meridiem_first.
Qed.

Lemma localeDate_takes_the_milliseconds_before_the_meridiem_witness :
  let w := world_of 1730483000007 [example_config "console"] in
  ∃ l w',
    getLogObject (VStr "Disk full") VUndef VUndef (num ERROR) (VRef 1) w
    = (Ret (VRef l), w') ∧
    field w' (VRef l) "_localeDate" = VStr "11/1/2026, 6:23:20.7 PM".
Proof.
  intros w.
  destruct (localeDate_takes_the_milliseconds_before_the_meridiem
              (VStr "Disk full") VUndef VUndef (num ERROR) (VRef 1) w)
    as (l & w' & Hrun & _ & Hms); [done|done|apply not_elem_of_nil|].
  exists l, w'. split; [exact Hrun|].
  rewrite (Hms "11/1/2026, 6:23:20" " PM" ""); [by vm_compute|by vm_compute|by right|evaluate].
Defined.



End Logger_facts.

(* ===================================================================== *)
(** * Properties of the connection manager *)
(* ===================================================================== *)
Module RabbitMQ_facts.
Import JS RabbitMQ.

Lemma run_app (evs1 evs2 : list event) (s : system) :
  run (evs1 ++ evs2) s = run evs2 (run evs1 s).
Proof. apply fold_left_app. Qed.

Lemma run_cons (ev : event) (evs : list event) (s : system) :
  run (ev :: evs) s = run evs (step s ev).
Proof. reflexivity. Qed.

Lemma all_before_app (P : system → Prop) (evs1 evs2 : list event) (s : system) :
  all_before P evs1 s → all_before P evs2 (run evs1 s) →
  all_before P (evs1 ++ evs2) s.
Proof.
  intros H1 H2 n Hn. rewrite length_app in Hn.
  destruct (decide (n < length evs1)) as [Hlt|Hge].
  - rewrite take_app_le by lia. by apply H1.
  - rewrite take_app_ge by lia. rewrite run_app. apply H2. lia.
Qed.

Lemma all_before_cons (P : system → Prop) (ev : event) (evs : list event) (s : system) :
  P s → all_before P evs (step s ev) → all_before P (ev :: evs) s.
Proof.
  intros H1 H2 [|n] Hn; simpl in *; [done|]. apply H2. lia.
Qed.

Lemma all_before_nil (P : system → Prop) (s : system) : all_before P [] s.
Proof. intros n Hn. simpl in Hn. lia. Qed.

Lemma round_connecting (f : failure) (m : manager) (k : nat) (tr : list action) :
  isConnected m = false →
  ∃ m' tr',
    run (round 0 f) (connecting m k tr) = connecting m' (S k) tr' ∧
    isConnected m' = false ∧ retryDelay m' = retryDelay m ∧
    queue m' = queue m ∧
    omap beat_of tr' = omap beat_of tr ++ [Wait (retryDelay m); Attempt] ∧
    all_before retrying (round 0 f) (connecting m k tr).
Proof.
  intros Hm. destruct m as [cfg c0 ch0 q d b]; simpl in Hm; subst b.
  destruct f as [e|c e|c ch e]; eexists _, _; (split; [reflexivity|]);
    (split; [reflexivity|]); (split; [reflexivity|]); (split; [reflexivity|]); (split;
      [ cbn; rewrite !omap_app; cbn; rewrite <- ?app_assoc, ?app_nil_r; try done
      | repeat (apply all_before_cons; [by compute|]); apply all_before_nil ]).
Qed.

Lemma rounds_connecting (fs : list failure) (m : manager) (k : nat) (tr : list action) :
  isConnected m = false →
  ∃ m' tr',
    run (concat (round 0 <$> fs)) (connecting m k tr)
      = connecting m' (k + length fs) tr' ∧
    isConnected m' = false ∧ retryDelay m' = retryDelay m ∧
    queue m' = queue m ∧
    omap beat_of tr'
      = omap beat_of tr ++ concat (replicate (length fs) [Wait (retryDelay m); Attempt]) ∧
    all_before retrying (concat (round 0 <$> fs)) (connecting m k tr).
Proof.
  revert m k tr. induction fs as [|f fs IH]; intros m k tr Hm.
  - exists m, tr. rewrite Nat.add_0_r, app_nil_r.
    repeat (split; [done|]). apply all_before_nil.
  - destruct (round_connecting f m k tr Hm) as (m1 & tr1 & Hrun & Hm1 & Hd & Hq & Hbeats & Hbefore).
    destruct (IH m1 (S k) tr1 Hm1) as (m2 & tr2 & Hrun2 & Hm2 & Hd2 & Hq2 & Hbeats2 & Hbefore2).
    exists m2, tr2. rewrite fmap_cons, concat_cons, run_app, Hrun, Hrun2.
    replace (k + length (f :: fs)) with (S k + length fs) by (simpl; lia).
    split; [done|]. split; [done|]. split; [congruence|]. split.
    { congruence. }
    split.
    { rewrite Hbeats2, Hbeats, Hd. simpl. by rewrite <- app_assoc. }
    apply all_before_app; [done|]. by rewrite Hrun.
Qed.

Lemma beats_shape (d : value) (n : nat) :
  [Attempt] ++ concat (replicate n [Wait d; Attempt])
  = concat (replicate n [Attempt; Wait d]) ++ [Attempt].
Proof.
  induction n as [|n IH]; [done|]. simpl in *. by rewrite <- IH.
Qed.

Lemma attempts_beats (s : system) :
  attempts s = length (filter (λ b, b = Attempt) (beats s)).
Proof.
  unfold attempts, beats. induction (trace s) as [|a tr IH]; [done|].
  destruct a; simpl; rewrite ?filter_cons; simpl; auto.
Qed.

Lemma attempts_alternating (d : value) (n : nat) :
  length (filter (λ b, b = Attempt) (concat (replicate n [Attempt; Wait d]) ++ [Attempt]))
  = S n.
Proof.
  induction n as [|n IH]; [done|]. simpl.
  rewrite filter_cons, decide_False by done. by rewrite IH.
Qed.

(** *** The attempts and the timer *)

Lemma fired_app (tid : nat) (evs1 evs2 : list event) :
  fired tid (evs1 ++ evs2) = fired tid evs1 + fired tid evs2.
Proof. unfold fired. by rewrite filter_app, length_app. Qed.

(** The attempts follow the firings of the timer along [evs1 ++ evs2] when
    they do along [evs1] and then along [evs2]. *)
Lemma paced_app (k : nat) (d : value) (evs1 evs2 : list event) (s : system) :
  (∀ n, n ≤ length evs1 →
     attempts (run (take n evs1) s) = attempts s + fired 0 (take n evs1) ∧
     (evs1 !! n = Some (TimerFired 0) →
        tasks (run (take n evs1) s) = [Task AwaitTimer (k + fired 0 (take n evs1))] ∧
        last (trace (run (take n evs1) s)) = Some (SetTimeout d))) →
  (∀ n, n ≤ length evs2 →
     attempts (run (take n evs2) (run evs1 s))
     = attempts (run evs1 s) + fired 0 (take n evs2) ∧
     (evs2 !! n = Some (TimerFired 0) →
        tasks (run (take n evs2) (run evs1 s))
        = [Task AwaitTimer (k + fired 0 evs1 + fired 0 (take n evs2))] ∧
        last (trace (run (take n evs2) (run evs1 s))) = Some (SetTimeout d))) →
  ∀ n, n ≤ length (evs1 ++ evs2) →
     attempts (run (take n (evs1 ++ evs2)) s)
     = attempts s + fired 0 (take n (evs1 ++ evs2)) ∧
     ((evs1 ++ evs2) !! n = Some (TimerFired 0) →
        tasks (run (take n (evs1 ++ evs2)) s)
        = [Task AwaitTimer (k + fired 0 (take n (evs1 ++ evs2)))] ∧
        last (trace (run (take n (evs1 ++ evs2)) s)) = Some (SetTimeout d)).
Proof.
  intros H1 H2 n Hn. rewrite length_app in Hn.
  destruct (decide (n < length evs1)) as [Hlt|Hge].
  - rewrite take_app_le by lia. rewrite lookup_app_l by done. apply H1. lia.
  - rewrite take_app_ge by lia. rewrite lookup_app_r by lia.
    rewrite run_app, fired_app.
    destruct (H1 (length evs1)) as [Ha _]; [done|]. rewrite firstn_all in Ha.
    destruct (H2 (n - length evs1)) as [Hb Hc]; [lia|].
    rewrite Hb, Ha. split; [lia|]. intros Hev. rewrite Nat.add_assoc. by apply Hc.
Qed.

Lemma round_paced (f : failure) (m : manager) (k : nat) (tr : list action) :
  isConnected m = false →
  ∀ n, n ≤ length (round 0 f) →
    attempts (run (take n (round 0 f)) (connecting m k tr))
    = attempts (connecting m k tr) + fired 0 (take n (round 0 f)) ∧
    (round 0 f !! n = Some (TimerFired 0) →
       tasks (run (take n (round 0 f)) (connecting m k tr))
       = [Task AwaitTimer (k + fired 0 (take n (round 0 f)))] ∧
       last (trace (run (take n (round 0 f)) (connecting m k tr)))
       = Some (SetTimeout (retryDelay m))).
Proof.
  intros Hm n Hn. destruct m as [cfg c0 ch0 q d b]; simpl in Hm; subst b.
  destruct f as [e|c e|c ch e]; simpl in Hn;
    destruct n as [|[|[|[|[|n]]]]]; try lia;
    repeat match goal with
    | |- context [fired 0 ?l] =>
        let v := eval vm_compute in (fired 0 l) in change (fired 0 l) with v
    end; simpl;
    (split;
     [ unfold attempts; simpl; rewrite ?filter_app, ?length_app;
       repeat match goal with
       | |- context [length (@filter ?A ?B ?I ?P ?D (?a :: ?l))] =>
           let v := eval vm_compute in (length (@filter A B I P D (a :: l))) in
           change (length (@filter A B I P D (a :: l))) with v
       end; lia
     | intros [=]; rewrite ?Nat.add_0_r, ?last_app; done ]).
Qed.


Lemma fired_round (f : failure) : fired 0 (round 0 f) = 1.
Proof. by destruct f. Qed.

Lemma rounds_paced (fs : list failure) (m : manager) (k : nat) (tr : list action) :
  isConnected m = false →
  let evs := concat (round 0 <$> fs) in
  ∀ n, n ≤ length evs →
    attempts (run (take n evs) (connecting m k tr))
    = attempts (connecting m k tr) + fired 0 (take n evs) ∧
    (evs !! n = Some (TimerFired 0) →
       tasks (run (take n evs) (connecting m k tr))
       = [Task AwaitTimer (k + fired 0 (take n evs))] ∧
       last (trace (run (take n evs) (connecting m k tr)))
       = Some (SetTimeout (retryDelay m))).
Proof.
  revert m k tr. induction fs as [|f fs IH]; intros m k tr Hm evs.
  - intros [|n] Hn; simpl in Hn; [|lia]. unfold fired. simpl. split; [lia|done].
  - unfold evs. rewrite fmap_cons, concat_cons.
    apply (paced_app k (retryDelay m)); [by apply round_paced|].
    destruct (round_connecting f m k tr Hm) as (m1 & tr1 & -> & Hm1 & Hd & _).
    rewrite fired_round, <- Hd.
    replace (k + 1) with (S k) by lia. by apply IH.
Qed.

Lemma succeeding_paced (m : manager) (k j : nat) (tr : list action) (d : value)
    (c : conn) (ch : chan) :
  ∀ n, n ≤ length (succeeding 0 c ch) →
    attempts (run (take n (succeeding 0 c ch)) (connecting m k tr))
    = attempts (connecting m k tr) + fired 0 (take n (succeeding 0 c ch)) ∧
    (succeeding 0 c ch !! n = Some (TimerFired 0) →
       tasks (run (take n (succeeding 0 c ch)) (connecting m k tr))
       = [Task AwaitTimer (j + fired 0 (take n (succeeding 0 c ch)))] ∧
       last (trace (run (take n (succeeding 0 c ch)) (connecting m k tr)))
       = Some (SetTimeout d)).
Proof.
  intros n Hn. destruct m as [cfg c0 ch0 q d0 b].
  simpl in Hn; destruct n as [|[|[|[|n]]]]; try lia;
    repeat match goal with
    | |- context [fired 0 ?l] =>
        let v := eval vm_compute in (fired 0 l) in change (fired 0 l) with v
    end; simpl;
    (split;
     [ unfold attempts; simpl; rewrite ?filter_app, ?length_app;
       repeat match goal with
       | |- context [length (@filter ?A ?B ?I ?P ?D (?a :: ?l))] =>
           let v := eval vm_compute in (length (@filter A B I P D (a :: l))) in
           change (length (@filter A B I P D (a :: l))) with v
       end; lia
     | intros [=] ]).
Qed.

Lemma lookup_connect (s : system) (tid : nat) (t : task) :
  tasks s !! tid = Some t → tasks (connect s) !! tid = Some t.
Proof.
  intros Ht. pose proof (lookup_lt_Some _ _ _ Ht) as Hlt.
  unfold connect, loop. simpl. destruct (isConnected (mgr s)); simpl;
    rewrite ?list_lookup_insert_ne by lia; by rewrite lookup_app_l.
Qed.

Lemma lookup_listeners (a : action) (l : list conn) (s : system) (tid : nat) (t : task) :
  tasks s !! tid = Some t →
  tasks (foldr (λ _, listener a) s l) !! tid = Some t.
Proof.
  intros Ht. induction l as [|c l IH]; [done|].
  cbn [foldr]. unfold listener. by apply lookup_connect.
Qed.

(** An invocation that waits for its timer is resumed by no other event. *)
Lemma waiting_step (s : system) (tid k : nat) (ev : event) :
  tasks s !! tid = Some (Task AwaitTimer k) → ev ≠ TimerFired tid →
  tasks (step s ev) !! tid = Some (Task AwaitTimer k).
Proof.
  intros Ht Hev.
  destruct ev as [|tid' r|tid' r|tid' r|tid'|c e|c]; simpl.
  - by apply lookup_connect.
  - destruct (decide (tid' = tid)) as [->|Hne]; [by rewrite Ht|].
    destruct (tasks s !! tid') as [[[] n]|]; try done.
    destruct r; simpl; by rewrite list_lookup_insert_ne.
  - destruct (decide (tid' = tid)) as [->|Hne]; [by rewrite Ht|].
    destruct (tasks s !! tid') as [[[] n]|]; try done.
    destruct r; simpl; by rewrite list_lookup_insert_ne.
  - destruct (decide (tid' = tid)) as [->|Hne]; [by rewrite Ht|].
    destruct (tasks s !! tid') as [[[] n]|]; try done.
    destruct r as [[]|e]; simpl; [|by rewrite list_lookup_insert_ne].
    destruct (connection (mgr s)); simpl; by rewrite list_lookup_insert_ne.
  - assert (tid' ≠ tid) by congruence.
    destruct (tasks s !! tid') as [[[] n]|]; try done.
    unfold loop. destruct (isConnected (mgr s)); simpl;
      by rewrite list_lookup_insert_ne.
  - by apply lookup_listeners.
  - by apply lookup_listeners.
Qed.

Lemma timer_step (s : system) (tid k : nat) :
  tasks s !! tid = Some (Task AwaitTimer k) → isConnected (mgr s) = false →
  tasks (step s (TimerFired tid)) !! tid = Some (Task AwaitConnect (S k)) ∧
  attempts (step s (TimerFired tid)) = S (attempts s).
Proof.
  intros Ht Hc. pose proof (lookup_lt_Some _ _ _ Ht) as Hlt.
  simpl. rewrite Ht. unfold loop. rewrite Hc. simpl. split.
  - by rewrite list_lookup_insert_eq.
  - unfold attempts. simpl. rewrite filter_app, length_app.
    destruct k; simpl; lia.
Qed.

(** C3.  A single call of [connect()] on a manager that is not connected,
    facing [N] failed attempts and then a successful one.  It makes [N + 1]
    attempts: the first one at the call, and each later one at a firing of
    its timer and at no other moment, so that at every moment the number of
    attempts made is one more than the number of firings.  After each failed
    attempt it sets the timer with the configured delay and waits: when the
    timer fires, the invocation is waiting for it, and setting it is the
    last thing the manager did.  The call is still in its loop and the
    manager is not connected at every moment before the last event, and
    after the successful attempt (connection, confirm channel and durable
    queue) the manager is connected and the call has returned.  In every
    state of a manager, an invocation that waits for its timer is resumed by
    no other event, and the firing makes its next attempt. *)
Theorem connect_retries_until_success
    (m : manager) (fs : list failure) (c : conn) (ch : chan) :
  isConnected m = false →
  let evs := single_call fs c ch in
  let s := run evs (boot m) in
  beats s = concat (replicate (length fs) [Attempt; Wait (retryDelay m)]) ++ [Attempt] ∧
  attempts s = S (length fs) ∧
  tasks s = [Task Returned (length fs)] ∧
  isConnected (mgr s) = true ∧
  connection (mgr s) = Some c ∧ channel (mgr s) = Some ch ∧
  listeners s = [c] ∧
  last (trace s) = Some (Listen c) ∧
  AssertQueue ch (queue m) true ∈ trace s ∧
  (∀ n, n < length evs →
        isConnected (mgr (run (take n evs) (boot m))) = false ∧
        (0 < n → active_loops (run (take n evs) (boot m)) = 1)) ∧
  fired 0 evs = length fs ∧
  (∀ n, 0 < n ≤ length evs →
        attempts (run (take n evs) (boot m)) = S (fired 0 (take n evs))) ∧
  (∀ n, evs !! n = Some (TimerFired 0) →
        tasks (run (take n evs) (boot m)) = [Task AwaitTimer (fired 0 (take n evs))] ∧
        last (trace (run (take n evs) (boot m))) = Some (SetTimeout (retryDelay m))) ∧
  (∀ (s0 : system) (tid k : nat),
     tasks s0 !! tid = Some (Task AwaitTimer k) →
     (∀ ev, ev ≠ TimerFired tid →
            tasks (step s0 ev) !! tid = Some (Task AwaitTimer k)) ∧
     (isConnected (mgr s0) = false →
        tasks (step s0 (TimerFired tid)) !! tid = Some (Task AwaitConnect (S k)) ∧
        attempts (step s0 (TimerFired tid)) = S (attempts s0))).
Proof.
  intros Hm evs s.
  assert (Hstart : step (boot m) Invoke = connecting m 0 [Connect (config m)]).
  { unfold step, connect, boot, loop; simpl. by rewrite Hm. }
  destruct (rounds_connecting fs m 0 [Connect (config m)] Hm)
    as (m1 & tr1 & Hrun & Hm1 & Hd & Hq & Hbeats & Hbefore).
  assert (Hend : run (succeeding 0 c ch) (connecting m1 (length fs) tr1)
    = System (Manager (config m1) (Some c) (Some ch) (queue m1) (retryDelay m1) true)
        [Task Returned (length fs)] [c]
        (tr1 ++ [CreateConfirmChannel c] ++ [AssertQueue ch (queue m1) true]
             ++ [ConsoleLog (Text "RabbitMQ connected"); Listen c; Listen c])).
  { destruct m1; simpl in *; subst. cbn. by rewrite <- !app_assoc. }
  assert (Hs : s = run (succeeding 0 c ch) (connecting m1 (length fs) tr1)).
  { unfold s, evs, single_call. rewrite run_cons, Hstart, run_app, Hrun. done. }
  assert (Hb : beats s
    = concat (replicate (length fs) [Attempt; Wait (retryDelay m)]) ++ [Attempt]).
  { rewrite Hs, Hend. unfold beats; simpl. rewrite omap_app, Hbeats. simpl.
    rewrite app_nil_r. apply (beats_shape (retryDelay m) (length fs)). }
  assert (Ha : attempts s = S (length fs)).
  { rewrite attempts_beats, Hb. apply attempts_alternating. }
  assert (Hpaced : ∀ n, n ≤ length (concat (round 0 <$> fs) ++ succeeding 0 c ch) →
    attempts (run (take n (concat (round 0 <$> fs) ++ succeeding 0 c ch))
                (connecting m 0 [Connect (config m)]))
    = 1 + fired 0 (take n (concat (round 0 <$> fs) ++ succeeding 0 c ch)) ∧
    ((concat (round 0 <$> fs) ++ succeeding 0 c ch) !! n = Some (TimerFired 0) →
       tasks (run (take n (concat (round 0 <$> fs) ++ succeeding 0 c ch))
                (connecting m 0 [Connect (config m)]))
       = [Task AwaitTimer (0 + fired 0 (take n (concat (round 0 <$> fs) ++ succeeding 0 c ch)))] ∧
       last (trace (run (take n (concat (round 0 <$> fs) ++ succeeding 0 c ch))
                      (connecting m 0 [Connect (config m)])))
       = Some (SetTimeout (retryDelay m)))).
  { apply (paced_app 0 (retryDelay m) _ _ (connecting m 0 [Connect (config m)])).
    - by apply rounds_paced.
    - rewrite Hrun. apply succeeding_paced. }
  assert (Hat : ∀ n, 0 < n ≤ length evs →
    attempts (run (take n evs) (boot m)) = S (fired 0 (take n evs))).
  { intros [|n] Hn; [lia|]. unfold evs, single_call in *.
    rewrite firstn_cons, run_cons, Hstart. simpl in Hn.
    destruct (Hpaced n) as [-> _]; [lia|]. done. }
  split; [done|]. split; [done|].
  rewrite Hs, Hend; simpl. repeat (split; [done|]).
  split.
  { by rewrite last_app. }
  split.
  { rewrite Hq. apply elem_of_app. right. repeat constructor. }
  assert (Hall : all_before retrying (concat (round 0 <$> fs) ++ succeeding 0 c ch)
                   (connecting m 0 [Connect (config m)])).
  { apply all_before_app; [done|]. rewrite Hrun.
    destruct m1; simpl in *; subst.
    repeat (apply all_before_cons; [by compute|]). apply all_before_nil. }
  split.
  { intros [|n] Hn.
    - simpl. split; [done|lia].
    - unfold evs, single_call in *. rewrite firstn_cons, run_cons, Hstart.
      simpl in Hn. destruct (Hall n) as [? ?]; [lia|]. done. }
  split.
  { specialize (Hat (length evs)). rewrite firstn_all in Hat.
    fold s in Hat. rewrite Ha in Hat.
    assert (0 < length evs) by (unfold evs, single_call; simpl; lia).
    assert (S (length fs) = S (fired 0 evs)) by (apply Hat; lia). lia. }
  split; [exact Hat|].
  split.
  { intros [|n] Hev; [done|]. unfold evs, single_call in *.
    rewrite firstn_cons, run_cons, Hstart. simpl in Hev.
    destruct (Hpaced n) as [_ Hw].
    { apply lookup_lt_Some in Hev. lia. }
    by apply Hw. }
  intros s0 tid k Ht. split.
  - intros ev Hev. by apply waiting_step.
  - intros Hc. by apply timer_step.
Qed.

Lemma connect_retries_until_success_witness :
  let m := constructor default_options in
  let fs := [ConnectFails VNull; ChannelFails 1 VNull; AssertFails 2 1 VNull] in
  let evs := single_call fs 3 2 in
  let s := run evs (boot m) in
  isConnected m = false ∧
  beats s = [Attempt; Wait (num 1000); Attempt; Wait (num 1000);
             Attempt; Wait (num 1000); Attempt] ∧
  attempts s = 4 ∧ isConnected (mgr s) = true ∧
  evs !! 2 = Some (TimerFired 0) ∧
  attempts (run (take 2 evs) (boot m)) = 1 ∧
  attempts (run (take 3 evs) (boot m)) = 2.
Proof.
  intros m fs evs s.
  destruct (connect_retries_until_success m fs 3 2 eq_refl)
    as (Hb & Ha & _ & Hc & _ & _ & _ & _ & _ & _ & _ & Hat & _).
  split; [reflexivity|]. split; [exact Hb|]. split; [exact Ha|]. split; [exact Hc|].
  split; [reflexivity|].
  split; [apply (Hat 2)|apply (Hat 3)]; simpl; lia.
Defined.

(** *** Overlapping calls of [connect] *)

Lemma connect_connected (s : system) :
  isConnected (mgr s) = true →
  mgr (connect s) = mgr s ∧ attempts (connect s) = attempts s ∧
  active_loops (connect s) = active_loops s.
Proof.
  intros H. unfold connect. rewrite H. unfold attempts, active_loops; simpl.
  rewrite filter_app, length_app. simpl. repeat split; lia.
Qed.

Lemma connect_disconnected (s : system) :
  isConnected (mgr s) = false →
  mgr (connect s) = mgr s ∧ attempts (connect s) = S (attempts s) ∧
  active_loops (connect s) = S (active_loops s).
Proof.
  intros H. unfold connect, loop; simpl. rewrite H. simpl. split; [done|]. split.
  - unfold attempts; simpl. rewrite filter_app, length_app. simpl. lia.
  - unfold active_loops; simpl.
    replace (length (tasks s)) with (length (tasks s) + 0) by lia.
    rewrite insert_app_r. simpl. rewrite filter_app, length_app. simpl. lia.
Qed.

(** C2, as the code has it.  The flag [isConnected] makes [connect()] return
    at once only when the manager is connected.  Every call made while it is
    not connected, whatever the number of loops already running or waiting,
    starts a loop of its own and makes an attempt of its own: after [k]
    further calls there are [k] more loops and [k] more attempts.  A loop
    ends without a further attempt when its timer fires on a connected
    manager. *)
Theorem every_call_while_disconnected_starts_a_loop (s : system) (k : nat) :
  let s' := run (replicate k Invoke) s in
  mgr s' = mgr s ∧
  attempts s' = attempts s + (if isConnected (mgr s) then 0 else k) ∧
  active_loops s' = active_loops s + (if isConnected (mgr s) then 0 else k) ∧
  (∀ tid n, tasks s !! tid = Some (Task AwaitTimer n) →
            isConnected (mgr s) = true →
            step s (TimerFired tid) = set_task tid (Task Returned (S n)) s).
Proof.
  assert (Hloop : ∀ s : system, ∀ tid n,
    tasks s !! tid = Some (Task AwaitTimer n) → isConnected (mgr s) = true →
    step s (TimerFired tid) = set_task tid (Task Returned (S n)) s).
  { intros s0 tid n Ht Hc. simpl. rewrite Ht. unfold loop. by rewrite Hc. }
  cut (let s' := run (replicate k Invoke) s in
       mgr s' = mgr s ∧
       attempts s' = attempts s + (if isConnected (mgr s) then 0 else k) ∧
       active_loops s' = active_loops s + (if isConnected (mgr s) then 0 else k)).
  { intros (? & ? & ?). auto. }
  clear Hloop. revert s. induction k as [|k IH]; intros s.
  - simpl. destruct (isConnected (mgr s)); repeat split; lia.
  - cbn [replicate]. rewrite run_cons. change (step s Invoke) with (connect s).
    specialize (IH (connect s)). cbn zeta in IH. destruct IH as (Hm & Ha & Hl).
    cbn zeta. rewrite Hm, Ha, Hl.
    destruct (isConnected (mgr s)) eqn:Hc.
    + destruct (connect_connected s Hc) as (-> & -> & ->). rewrite Hc.
      repeat split; lia.
    + destruct (connect_disconnected s Hc) as (-> & -> & ->). rewrite Hc.
      repeat split; lia.
Qed.

Lemma every_call_while_disconnected_starts_a_loop_witness :
  let s := run (replicate 3 Invoke) (boot (constructor default_options)) in
  attempts s = 3 ∧ active_loops s = 3.
Proof.
  intros s.
  destruct (every_call_while_disconnected_starts_a_loop
              (boot (constructor default_options)) 3) as (_ & Ha & Hl & _).
  split; [exact Ha|exact Hl].
Defined.

(** C2, as stated, fails.  With a broker that accepts every attempt, one
    call of [connect()] makes one attempt; a second call made while the
    first one waits for [amqp.connect] runs a second loop, and two attempts
    are made.  The same happens when a connection that was established
    emits ['error'] and then ['close']: each of the two listeners calls
    [connect()], the second one while the loop of the first waits for its
    timer. *)
Lemma concurrent_calls_run_two_loops :
  let m := constructor default_options in
  attempts (run (single_call [] 1 1) (boot m)) = 1 ∧
  active_loops (run [Invoke; Invoke] (boot m)) = 2 ∧
  attempts (run ([Invoke; Invoke] ++ succeeding 0 1 1 ++ succeeding 1 2 2) (boot m)) = 2 ∧
  let up := run (single_call [] 1 1) (boot m) in
  active_loops up = 0 ∧
  active_loops (run [ErrorEvent 1 VNull; Connected 1 (Err VNull); CloseEvent 1] up) = 2.
Proof. by vm_compute. Qed.

(** *** A connected manager has a channel *)

Lemma lookup_set_task (tid tid' : nat) (t t' : task) (l : list task) :
  <[tid := t]> l !! tid' = Some t' → t' = t ∨ l !! tid' = Some t'.
Proof.
  intros H. apply list_lookup_insert_Some in H as [(-> & -> & _)|[_ H]]; auto.
Qed.

Lemma lookup_new_task (tid' : nat) (t t' : task) (l : list task) :
  (l ++ [t]) !! tid' = Some t' → t' = t ∨ l !! tid' = Some t'.
Proof.
  intros H. apply lookup_app_Some in H as [H|[_ H]]; [by right|].
  left. destruct (tid' - length l) as [|[|?]]; simpl in H; congruence.
Qed.

(** The three parts of [consistent], for a state whose manager still has
    the connection and the channel it had, and whose tasks are the old ones
    but for tasks that wait for neither the channel nor the queue. *)
Ltac consistent_tasks H :=
  repeat first [ apply lookup_set_task in H as [[=]|H]
               | apply lookup_new_task in H as [[=]|H] ].

Lemma consistent_connect (s : system) : consistent s → consistent (connect s).
Proof.
  intros (H1 & H2 & H3). unfold connect, loop.
  destruct (isConnected (mgr s)) eqn:Hc; simpl; rewrite ?Hc; simpl.
  - split; [intros _; by apply H1|].
    split; intros tid n H; consistent_tasks H; eauto.
  - split; [simpl; intros Hc'; congruence|].
    split; simpl; intros tid n H; consistent_tasks H; eauto.
Qed.

Lemma consistent_listener (a : action) (s : system) :
  consistent s → consistent (listener a s).
Proof.
  intros (H1 & H2 & H3). apply consistent_connect.
  split; [done|]. split; simpl; eauto.
Qed.

Lemma consistent_catch (tid n : nat) (e : exn) (s : system) :
  consistent s → consistent (catch tid n e s).
Proof.
  intros (H1 & H2 & H3). unfold catch; simpl. split; [done|].
  split; intros tid' n' H; consistent_tasks H; eauto.
Qed.

Lemma consistent_step (s : system) (ev : event) :
  consistent s → consistent (step s ev).
Proof.
  intros Hs. pose proof Hs as (H1 & H2 & H3).
  destruct ev as [|tid r|tid r|tid r|tid|c e|c]; simpl.
  - by apply consistent_connect.
  - destruct (tasks s !! tid) as [[[] n]|] eqn:Ht; try done.
    destruct r as [c|e]; [|by apply consistent_catch].
    split; simpl; [intros Hc; destruct (H1 Hc) as [_ ?]; eauto|].
    split; intros tid' n' H; consistent_tasks H; eauto;
      destruct (H3 _ _ H) as [? ?]; eauto.
  - destruct (tasks s !! tid) as [[[] n]|] eqn:Ht; try done.
    destruct r as [ch|e]; [|by apply consistent_catch].
    split; simpl; [intros Hc; destruct (H1 Hc) as [? _]; eauto|].
    split; intros tid' n' H; consistent_tasks H; eauto;
      destruct (H3 _ _ H) as [? ?]; eauto.
  - destruct (tasks s !! tid) as [[[] n]|] eqn:Ht; try done.
    destruct r as [[]|e]; [|by apply consistent_catch].
    destruct (H3 _ _ Ht) as [[c Hc] Hch]. rewrite Hc.
    split; simpl; [rewrite Hc; eauto|].
    split; intros tid' n' H; consistent_tasks H; simpl; rewrite ?Hc; eauto.
  - destruct (tasks s !! tid) as [[[] n]|] eqn:Ht; try done.
    unfold loop. destruct (isConnected (mgr s)) eqn:Hc; simpl; rewrite ?Hc.
    + split; [intros _; by apply H1|].
      split; intros tid' n' H; consistent_tasks H; eauto.
    + split; [simpl; intros Hc'; congruence|].
      split; simpl; intros tid' n' H; consistent_tasks H; eauto.
  - induction (filter _ _) as [|? l IH]; simpl; [done|]. by apply consistent_listener.
  - induction (filter _ _) as [|? l IH]; simpl; [done|]. by apply consistent_listener.
Qed.

Lemma consistent_run (evs : list event) (s : system) :
  consistent s → consistent (run evs s).
Proof.
  revert s. induction evs as [|ev evs IH]; intros s Hs; [done|].
  rewrite run_cons. by apply IH, consistent_step.
Qed.

(** From the manager the constructor builds, whatever happens, a manager
    that is connected has a channel: no channel means not connected. *)
Lemma connected_has_a_channel (o : options) (evs : list event) :
  let s := run evs (boot (constructor o)) in
  isConnected (mgr s) = true → is_Some (channel (mgr s)).
Proof.
  intros s Hc. assert (Hs : consistent s).
  { apply consistent_run. split; [done|]. split; intros tid n H; done. }
  destruct Hs as (H1 & _). by destruct (H1 Hc).
Qed.

(** *** [sendMessage] *)

(** C4, as the code has it.  [sendMessage] does not read [isConnected]: it
    hands the message to [this.channel] whenever there is one.  It does not
    resolve by itself: with a channel that takes the message the promise is
    pending, and the confirmation callback settles it, resolving it on a
    positive acknowledgement (no error) and rejecting it with the error of a
    negative one; an error thrown by the channel rejects it.  The call fails
    for want of a channel, rejected with a [TypeError] and with nothing
    sent nor kept, exactly when [this.channel] is null.  A manager that has
    no channel is not connected; the converse does not hold. *)
Theorem sendMessage_waits_for_the_broker
    (m : manager) (message : value) (lib : handover) :
  (sendMessage m message lib).1 ≠ Fulfilled ∧
  (channel m = None ↔
     ∃ text, sendMessage m message lib = (Rejected (TypeError text), [])) ∧
  (∀ ch, channel m = Some ch →
     (lib = Accepted →
        sendMessage m message lib = (Pending, [SendToQueue ch (queue m) message true]) ∧
        confirm Pending VNull = Fulfilled ∧
        confirm Pending VUndef = Fulfilled ∧
        (∀ err, truthy err = true → confirm Pending err = Rejected (Library err))) ∧
     (∀ e, lib = SendThrows e ∨ lib = EncodeThrows e →
        (sendMessage m message lib).1 = Rejected (Library e))) ∧
  (∀ p err, confirm p err = Fulfilled →
            p = Fulfilled ∨ (p = Pending ∧ truthy err = false)) ∧
  (∀ b, sendMessage (set_isConnected b m) message lib = sendMessage m message lib) ∧
  (∀ o evs, m = mgr (run evs (boot (constructor o))) →
            channel m = None → isConnected m = false).
Proof.
  split; [|split; [|split; [|split; [|split]]]].
  - unfold sendMessage. destruct (channel m), lib; simpl; congruence.
  - unfold sendMessage. split.
    + intros ->. eauto.
    + intros [text H]. destruct (channel m); [|done]. by destruct lib.
  - intros ch Hch. unfold sendMessage. rewrite Hch. split.
    + intros ->. repeat split. intros err Herr. simpl. by rewrite Herr.
    + by intros e [-> | ->].
  - intros p err. destruct p; simpl; [|by left|done].
    destruct (truthy err); [done|]. by right.
  - done.
  - intros o evs -> Hnone.
    destruct (isConnected (mgr (run evs (boot (constructor o))))) eqn:Hc; [|done].
    destruct (connected_has_a_channel o evs Hc) as [ch Hch]. congruence.
Qed.

Lemma sendMessage_waits_for_the_broker_witness :
  let m := constructor default_options in
  (∃ text, sendMessage m (VStr "record") Accepted = (Rejected (TypeError text), [])) ∧
  sendMessage (set_channel 1 m) (VStr "record") Accepted
  = (Pending, [SendToQueue 1 (VStr "default_queue") (VStr "record") true]) ∧
  confirm Pending VNull = Fulfilled ∧
  confirm Pending (VRef 7) = Rejected (Library (VRef 7)).
Proof.
  intros m.
  destruct (sendMessage_waits_for_the_broker m (VStr "record") Accepted)
    as (_ & Hnone & _).
  destruct (sendMessage_waits_for_the_broker (set_channel 1 m) (VStr "record") Accepted)
    as (_ & _ & Hsome & _).
  destruct (Hsome 1 eq_refl) as [Hacc _].
  destruct (Hacc eq_refl) as (Hsend & Hack & _ & Hnack).
  split; [by apply Hnone|]. split; [exact Hsend|]. split; [exact Hack|].
  by apply Hnack.
Defined.

(** C4, as stated, fails: not connected does not mean no channel.  While a
    call of [connect()] waits for the queue to be asserted, the manager is
    not connected and holds the channel it has just created: [sendMessage]
    hands the message to that channel, and the acknowledgement of the
    broker resolves the promise. *)
Lemma sendMessage_sends_while_not_connected :
  let m := constructor default_options in
  let s := run [Invoke; Connected 0 (Ok 1); ChannelCreated 0 (Ok 2)] (boot m) in
  isConnected (mgr s) = false ∧
  tasks s = [Task AwaitAssert 0] ∧
  sendMessage (mgr s) (VStr "record") Accepted
  = (Pending, [SendToQueue 2 (VStr "default_queue") (VStr "record") true]) ∧
  confirm Pending VNull = Fulfilled.
Proof. by vm_compute. Qed.

(** *** [close] *)

(** C5, as the code has it.  [close()] clears [isConnected] first, in every
    state, and closes the channel before the connection; it has no handler
    for the errors of the two closures: when one of them fails, the promise
    of [close()] is rejected with that error, and what comes after (closing
    the connection, the line on the console) is not done. *)
Theorem close_disconnects_and_propagates
    (m : manager) (on_channel on_connection : closing) :
  let '(m', done, p) := close m on_channel on_connection in
  m' = set_isConnected false m ∧
  (∀ i j ch c, done !! i = Some (CloseChannel ch) →
               done !! j = Some (CloseConnection c) → i < j) ∧
  (∀ ch e, channel m = Some ch → on_channel = CloseFails e →
           p = Rejected (Library e) ∧ done = [CloseChannel ch]) ∧
  (∀ c e, connection m = Some c → on_connection = CloseFails e →
          channel m = None ∨ on_channel = Closes →
          p = Rejected (Library e) ∧ last done = Some (CloseConnection c)) ∧
  (p = Fulfilled →
     last done = Some (ConsoleLog (Text "RabbitMQ connection closed")) ∧
     (∀ ch, channel m = Some ch → on_channel = Closes ∧ CloseChannel ch ∈ done) ∧
     (∀ c, connection m = Some c → on_connection = Closes ∧ CloseConnection c ∈ done)).
Proof.
  unfold close.
  destruct (channel m) as [ch|], (connection m) as [c|], on_channel, on_connection;
    simpl; (split; [done|]); (split; [|split; [|split]]);
    try (intros [|[|[|i]]] [|[|[|j]]]; simpl; intros; simplify_eq; lia);
    try (intros; simplify_eq; done);
    try (intros ? ? ? ? [?|?]; simplify_eq; done);
    try (intros; split_and!; intros; simplify_eq; set_solver).
Qed.

Lemma close_disconnects_and_propagates_witness :
  let m := Manager (Settings default_options "amqp" 60) (Some 1) (Some 2)
                   (VStr "default_queue") (num 1000) true in
  (close m Closes (CloseFails VNull)).2 = Rejected (Library VNull) ∧
  isConnected (close m Closes Closes).1.1 = false.
Proof.
  intros m.
  pose proof (close_disconnects_and_propagates m Closes (CloseFails VNull)) as H1.
  pose proof (close_disconnects_and_propagates m Closes Closes) as H2.
  destruct (close m Closes (CloseFails VNull)) as [[m1 d1] p1].
  destruct (close m Closes Closes) as [[m2 d2] p2].
  destruct H1 as (_ & _ & _ & Hconn & _). destruct H2 as (-> & _).
  split; [|reflexivity].
  by destruct (Hconn 1 VNull eq_refl eq_refl (or_intror eq_refl)).
Defined.

(** C5, as stated, fails: the error of [channel.close()] reaches the caller
    as the rejection of [close()], and the connection is not closed. *)
Lemma close_rejects_when_the_channel_fails :
  let m := Manager (Settings default_options "amqp" 60) (Some 1) (Some 2)
                   (VStr "default_queue") (num 1000) true in
  close m (CloseFails (VStr "Channel closed")) Closes
  = (set_isConnected false m, [CloseChannel 2],
     Rejected (Library (VStr "Channel closed"))).
Proof. reflexivity. Qed.

(** *** The listeners *)

Lemma listener_spec (a : action) (s : system) :
  is_connect a = false →
  tasks (listener a s) = tasks s ++ [Task AwaitConnect 0] ∧
  listeners (listener a s) = listeners s ∧
  mgr (listener a s) = set_isConnected false (mgr s) ∧
  trace (listener a s) = trace s ++ [a; Connect (config (mgr s))].
Proof.
  intros Ha. unfold listener, connect, loop. simpl.
  replace (length (tasks s)) with (length (tasks s) + 0) by lia.
  rewrite insert_app_r. simpl. by rewrite <- app_assoc.
Qed.

Lemma listeners_spec (a : action) (l : list conn) (s : system) :
  is_connect a = false →
  let s' := foldr (λ _, listener a) s l in
  tasks s' = tasks s ++ replicate (length l) (Task AwaitConnect 0) ∧
  listeners s' = listeners s ∧
  mgr s' = (if l is [] then mgr s else set_isConnected false (mgr s)) ∧
  trace s' = trace s ++ concat (replicate (length l) [a; Connect (config (mgr s))]).
Proof.
  intros Ha. induction l as [|c l IH]; cbv zeta in *; cbn [foldr length].
  - simpl. by rewrite !app_nil_r.
  - destruct IH as (Ht & Hl & Hm & Htr).
    destruct (listener_spec a (foldr (λ _, listener a) s l) Ha) as (Ht' & Hl' & Hm' & Htr').
    rewrite Ht', Hl', Hm', Htr', Ht, Hl, Hm, Htr.
    split; [|split; [done|split]].
    + rewrite <- app_assoc. f_equal.
      change [Task AwaitConnect 0] with (replicate 1 (Task AwaitConnect 0)).
      rewrite <- replicate_add. f_equal. lia.
    + by destruct l.
    + rewrite <- app_assoc. f_equal.
      assert (Hcfg : config (if l is [] then mgr s else set_isConnected false (mgr s))
                     = config (mgr s)) by (by destruct l).
      rewrite Hcfg.
      change [a; Connect (config (mgr s))]
        with (concat (replicate 1 [a; Connect (config (mgr s))])) at 2.
      rewrite <- concat_app, <- replicate_add. do 2 f_equal. lia.
Qed.

Lemma attempts_app (s : system) (tr : list action) :
  attempts (System (mgr s) (tasks s) (listeners s) (trace s ++ tr))
  = attempts s + length (filter is_connect tr).
Proof. unfold attempts. simpl. by rewrite filter_app, length_app. Qed.

Lemma filter_connect_pairs (a : action) (cfg : settings) (n : nat) :
  is_connect a = false →
  length (filter is_connect (concat (replicate n [a; Connect cfg]))) = n.
Proof.
  intros Ha. induction n as [|n IH]; [done|]. simpl.
  rewrite filter_cons. destruct (decide (is_connect a)) as [H|_]; [by rewrite Ha in H|].
  rewrite filter_cons. simpl. by rewrite IH.
Qed.

Lemma filter_active_new (n : nat) :
  length (filter is_active (replicate n (Task AwaitConnect 0))) = n.
Proof.
  induction n as [|n IH]; [done|]. cbn [replicate]. rewrite filter_cons. simpl.
  by rewrite IH.
Qed.

(** X16.  Each listener clears [isConnected] and calls [connect()]: an
    ['error'] or a ['close'] event of a connection starts one retry loop,
    and makes one attempt, for each time the listeners were registered on
    that connection, in every state of the manager, also when it is
    connected through a newer connection or is reconnecting already.  The
    connection and the channel stored stay as they are, and an event of a
    connection without listeners changes nothing. *)
Theorem every_event_of_a_connection_starts_a_loop (s : system) (c : conn) (e : value) :
  let n := length (filter (λ c', c' = c) (listeners s)) in
  let started (s' : system) :=
    attempts s' = attempts s + n ∧
    active_loops s' = active_loops s + n ∧
    tasks s' = tasks s ++ replicate n (Task AwaitConnect 0) ∧
    listeners s' = listeners s ∧
    connection (mgr s') = connection (mgr s) ∧
    channel (mgr s') = channel (mgr s) ∧
    (0 < n → isConnected (mgr s') = false) ∧
    (n = 0 → s' = s) in
  started (step s (ErrorEvent c e)) ∧ started (step s (CloseEvent c)).
Proof.
  intros n started.
  assert (H : ∀ a, is_connect a = false →
    started (foldr (λ _, listener a) s (filter (λ c', c' = c) (listeners s)))).
  { intros a Ha.
    destruct (listeners_spec a (filter (λ c', c' = c) (listeners s)) s Ha)
      as (Ht & Hl & Hm & Htr).
    fold n in Ht, Htr. unfold started. split; [|split; [|split; [|split]]].
    - unfold attempts. rewrite Htr, filter_app, length_app.
      by rewrite filter_connect_pairs.
    - unfold active_loops. rewrite Ht, filter_app, length_app.
      by rewrite filter_active_new.
    - done.
    - done.
    - rewrite Hm. unfold n.
      destruct (filter _ _) as [|c0 l] eqn:Hf; simpl.
      + split; [done|]. split; [done|]. split; [lia|]. done.
      + split; [done|]. split; [done|]. split; [done|]. lia. }
  split; apply H; done.
Qed.

(** *** What the manager never drops *)











(** *** One loop among others *)

Lemma loop_disconnected (tid n : nat) (s : system) :
  isConnected (mgr s) = false →
  loop tid n s
  = System (mgr s) (<[tid := Task AwaitConnect n]> (tasks s)) (listeners s)
      (trace s ++ (if Nat.ltb 0 n
                   then [ConsoleLog (Text "Attempting to reconnect to RabbitMQ...")]
                   else []) ++ [Connect (config (mgr s))]).
Proof. intros H. unfold loop. by rewrite H. Qed.

Lemma step_connected (tid n : nat) (r : outcome conn) (s : system) :
  tasks s !! tid = Some (Task AwaitConnect n) →
  step s (Connected tid r)
  = match r with
    | Ok c =>
        System (set_connection c (mgr s)) (<[tid := Task AwaitChannel n]> (tasks s))
          (listeners s) (trace s ++ [CreateConfirmChannel c])
    | Err e => catch tid n (Library e) s
    end.
Proof. intros H. simpl. rewrite H. by destruct r. Qed.

Lemma step_channel (tid n : nat) (r : outcome chan) (s : system) :
  tasks s !! tid = Some (Task AwaitChannel n) →
  step s (ChannelCreated tid r)
  = match r with
    | Ok ch =>
        System (set_channel ch (mgr s)) (<[tid := Task AwaitAssert n]> (tasks s))
          (listeners s) (trace s ++ [AssertQueue ch (queue (mgr s)) true])
    | Err e => catch tid n (Library e) s
    end.
Proof. intros H. simpl. rewrite H. by destruct r. Qed.

Lemma step_asserted (tid n : nat) (r : outcome unit) (c : conn) (s : system) :
  tasks s !! tid = Some (Task AwaitAssert n) → connection (mgr s) = Some c →
  step s (QueueAsserted tid r)
  = match r with
    | Ok _ =>
        System (set_isConnected true (mgr s)) (<[tid := Task Returned n]> (tasks s))
          (listeners s ++ [c])
          (trace s ++ [ConsoleLog (Text "RabbitMQ connected"); Listen c; Listen c])
    | Err e => catch tid n (Library e) s
    end.
Proof. intros H Hc. simpl. rewrite H, Hc. by destruct r. Qed.

Lemma step_timer (tid n : nat) (s : system) :
  tasks s !! tid = Some (Task AwaitTimer n) →
  step s (TimerFired tid) = loop tid (S n) s.
Proof. intros H. simpl. by rewrite H. Qed.

(** The wait after a failure, and the next attempt. *)
Lemma retry_at (tid k : nat) (e : exn) (s : system) :
  tid < length (tasks s) → isConnected (mgr s) = false →
  step (catch tid k e s) (TimerFired tid)
  = System (mgr s) (<[tid := Task AwaitConnect (S k)]> (tasks s)) (listeners s)
      (trace s ++ [ConsoleError (Failure (Nat.ltb 0 k) k e);
                   ConsoleLog (Waiting (retryDelay (mgr s)));
                   SetTimeout (retryDelay (mgr s));
                   ConsoleLog (Text "Attempting to reconnect to RabbitMQ...");
                   Connect (config (mgr s))]).
Proof.
  intros Hlt Hc. rewrite (step_timer tid k) by (by apply list_lookup_insert_eq).
  rewrite loop_disconnected by done. unfold catch. simpl.
  by rewrite list_insert_insert_eq, <- app_assoc.
Qed.

Lemma round_at (tid k : nat) (f : failure) (s : system) :
  tasks s !! tid = Some (Task AwaitConnect k) → isConnected (mgr s) = false →
  ∃ m' tr',
    run (round tid f) s
    = System m' (<[tid := Task AwaitConnect (S k)]> (tasks s)) (listeners s)
             (trace s ++ tr') ∧
    isConnected m' = false ∧ config m' = config (mgr s) ∧
    queue m' = queue (mgr s) ∧ retryDelay m' = retryDelay (mgr s) ∧
    length (filter is_connect tr') = 1 ∧
    omap console_error tr' = [failure_line k f] ∧
    omap console_log tr' = [Waiting (retryDelay (mgr s)); reconnecting] ∧
    all_before disconnected (round tid f) s.
Proof.
  intros Ht Hc. pose proof (lookup_lt_Some _ _ _ Ht) as Hlt.
  destruct f as [e|c e|c ch e]; unfold round, failing; cbn [app].
  - rewrite !run_cons, (step_connected tid k) by done.
    rewrite retry_at by done. eexists _, _. split; [reflexivity|].
    repeat (split; [done|]).
    apply all_before_cons; [done|]. rewrite (step_connected tid k) by done.
    apply all_before_cons; [done|]. apply all_before_nil.
  - rewrite !run_cons, (step_connected tid k) by done.
    set (s1 := System _ _ _ _).
    assert (H1 : tasks s1 !! tid = Some (Task AwaitChannel k))
      by (by apply list_lookup_insert_eq).
    rewrite (step_channel tid k) by done.
    rewrite retry_at by (simpl; rewrite ?length_insert; done). simpl.
    rewrite list_insert_insert_eq, <- app_assoc.
    eexists _, _. split; [reflexivity|]. repeat (split; [done|]).
    apply all_before_cons; [done|]. rewrite (step_connected tid k) by done. fold s1.
    apply all_before_cons; [done|]. rewrite (step_channel tid k) by done.
    apply all_before_cons; [done|]. apply all_before_nil.
  - rewrite !run_cons, (step_connected tid k) by done.
    set (s1 := System _ _ _ _).
    assert (H1 : tasks s1 !! tid = Some (Task AwaitChannel k))
      by (by apply list_lookup_insert_eq).
    rewrite (step_channel tid k) by done.
    set (s2 := System _ _ _ _).
    assert (H2 : tasks s2 !! tid = Some (Task AwaitAssert k))
      by (apply list_lookup_insert_eq; simpl; by rewrite length_insert).
    rewrite (step_asserted tid k _ c) by done.
    rewrite retry_at by (simpl; rewrite ?length_insert; done). simpl.
    rewrite !list_insert_insert_eq, <- !app_assoc.
    eexists _, _. split; [reflexivity|]. repeat (split; [done|]).
    apply all_before_cons; [done|]. rewrite (step_connected tid k) by done. fold s1.
    apply all_before_cons; [done|]. rewrite (step_channel tid k) by done. fold s2.
    apply all_before_cons; [done|]. rewrite (step_asserted tid k _ c) by done.
    apply all_before_cons; [done|]. apply all_before_nil.
Qed.

Lemma rounds_at (tid k : nat) (fs : list failure) (s : system) :
  tasks s !! tid = Some (Task AwaitConnect k) → isConnected (mgr s) = false →
  ∃ m' tr',
    run (concat (round tid <$> fs)) s
    = System m' (<[tid := Task AwaitConnect (k + length fs)]> (tasks s)) (listeners s)
             (trace s ++ tr') ∧
    isConnected m' = false ∧ config m' = config (mgr s) ∧
    queue m' = queue (mgr s) ∧ retryDelay m' = retryDelay (mgr s) ∧
    length (filter is_connect tr') = length fs ∧
    omap console_error tr' = imap (λ i f, failure_line (k + i) f) fs ∧
    omap console_log tr'
    = concat (replicate (length fs) [Waiting (retryDelay (mgr s)); reconnecting]) ∧
    all_before disconnected (concat (round tid <$> fs)) s.
Proof.
  revert k s. induction fs as [|f fs IH]; intros k s Ht Hc.
  - exists (mgr s), []. rewrite Nat.add_0_r, app_nil_r, list_insert_id by done.
    split; [by destruct s|]. repeat (split; [done|]). apply all_before_nil.
  - destruct (round_at tid k f s Ht Hc)
      as (m1 & tr1 & Hrun & Hc1 & Hcfg1 & Hq1 & Hd1 & Hn1 & He1 & Hl1 & Hb1).
    pose proof (lookup_lt_Some _ _ _ Ht) as Hlt.
    destruct (IH (S k) (run (round tid f) s))
      as (m2 & tr2 & Hrun2 & Hc2 & Hcfg2 & Hq2 & Hd2 & Hn2 & He2 & Hl2 & Hb2).
    { rewrite Hrun. simpl. by apply list_lookup_insert_eq. }
    { by rewrite Hrun. }
    exists m2, (tr1 ++ tr2). rewrite fmap_cons, concat_cons, run_app, Hrun2, Hrun. simpl.
    rewrite Hrun in Hcfg2, Hq2, Hd2, Hl2. simpl in *.
    rewrite list_insert_insert_eq, <- app_assoc.
    replace (k + S (length fs)) with (S k + length fs) by lia.
    split; [done|]. split; [done|]. split; [congruence|]. split; [congruence|].
    split; [congruence|]. split.
    { rewrite filter_app, length_app. lia. }
    split.
    { rewrite omap_app, He1, He2. simpl. rewrite Nat.add_0_r. f_equal.
      apply imap_ext. intros i x _. simpl. f_equal. lia. }
    split.
    { rewrite omap_app, Hl1, Hl2. by rewrite Hd1. }
    apply all_before_app; [done|]. by rewrite Hrun in Hb2 |- *.
Qed.

Lemma success_at (tid k : nat) (c : conn) (ch : chan) (s : system) :
  tasks s !! tid = Some (Task AwaitConnect k) → isConnected (mgr s) = false →
  run (succeeding tid c ch) s
  = System (Manager (config (mgr s)) (Some c) (Some ch) (queue (mgr s))
              (retryDelay (mgr s)) true)
      (<[tid := Task Returned k]> (tasks s)) (listeners s ++ [c])
      (trace s ++ [CreateConfirmChannel c; AssertQueue ch (queue (mgr s)) true;
                   ConsoleLog (Text "RabbitMQ connected"); Listen c; Listen c]) ∧
  all_before disconnected (succeeding tid c ch) s.
Proof.
  intros Ht Hc. pose proof (lookup_lt_Some _ _ _ Ht) as Hlt.
  unfold succeeding. rewrite !run_cons, (step_connected tid k) by done.
  set (s1 := System _ _ _ _).
  assert (H1 : tasks s1 !! tid = Some (Task AwaitChannel k))
    by (by apply list_lookup_insert_eq).
  rewrite (step_channel tid k) by done.
  set (s2 := System _ _ _ _).
  assert (H2 : tasks s2 !! tid = Some (Task AwaitAssert k))
    by (apply list_lookup_insert_eq; simpl; by rewrite length_insert).
  rewrite (step_asserted tid k _ c) by done. simpl.
  rewrite !list_insert_insert_eq, <- !app_assoc. split; [done|].
  apply all_before_cons; [done|]. rewrite (step_connected tid k) by done. fold s1.
  apply all_before_cons; [done|]. rewrite (step_channel tid k) by done. fold s2.
  apply all_before_cons; [done|]. apply all_before_nil.
Qed.

(** X18.  Automatic reconnection.  When a connection that carries one
    pair of listeners emits ['close'] or ['error'], a new loop starts; if
    its next [N] attempts fail and the one after succeeds, the manager is
    connected again, to the new connection and channel, after [N + 1]
    attempts, and it is not connected at any moment in between.  The
    listeners of the old connection stay.  (The other invocations receive
    no event meanwhile.) *)
Theorem the_manager_reconnects
    (s : system) (c : conn) (e : value) (fs : list failure) (c' : conn) (ch' : chan) :
  length (filter (λ x, x = c) (listeners s)) = 1 →
  let tid := length (tasks s) in
  let rest := concat (round tid <$> fs) ++ succeeding tid c' ch' in
  let reconnected (ev : event) :=
    let s' := run (ev :: rest) s in
    isConnected (mgr s') = true ∧
    connection (mgr s') = Some c' ∧ channel (mgr s') = Some ch' ∧
    attempts s' = attempts s + S (length fs) ∧
    tasks s' = tasks s ++ [Task Returned (length fs)] ∧
    listeners s' = listeners s ++ [c'] ∧
    (∀ n, 0 < n < S (length rest) →
          isConnected (mgr (run (take n (ev :: rest)) s)) = false) in
  reconnected (CloseEvent c) ∧ reconnected (ErrorEvent c e).
Proof.
  intros Hone tid rest reconnected.
  assert (H : ∀ a ev, is_connect a = false → step s ev = listener a s → reconnected ev).
  { intros a ev Ha Hev. unfold reconnected. cbv zeta. rewrite run_cons.
    destruct (listener_spec a s Ha) as (Ht & Hl & Hm & Htr).
    rewrite <- Hev in Ht, Hl, Hm, Htr.
    assert (Ht1 : tasks (step s ev) !! tid = Some (Task AwaitConnect 0)).
    { rewrite Ht. by rewrite lookup_app_r, Nat.sub_diag by done. }
    assert (Hc1 : isConnected (mgr (step s ev)) = false) by (by rewrite Hm).
    destruct (rounds_at tid 0 fs (step s ev) Ht1 Hc1)
      as (m2 & tr2 & Hrun2 & Hc2 & Hcfg2 & Hq2 & Hd2 & Hn2 & _ & _ & Hb2).
    assert (Ht2 : tasks (run (concat (round tid <$> fs)) (step s ev)) !! tid
                  = Some (Task AwaitConnect (length fs))).
    { rewrite Hrun2. simpl. apply list_lookup_insert_eq. by eapply lookup_lt_Some. }
    assert (Hc2' : isConnected (mgr (run (concat (round tid <$> fs)) (step s ev))) = false)
      by (by rewrite Hrun2).
    destruct (success_at tid (length fs) c' ch' _ Ht2 Hc2') as (Hrun3 & Hb3).
    assert (Hall : all_before disconnected rest (step s ev)).
    { unfold rest. by apply all_before_app. }
    unfold rest. rewrite run_app, Hrun3.
    rewrite Hrun2. cbn [mgr tasks listeners trace isConnected connection channel].
    split; [done|]. split; [done|]. split; [done|]. split.
    { unfold attempts. cbn [trace]. rewrite Htr.
      rewrite !filter_app, !length_app, Hn2. simpl.
      rewrite filter_cons. destruct (decide (is_connect a)) as [H|_]; [by rewrite Ha in H|].
      simpl. lia. }
    split.
    { rewrite list_insert_insert_eq, Ht.
      replace tid with (length (tasks s) + 0) by (unfold tid; lia).
      by rewrite insert_app_r. }
    split; [by rewrite Hl|].
    intros [|n] Hn; [lia|]. cbn [take]. rewrite run_cons.
    apply Hall. unfold rest. lia. }
  assert (Hone' : ∃ c0, filter (λ x, x = c) (listeners s) = [c0]).
  { destruct (filter _ _) as [|c0 [|]]; try done. by exists c0. }
  destruct Hone' as [c0 Hf].
  split;
    [apply (H (ConsoleLog (Text "RabbitMQ connection closed")))
    |apply (H (ConsoleError (ConnectionError e)))];
    try done; unfold step; by rewrite Hf.
Qed.

Lemma the_manager_reconnects_witness :
  let s := run (single_call [] 1 1) (boot (constructor default_options)) in
  let s' := run (CloseEvent 1 :: round 1 (ConnectFails VNull) ++ succeeding 1 2 2) s in
  isConnected (mgr s) = true ∧ connection (mgr s) = Some 1 ∧
  isConnected (mgr s') = true ∧ connection (mgr s') = Some 2 ∧
  attempts s' = attempts s + 2 ∧ listeners s' = [1; 2].
Proof.
  intros s s'.
  destruct (the_manager_reconnects s 1 VNull [ConnectFails VNull] 2 2)
    as [(Hc & Hconn & _ & Ha & _ & Hl & _) _]; [by vm_compute|].
  split; [by vm_compute|]. split; [by vm_compute|].
  split; [exact Hc|]. split; [exact Hconn|]. split; [exact Ha|]. exact Hl.
Defined.

(** X19.  [close()] clears [isConnected] and leaves the pending
    invocations and the listeners in place: after it, a loop that waits for
    its timer makes its next attempt, a loop whose attempt is under way
    completes it and marks the manager connected again, and the ['close']
    event of a connection with listeners starts a new loop. *)
Theorem close_does_not_end_the_reconnection
    (s : system) (on_channel on_connection : closing) :
  let s1 := update_mgr (λ m, (close m on_channel on_connection).1.1) s in
  isConnected (mgr s1) = false ∧
  tasks s1 = tasks s ∧ listeners s1 = listeners s ∧
  (∀ tid n, tasks s !! tid = Some (Task AwaitTimer n) →
     attempts (step s1 (TimerFired tid)) = S (attempts s1) ∧
     tasks (step s1 (TimerFired tid)) !! tid = Some (Task AwaitConnect (S n))) ∧
  (∀ tid n c ch, tasks s !! tid = Some (Task AwaitConnect n) →
     isConnected (mgr (run (succeeding tid c ch) s1)) = true ∧
     connection (mgr (run (succeeding tid c ch) s1)) = Some c) ∧
  (∀ c, c ∈ listeners s →
     attempts s1 < attempts (step s1 (CloseEvent c)) ∧
     active_loops s1 < active_loops (step s1 (CloseEvent c))).
Proof.
  intros s1.
  assert (Hm : mgr s1 = set_isConnected false (mgr s)).
  { unfold s1, update_mgr, close. simpl.
    by destruct (channel (mgr s)), on_channel, (connection (mgr s)), on_connection. }
  assert (Hc : isConnected (mgr s1) = false) by (by rewrite Hm).
  split; [done|]. split; [done|]. split; [done|]. split; [|split].
  - intros tid n Ht. rewrite (step_timer tid n) by done.
    rewrite loop_disconnected by done. split.
    + unfold attempts. simpl. rewrite !filter_app, !length_app. simpl. lia.
    + simpl. apply list_lookup_insert_eq. by eapply lookup_lt_Some.
  - intros tid n c ch Ht.
    destruct (success_at tid n c ch s1 Ht Hc) as [-> _]. done.
  - intros c Hin.
    destruct (listeners_spec (ConsoleLog (Text "RabbitMQ connection closed"))
                (filter (λ c', c' = c) (listeners s1)) s1 eq_refl) as (Ht & _ & _ & Htr).
    assert (Hn : 0 < length (filter (λ c', c' = c) (listeners s1))).
    { assert (c ∈ filter (λ c', c' = c) (listeners s1)) as Hc'
        by (by apply list_elem_of_filter).
      destruct (filter _ _); [by apply elem_of_nil in Hc'|simpl; lia]. }
    unfold step, attempts, active_loops. rewrite Ht, Htr.
    rewrite !filter_app, !length_app, filter_connect_pairs, filter_active_new by done.
    lia.
Qed.

(** X20.  What a call of [connect()] that meets [N] failures writes: on
    [console.error] one line for each failed attempt, in order, with the
    number of the attempt (from 0) and the error, the first one worded
    [failed] and the later ones [reconnection]; on [console.log] the wait
    and the announcement of the next attempt after each failure, and
    [RabbitMQ connected] at the end. *)
Theorem every_failure_is_logged
    (m : manager) (fs : list failure) (c : conn) (ch : chan) :
  isConnected m = false →
  let s := run (single_call fs c ch) (boot m) in
  omap console_error (trace s) = imap failure_line fs ∧
  omap console_log (trace s)
  = concat (replicate (length fs) [Waiting (retryDelay m); reconnecting])
    ++ [Text "RabbitMQ connected"].
Proof.
  intros Hm s.
  assert (Hstart : step (boot m) Invoke = System m [Task AwaitConnect 0] [] [Connect (config m)]).
  { unfold step, connect, boot, loop; simpl. by rewrite Hm. }
  set (s0 := System m [Task AwaitConnect 0] [] [Connect (config m)]) in *.
  destruct (rounds_at 0 0 fs s0 eq_refl Hm)
    as (m1 & tr1 & Hrun & Hc1 & _ & _ & _ & _ & He & Hl & _).
  destruct (success_at 0 (length fs) c ch (run (concat (round 0 <$> fs)) s0)) as [Hend _].
  { by rewrite Hrun. }
  { by rewrite Hrun. }
  assert (Hs : s = run (succeeding 0 c ch) (run (concat (round 0 <$> fs)) s0)).
  { unfold s, single_call. by rewrite run_cons, Hstart, run_app. }
  rewrite Hs, Hend, Hrun. simpl. rewrite !omap_app, He, Hl. simpl.
  split; [by rewrite app_nil_r|done].
Qed.

Lemma every_failure_is_logged_witness :
  let m := constructor default_options in
  let fs := [ConnectFails (VStr "ECONNREFUSED"); ChannelFails 1 VNull] in
  let s := run (single_call fs 2 1) (boot m) in
  omap console_error (trace s)
  = [Failure false 0 (Library (VStr "ECONNREFUSED")); Failure true 1 (Library VNull)] ∧
  omap console_log (trace s)
  = [Waiting (num 1000); reconnecting; Waiting (num 1000); reconnecting;
     Text "RabbitMQ connected"].
Proof.
  intros m fs s.
  destruct (every_failure_is_logged m fs 2 1 eq_refl) as [He Hl].
  split; [exact He|exact Hl].
Defined.

End RabbitMQ_facts.
